(** * licitaciones: a shallow embedding of the scraper and of the CPV tree reader

    The development follows the JavaScript / TypeScript sources:
    - [src/utils.ts]           retryOperation, scrapeTable, extractRowData and
                               the field extractors;
    - [src/scraper.ts]         scrape (the pagination loop);
    - [src/selector.spec.ts]   expandAllNodes, the path-map scrapeCPVTree and
                               calculateTreeStats;
    - the unnamed spec file    the depth-walk scrapeCPVTree.

    JavaScript strings are sequences of UTF-16 code units, numbers produced by
    [parseFloat] are kept as the exact decimal they denote (or NaN), objects
    that are mutated through several references live in an explicit store. *)

From Stdlib Require Import QArith Ascii String.
From stdpp Require Import base list gmap strings numbers.

Set Default Proof Using "Type".

(** ** JavaScript strings *)

(** A string is the list of its UTF-16 code units. *)
Abbreviation jsstring := (list N).

(** Literals of the sources are written [js "..."] (ASCII only). *)
Definition js (s : string) : jsstring :=
  N_of_ascii <$> list_ascii_of_string s.

(** [\d] of a regular expression without the [u] flag: ASCII digits only. *)
Definition isDigit (c : N) : bool := ((48 <=? c) && (c <=? 57))%N.

(** LineTerminator code points: LF, CR, LS, PS. *)
Definition isLineTerminator (c : N) : bool :=
  ((c =? 10) || (c =? 13) || (c =? 8232) || (c =? 8233))%N.

(** WhiteSpace code points removed by [String.prototype.trim] (together with
    the line terminators) and matched by [\s]. *)
Definition isWhiteSpace (c : N) : bool :=
  ((c =? 9) || (c =? 11) || (c =? 12) || (c =? 32) || (c =? 160)
   || (c =? 5760) || ((8192 <=? c) && (c <=? 8202)) || (c =? 8239)
   || (c =? 8287) || (c =? 12288) || (c =? 65279))%N.

Definition isTrimmed (c : N) : bool := isWhiteSpace c || isLineTerminator c.

Fixpoint trimStart (s : jsstring) : jsstring :=
  match s with
  | c :: s' => if isTrimmed c then trimStart s' else s
  | [] => []
  end.

Definition trimEnd (s : jsstring) : jsstring := rev (trimStart (rev s)).

(** [s.trim()] *)
Definition trim (s : jsstring) : jsstring := trimEnd (trimStart s).

(** [a || b] on strings: the empty string is falsy, [None] is undefined/null. *)
Definition orElse (a : option jsstring) (b : jsstring) : jsstring :=
  match a with
  | Some (c :: s) => c :: s
  | Some [] | None => b
  end.

(** [s.replace(/[cls]/g, '')] for a one-character class: every code unit of
    the class is removed. *)
Definition removeAll (cls : N → bool) (s : jsstring) : jsstring :=
  filter (λ c, cls c = false) s.

(** [s.replace(pat, rep)] with a one-character string pattern: only the first
    occurrence is replaced. *)
Fixpoint replaceFirst (pat rep : N) (s : jsstring) : jsstring :=
  match s with
  | c :: s' => if (c =? pat)%N then rep :: s' else c :: replaceFirst pat rep s'
  | [] => []
  end.

(** Longest prefix of code units in a class, and what follows it. *)
Fixpoint span (cls : N → bool) (s : jsstring) : jsstring * jsstring :=
  match s with
  | c :: s' =>
      if cls c then let '(a, b) := span cls s' in (c :: a, b) else ([], s)
  | [] => ([], [])
  end.

(** Value of a run of decimal digits, most significant first. *)
Definition digitsValue (ds : jsstring) : N :=
  fold_left (λ acc c, acc * 10 + (c - 48))%N ds 0%N.

(** ** JavaScript numbers *)

(** The numbers of this program come out of [parseFloat] on digit strings or
    are the literal 0: a number is NaN or [Num q], with [q] the exact decimal
    value read. The Number the program holds is the double nearest to [q].
    The two name the same number as long as the decimal has at most 15
    significant digits (each such decimal has a double of its own) or is an
    integer up to 2^53; beyond that the program rounds, and past the largest
    double it holds Infinity. What is stated about the value of a number is
    stated within these bounds; what is stated about NaN, about the sign and
    about two calls giving the same number does not depend on them. *)
Inductive number :=
| NaN
| Num (q : Q).

(** [parseFloat(s)] for [s] made of digits, dots and commas, which is all the
    caller below can pass: the longest prefix [digits [. digits]] or
    [. digits] is converted, and there is none exactly when no digit is read
    (leading white space, signs, exponents and Infinity cannot occur). *)
Definition parseFloat (s : jsstring) : number :=
  let '(ip, r) := span isDigit s in
  let fp := match r with
            | 46%N :: r' => fst (span isDigit r')
            | _ => []
            end in
  match ip ++ fp with
  | [] => NaN
  | ds => Num (Z.of_N (digitsValue ds) # Z.to_pos (10 ^ Z.of_nat (length fp)))
  end.

(** ** A backtracking matcher for the regular expressions of the sources *)

Inductive regex :=
| Bol                                               (* ^ *)
| Eol                                               (* $ *)
| Rep (cls : N → bool) (lo : nat) (hi : option nat) (* greedy cls{lo,hi} *)
| Seq (r1 r2 : regex)
| Opt (r : regex)                                   (* greedy r? *)
| Grp (i : nat) (r : regex).                        (* capturing group i *)

(** [.] without the [s] flag. *)
Definition dot (c : N) : bool := negb (isLineTerminator c).
Definition isChar (x : N) (c : N) : bool := (c =? x)%N.

Section Matcher.
Context {R : Type}.

(** Greedy repetition of a class from position [p] with rest [s]: one more
    code unit is tried first, the continuation [k] only when that fails. *)
Fixpoint rep (cls : N → bool) (lo : nat) (hi : option nat)
    (p : nat) (s : jsstring) (k : nat → jsstring → option R) : option R :=
  let stop := match lo with O => k p s | S _ => None end in
  match s with
  | c :: s' =>
      if cls c && negb (bool_decide (hi = Some O)) then
        match rep cls (pred lo) (pred <$> hi) (S p) s' k with
        | Some r => Some r
        | None => stop
        end
      else stop
  | [] => stop
  end.

Fixpoint rmatch (r : regex) (p : nat) (s : jsstring)
    (caps : gmap nat jsstring)
    (k : nat → jsstring → gmap nat jsstring → option R) : option R :=
  match r with
  | Bol => match p with O => k p s caps | S _ => None end
  | Eol => match s with [] => k p s caps | _ :: _ => None end
  | Rep cls lo hi => rep cls lo hi p s (λ p' s', k p' s' caps)
  | Seq r1 r2 => rmatch r1 p s caps (λ p' s' caps', rmatch r2 p' s' caps' k)
  | Opt r1 =>
      match rmatch r1 p s caps k with
      | Some x => Some x
      | None => k p s caps
      end
  | Grp i r1 =>
      rmatch r1 p s caps (λ p' s' caps', k p' s' (<[i := take (p' - p) s]> caps'))
  end.
End Matcher.

(** Start positions are tried from the left, as [RegExp.prototype.exec] does. *)
Fixpoint scan (r : regex) (p : nat) (s : jsstring) : option (gmap nat jsstring) :=
  match rmatch r p s ∅ (λ _ _ caps, Some caps) with
  | Some caps => Some caps
  | None => match s with
            | _ :: s' => scan r (S p) s'
            | [] => None
            end
  end.

(** [text.match(r)] for [r] without the [g] flag: the captures, or null. *)
Definition jsMatch (text : jsstring) (r : regex) : option (gmap nat jsstring) :=
  scan r 0 text.

(** ** Completions *)

(** A call either returns a value or throws. *)
Inductive completion (E A : Type) :=
| Returned (a : A)
| Thrown (e : E).
Arguments Returned {E A} a.
Arguments Thrown {E A} e.

Definition bind {E A B} (c : completion E A) (f : A → completion E B)
    : completion E B :=
  match c with
  | Returned a => f a
  | Thrown e => Thrown e
  end.

Notation "'await' x ← c ;; k" := (bind c (λ x, k))
  (at level 100, x name, c at level 99, k at level 100, right associativity,
   format "'[v' 'await'  x  ←  c  ;;  '/' k ']'").

(** ** The date-fns functions used by extractFecha

    [parse] and [format] belong to the date-fns package, not to this
    repository; they are modelled for the two format strings the program
    passes, after the package's documented behaviour: numeric tokens read one
    digit up to the token's width, literals must match, what is left after the
    last token must be white space, and the fields must name a day of the
    calendar with a year greater than zero; otherwise the result is the
    Invalid Date, on which [format] throws a RangeError. *)

Inductive Date :=
| InvalidDate
| ValidDate (year month day : N).

(** The time zone of the process, as far as whole days go. [parse] builds
    its result in local time, as [new Date(y, m - 1, d)] does, and [format]
    reads the local calendar fields back. On a day that has a midnight in
    the zone the fields read are the fields given; a local midnight that
    does not exist is moved forward by the engine, and where the zone
    skipped the whole day it lands on another day. [calendarDay y m d] is
    the day on which the instant built for the day [y], [m], [d] falls. *)
Record TimeZone := {
  calendarDay : N → N → N → N * N * N
}.

Definition utc : TimeZone := {| calendarDay y m d := (y, m, d) |}.

Inductive RangeError := InvalidTimeValue.

(** The numeric pattern [^\d{1,n}]. *)
Fixpoint takeDigits (n : nat) (s : jsstring) : jsstring * jsstring :=
  match n, s with
  | S n', c :: s' =>
      if isDigit c then let '(a, b) := takeDigits n' s' in (c :: a, b)
      else ([], s)
  | _, _ => ([], s)
  end.

Definition parseNDigits (n : nat) (s : jsstring) : option (N * jsstring) :=
  match takeDigits n s with
  | ([], _) => None
  | (ds, r) => Some (digitsValue ds, r)
  end.

Definition expectChar (x : N) (s : jsstring) : option jsstring :=
  match s with
  | c :: s' => if (c =? x)%N then Some s' else None
  | [] => None
  end.

Definition isLeapYearIndex (y : N) : bool :=
  ((y mod 400 =? 0) || ((y mod 4 =? 0) && negb (y mod 100 =? 0)))%N.

Definition daysInMonth (y m : N) : N :=
  (if (m =? 2) then (if isLeapYearIndex y then 29 else 28)
   else if (m =? 4) || (m =? 6) || (m =? 9) || (m =? 11) then 30
   else 31)%N.

Definition validDate (y m d : N) : bool :=
  ((1 <=? y) && (1 <=? m) && (m <=? 12) && (1 <=? d) && (d <=? daysInMonth y m))%N.

(** [parse(text, 'dd/MM/yyyy', new Date())], in a process whose time zone
    is [tz]. *)
Definition parse (tz : TimeZone) (text : jsstring) : Date :=
  let fields :=
    '(d, s1) ← parseNDigits 2 text;
    s2 ← expectChar 47 s1;
    '(m, s3) ← parseNDigits 2 s2;
    s4 ← expectChar 47 s3;
    '(y, s5) ← parseNDigits 4 s4;
    if forallb isTrimmed s5 then Some (y, m, d) else None in
  match fields with
  | Some (y, m, d) =>
      if validDate y m d then
        let '(y', m', d') := calendarDay tz y m d in ValidDate y' m' d'
      else InvalidDate
  | None => InvalidDate
  end.

(** Decimal numeral of a natural number, as [String(n)] gives it. *)
Fixpoint decimalDigits (fuel : nat) (n : N) : jsstring :=
  match fuel with
  | O => []
  | S fuel' =>
      if (n <? 10)%N then [(48 + n)%N]
      else decimalDigits fuel' (n / 10)%N ++ [(48 + n mod 10)%N]
  end.

Definition numberToString (n : N) : jsstring := decimalDigits (S (N.size_nat n)) n.

(** [addLeadingZeros(n, len)]: the numeral, padded on the left, never cut. *)
Definition addLeadingZeros (n : N) (len : nat) : jsstring :=
  let ds := numberToString n in
  replicate (len - length ds) 48%N ++ ds.

(** [format(date, 'yyyy-MM-dd')] *)
Definition format (date : Date) : completion RangeError jsstring :=
  match date with
  | InvalidDate => Thrown InvalidTimeValue
  | ValidDate y m d =>
      Returned (addLeadingZeros y 4 ++ [45%N] ++ addLeadingZeros m 2
                ++ [45%N] ++ addLeadingZeros d 2)
  end.

(** ** Rows of the results table and the records read from them *)

(** What the extractors can see of one [tr]: a cell is [None] when the
    selector finds no element, and so is each element looked up inside it. *)
Record ExpedienteCell := {
  textoEnlace : option jsstring;     (* span[id*="textoEnlace"], its text *)
  expedienteDiv2 : option jsstring;  (* div:nth-child(2), its text *)
  imgELicitacion : bool;             (* an .imgELicitacion element exists *)
  deeplink : option jsstring         (* a[href*="deeplink"], its href *)
}.

Record TipoContratoCell := {
  tipoDiv1 : option jsstring;        (* div:nth-child(1), its text *)
  tipoDiv2 : option jsstring         (* div:nth-child(2), its text *)
}.

Record OrganoCell := {
  organoText : jsstring;             (* textContent of the cell *)
  organoAnchor : option jsstring     (* a, its href *)
}.

Record Row := {
  tdExpediente : option ExpedienteCell;
  tdTipoContrato : option TipoContratoCell;
  tdEstado : option jsstring;
  tdImporte : option jsstring;
  tdFechaLimite : option jsstring;
  tdOrganoContratacion : option OrganoCell
}.

Record Expediente := {
  numero : jsstring;
  descripcion : jsstring;
  licitacionElectronica : bool;
  enlace : jsstring
}.

Record TipoContrato := { tipo : jsstring; subtipo : jsstring }.

(** The source names the second field [enlace] as well. *)
Record OrganoContratacion := { nombre : jsstring; enlaceOrgano : jsstring }.

Record Licitacion := {
  expediente : Expediente;
  tipoContrato : TipoContrato;
  estado : jsstring;
  importe : number;
  fechaPresentacion : jsstring;
  organoContratacion : OrganoContratacion
}.

(** [row.$eval(selector, f)] throws when the selector matches nothing. *)
Inductive RowError := NoElement (selector : jsstring).

Definition evalCell {C A} (selector : string) (cell : option C) (f : C → A)
    : completion RowError A :=
  match cell with
  | Some c => Returned (f c)
  | None => Thrown (NoElement (js selector))
  end.

Definition extractExpediente (row : Row) : completion RowError Expediente :=
  evalCell ".tdExpediente" (tdExpediente row) (λ cell,
    {| numero := orElse (trim <$> textoEnlace cell) [];
       descripcion := orElse (trim <$> expedienteDiv2 cell) [];
       licitacionElectronica := imgELicitacion cell;
       enlace := orElse (deeplink cell) [] |}).

Definition extractTipoContrato (row : Row) : completion RowError TipoContrato :=
  evalCell ".tdTipoContrato" (tdTipoContrato row) (λ cell,
    {| tipo := orElse (trim <$> tipoDiv1 cell) [];
       subtipo := orElse (trim <$> tipoDiv2 cell) [] |}).

(** [extractText(row, selector)], the cell found by the selector being given. *)
Definition extractText (element : option jsstring) : jsstring :=
  match element with
  | Some text => trim text
  | None => []
  end.

Definition nonDigitComma (c : N) : bool := negb (isDigit c || (c =? 44)%N).

Definition extractImporte (row : Row) : number :=
  let importeText := extractText (tdImporte row) in
  let numericValue := replaceFirst 44 46 (removeAll nonDigitComma importeText) in
  match numericValue with
  | [] => Num 0
  | _ :: _ => parseFloat numericValue
  end.

(** [extractFecha], in a process whose time zone is [tz]. *)
Definition extractFecha (tz : TimeZone) (row : Row) : jsstring :=
  let fechaText := extractText (tdFechaLimite row) in
  match format (parse tz fechaText) with
  | Returned s => s
  | Thrown _ => fechaText
  end.

Definition extractOrganoContratacion (row : Row)
    : completion RowError OrganoContratacion :=
  evalCell ".tdOrganoContratacion" (tdOrganoContratacion row) (λ cell,
    {| nombre := trim (organoText cell);
       enlaceOrgano := orElse (organoAnchor cell) [] |}).

(** The records are read by a process in UTC; every zone in which the days
    read have a midnight gives the same records. *)
Definition extractRowData (row : Row) : completion RowError Licitacion :=
  await expediente ← extractExpediente row ;;
  await tipoContrato ← extractTipoContrato row ;;
  let estado := extractText (tdEstado row) in
  let importe := extractImporte row in
  let fechaPresentacion := extractFecha utc row in
  await organoContratacion ← extractOrganoContratacion row ;;
  Returned {| expediente := expediente;
              tipoContrato := tipoContrato;
              estado := estado;
              importe := importe;
              fechaPresentacion := fechaPresentacion;
              organoContratacion := organoContratacion |}.

(** [scrapeTable], the rows found by the selector being given: a row whose
    extraction throws is logged and left out. *)
Definition scrapeTable (rows : list Row) : list Licitacion :=
  fold_left (λ results row,
               match extractRowData row with
               | Returned result => results ++ [result]
               | Thrown _ => results
               end) rows [].

(** ** retryOperation *)

(** What an observer of one run sees: the calls of the operation and the
    delays passed to [setTimeout]. *)
Inductive RetryEvent :=
| Invoked
| Waited (ms : nat).

Section Retry.
Context {W E A : Type}.

(** The operation acts on the world and returns or throws; waiting lets the
    world move on. *)
Variable operation : W → completion E A * W.
Variable sleep : nat → W → W.
Variable maxAttempts : nat.

(** The [for] loop, entered with [remaining = maxAttempts + 1 - attempt]
    iterations left; [lastError] starts out undefined ([None]). *)
Fixpoint retryLoop (remaining attempt : nat) (lastError : option E) (w : W)
    (trace : list RetryEvent)
    : completion (option E) A * W * list RetryEvent :=
  match remaining with
  | O => (Thrown lastError, w, trace)
  | S remaining' =>
      let '(c, w') := operation w in
      let trace := trace ++ [Invoked] in
      match c with
      | Returned a => (Returned a, w', trace)
      | Thrown error =>
          if attempt =? maxAttempts then (Thrown (Some error), w', trace)
          else retryLoop remaining' (S attempt) (Some error)
                 (sleep (attempt * 1000) w')
                 (trace ++ [Waited (attempt * 1000)])
      end
  end.

Definition retryOperation (w : W)
    : completion (option E) A * W * list RetryEvent :=
  retryLoop maxAttempts 1 None w [].

(** The world in which attempt number [a + n] starts, when attempt [a]
    starts in [w] and the attempts [a], ..., [a + n - 1] throw. *)
Fixpoint attemptWorldFrom (a n : nat) (w : W) : W :=
  match n with
  | O => w
  | S n' => attemptWorldFrom (S a) n' (sleep (a * 1000) (snd (operation w)))
  end.

(** The world in which attempt number [k] (from 1) starts when all the
    attempts before it threw. *)
Definition attemptWorld (k : nat) (w : W) : W := attemptWorldFrom 1 (k - 1) w.
End Retry.

(** The completion of the whole call when its last attempt completes
    with [c]. *)
Definition finalCompletion {E A} (c : completion E A) : completion (option E) A :=
  match c with
  | Returned v => Returned v
  | Thrown e => Thrown (Some e)
  end.

(** The calls of the attempts [a], ..., [a + n], each but the last followed by
    the wait of its attempt number times one second. *)
Fixpoint traceFrom (a n : nat) : list RetryEvent :=
  match n with
  | O => [Invoked]
  | S n' => Invoked :: Waited (a * 1000) :: traceFrom (S a) n'
  end.

(** The trace of [k] calls separated by the linear back-off delays. *)
Definition backoffTrace (k : nat) : list RetryEvent :=
  match k with
  | O => []
  | S n => traceFrom 1 n
  end.

Definition invocations (trace : list RetryEvent) : nat :=
  length (omap (λ ev, match ev with Invoked => Some () | Waited _ => None end)
             trace).

Definition waits (trace : list RetryEvent) : list nat :=
  omap (λ ev, match ev with Waited ms => Some ms | Invoked => None end) trace.

(** ** scrape: the pagination loop *)

(** The page as the scraper drives it. Actions that wait (navigation, clicks,
    selectors, the file write) can throw; the two queries cannot. *)
Record Page (W E : Type) := {
  goto : W → completion E unit * W;
  (* waitForSelector, click, selectOption, click, waitForSelector *)
  submitSearch : W → completion E unit * W;
  (* page.$$('table#myTablaBusquedaCustom tbody tr') *)
  tableRows : W → list Row;
  (* page.$('a.siguientePagina:not(.disabled)') is not null *)
  nextButton : W → bool;
  (* nextButton.click(), waitForSelector, waitForTimeout(2000) *)
  clickNext : W → completion E unit * W;
  writeFile : list Licitacion → W → completion E unit * W;
  setTimeout : nat → W → W
}.
Arguments goto {W E}.
Arguments submitSearch {W E}.
Arguments tableRows {W E}.
Arguments nextButton {W E}.
Arguments clickNext {W E}.
Arguments writeFile {W E}.
Arguments setTimeout {W E}.

Section Scrape.
Context {W E : Type}.
Variable page : Page W E.

(** [while (hasNextPage)]: [None] when the loop is still running after
    [fuel] iterations. *)
Fixpoint scrapeLoop (fuel : nat) (allResults : list Licitacion) (w : W)
    : option (completion (option E) (list Licitacion) * W) :=
  match fuel with
  | O => None
  | S fuel' =>
      let pageData := scrapeTable (tableRows page w) in
      let allResults := allResults ++ pageData in
      if nextButton page w then
        match clickNext page w with
        | (Returned _, w') => scrapeLoop fuel' allResults w'
        | (Thrown e, w') => Some (Thrown (Some e), w')
        end
      else Some (Returned allResults, w)
  end.

(** Navigation with retry, then the search form. The [page.route] call before
    it only registers the handler that aborts image and style requests. *)
Definition openListing (w : W) : completion (option E) unit * W :=
  match retryOperation (goto page) (setTimeout page) 3 w with
  | (Thrown e, w1, _) => (Thrown e, w1)
  | (Returned _, w1, _) =>
      match submitSearch page w1 with
      | (Thrown e, w2) => (Thrown (Some e), w2)
      | (Returned _, w2) => (Returned (), w2)
      end
  end.

(** The [catch] of [scrape] logs and rethrows, so a throw passes through. *)
Definition scrape (fuel : nat) (w : W)
    : option (completion (option E) (list Licitacion) * W) :=
  match openListing w with
  | (Thrown e, w0) => Some (Thrown e, w0)
  | (Returned _, w0) =>
      match scrapeLoop fuel [] w0 with
      | None => None
      | Some (Thrown e, w1) => Some (Thrown e, w1)
      | Some (Returned allResults, w1) =>
          match writeFile page allResults w1 with
          | (Thrown e, w2) => Some (Thrown (Some e), w2)
          | (Returned _, w2) => Some (Returned allResults, w2)
          end
      end
  end.

(** A sequence of pages: each one but the last shows the next-page control
    and the click on it leads to the following one. *)
Fixpoint pageSequence (ws : list W) : Prop :=
  match ws with
  | [] => False
  | [w] => nextButton page w = false
  | w :: (w' :: _) as ws' =>
      nextButton page w = true ∧ clickNext page w = (Returned (), w')
      ∧ pageSequence ws'
  end.
End Scrape.

(** The rows of one page that extract without a throw, in document order. *)
Definition extractedRows (rows : list Row) : list Licitacion :=
  omap (λ row, match extractRowData row with
               | Returned result => Some result
               | Thrown _ => None
               end) rows.

(** The records of the page shown in world [w]. *)
Definition pageRows {W E} (page : Page W E) (w : W) : list Licitacion :=
  extractedRows (tableRows page w).

(** ** expandAllNodes *)

Record TreeWidget (W B E : Type) := {
  (* page.$$('img[alt="Click to expand"]') *)
  expandButtons : W → list B;
  isVisible : B → W → completion E bool;
  click : B → W → completion E unit * W;
  waitForTimeout : nat → W → W
}.
Arguments expandButtons {W B E}.
Arguments isVisible {W B E}.
Arguments click {W B E}.
Arguments waitForTimeout {W B E}.

Definition maxIterations : nat := 100.

Section Expand.
Context {W B E : Type}.
Variable page : TreeWidget W B E.

(** The body of the inner [for]: a throw of [isVisible] or of [click] is
    caught and warned about. *)
Definition clickIfVisible (w : W) (button : B) : W :=
  match isVisible page button w with
  | Returned true =>
      match click page button w with
      | (Returned _, w') => waitForTimeout page 50 w'
      | (Thrown _, w') => w'
      end
  | Returned false | Thrown _ => w
  end.

(** One pass of the [while] body past the emptiness test. *)
Definition expandRound (w : W) : W :=
  waitForTimeout page 500 (fold_left clickIfVisible (expandButtons page w) w).

(** [while (keepExpanding && iterations < maxIterations)], entered with
    [budget = maxIterations - iterations]; the result is the value of
    [iterations] on exit and the widget as it was left. *)
Fixpoint expandLoop (budget iterations : nat) (w : W) : nat * W :=
  match budget with
  | O => (iterations, w)
  | S budget' =>
      match expandButtons page w with
      | [] => (iterations, w)
      | _ :: _ => expandLoop budget' (S iterations) (expandRound w)
      end
  end.

Definition expandAllNodes (w : W) : nat * W := expandLoop maxIterations 0 w.

(** The widget after [k] rounds. *)
Fixpoint expandRounds (k : nat) (w : W) : W :=
  match k with
  | O => w
  | S k' => expandRounds k' (expandRound w)
  end.
End Expand.

(** ** The CPV tree widget *)

(** The empty pattern and a literal string as patterns. *)
Definition Eps : regex := Rep (λ _, true) 0 (Some 0).

Fixpoint Lit (s : jsstring) : regex :=
  match s with
  | [] => Eps
  | c :: s' => Seq (Rep (isChar c) 1 (Some 1)) (Lit s')
  end.

(** [/^(\d{8})?-?(.+)$/] *)
Definition labelRegex : regex :=
  Seq Bol
    (Seq (Opt (Grp 1 (Rep isDigit 8 (Some 8))))
       (Seq (Opt (Rep (isChar 45) 1 (Some 1)))
          (Seq (Grp 2 (Rep dot 1 None)) Eol))).

(** [/width:\s*(\d+)px/] *)
Definition widthRegex : regex :=
  Seq (Lit (js "width:"))
    (Seq (Rep isTrimmed 0 None)
       (Seq (Grp 1 (Rep isDigit 1 None)) (Lit (js "px")))).

(** The object [parseLabel] returns; the source names its fields [code] and
    [description], like those of the node. *)
Record Label := { labelCode : jsstring; labelDescription : jsstring }.

(** [parseLabel], the same helper in both spec files. *)
Definition parseLabel (text : jsstring) : Label :=
  let match_ := jsMatch text labelRegex in
  {| labelCode := orElse (match_ ≫= (.!! 1)) [];
     labelDescription := orElse (trim <$> (match_ ≫= (.!! 2))) (trim text) |}.

(** One [table.tree_nodeStyle] element as the reader sees it. *)
Record TreeNodeElement := {
  (* text of label[class*="tree_label"]; None when the label is missing or
     its text is null *)
  labelText : option jsstring;
  (* td[width]: None when there is no such cell, else its style attribute *)
  tdStyle : option (option jsstring);
  (* sibling indices from the document element down to the table *)
  domPath : list N
}.

Inductive EvalError := NoSuchElement.

(** [getNodeLevel], the same helper in both spec files: [parseInt] of the
    captured digits, then [Math.floor(width / 19)]. Both are computed on
    natural numbers here; in the program, on doubles, they give the same
    level for every width below 2^53 (the division rounds, but never up to
    the next integer there), and what is stated about the value of a level
    is stated for such widths. *)
Definition getNodeLevel (element : TreeNodeElement) : completion EvalError nat :=
  match tdStyle element with
  | None => Thrown NoSuchElement
  | Some style =>
      let match_ := style ≫= (λ s, jsMatch s widthRegex) in
      let width := digitsValue (orElse (match_ ≫= (.!! 1)) (js "0")) in
      Returned (N.to_nat (width / 19))
  end.

(** Node objects live in a store and are named by their index in it: the
    arrays of the program hold references. Every node is created with
    [children: []], an array, so the [|| []] alternatives of the sources are
    never taken and [children] is always present. *)
Abbreviation ref := nat (only parsing).

Record CPVNode := {
  code : jsstring;
  description : jsstring;
  level : nat;
  children : list ref
}.

Definition pushChild (child : ref) (node : CPVNode) : CPVNode :=
  {| code := code node; description := description node;
     level := level node; children := children node ++ [child] |}.

(** The level of the node a reference names, and its [children] array. *)
Definition levelOf (heap : list CPVNode) (r : ref) : option nat :=
  level <$> heap !! r.

Definition childrenOf (heap : list CPVNode) (r : ref) : list ref :=
  from_option children [] (heap !! r).

(** [arr[arr.length - 1]]: undefined on the empty array. *)
Definition lastElement {A} (arr : list A) : option A :=
  match length arr with
  | O => None
  | S n => arr !! n
  end.

(** The tree below a reference, as [JSON.stringify] would walk it. *)
#[warnings="-register-all"]
Inductive Tree :=
| TreeNode (code description : jsstring) (level : nat) (children : list Tree).

Fixpoint reify (fuel : nat) (heap : list CPVNode) (r : ref) : option Tree :=
  match fuel with
  | O => None
  | S fuel' =>
      node ← heap !! r;
      kids ← mapM (reify fuel' heap) (children node);
      Some (TreeNode (code node) (description node) (level node) kids)
  end.

Definition reifyAll (heap : list CPVNode) (roots : list ref) : option (list Tree) :=
  mapM (reify (length heap) heap) roots.

(** *** scrapeCPVTree, walking down by depth (the first spec file) *)

Module DepthWalk.

Record state := {
  heap : list CPVNode;
  cpvData : list ref
}.

(** The array [currentLevel] points to. *)
Inductive array :=
| RootArray
| ChildrenOf (r : ref).

Definition elements (st : state) (a : array) : list ref :=
  match a with
  | RootArray => cpvData st
  | ChildrenOf r => childrenOf (heap st) r
  end.

(** [level - 1] steps of [currentLevel = currentLevel[length - 1].children];
    reading [children] of undefined is a TypeError ([None]). *)
Fixpoint walk (st : state) (steps : nat) (currentLevel : array) : option array :=
  match steps with
  | O => Some currentLevel
  | S steps' =>
      match lastElement (elements st currentLevel) with
      | None => None
      | Some r => walk st steps' (ChildrenOf r)
      end
  end.

Definition push (st : state) (a : array) (r : ref) : state :=
  match a with
  | RootArray => {| heap := heap st; cpvData := cpvData st ++ [r] |}
  | ChildrenOf p =>
      {| heap := alter (pushChild r) p (heap st); cpvData := cpvData st |}
  end.

(** The body of the [for] over the nodes; whatever is thrown inside is
    caught and logged, and the node is left out. *)
Definition visit (st : state) (node : TreeNodeElement) : state :=
  match labelText node with
  | None | Some [] => st
  | Some (c :: t) =>
      let l := parseLabel (c :: t) in
      match getNodeLevel node with
      | Thrown _ => st
      | Returned level =>
          let cpvNode := {| code := labelCode l;
                            description := labelDescription l;
                            level := level; children := [] |} in
          let r := length (heap st) in
          let st := {| heap := heap st ++ [cpvNode]; cpvData := cpvData st |} in
          match level with
          | O => push st RootArray r
          | S _ =>
              match walk st (level - 1) RootArray with
              | Some currentLevel => push st currentLevel r
              | None => st
              end
          end
      end
  end.

Definition run (nodes : list TreeNodeElement) : state :=
  fold_left visit nodes {| heap := []; cpvData := [] |}.

(** The returned [cpvData], as a value. *)
Definition scrapeCPVTree (nodes : list TreeNodeElement) : option (list Tree) :=
  let st := run nodes in reifyAll (heap st) (cpvData st).

End DepthWalk.

(** *** scrapeCPVTree, looking parents up by path (selector.spec.ts) *)

(** [s.split(sep)] for a one-character separator. *)
Fixpoint split (sep : N) (s : jsstring) : list jsstring :=
  match s with
  | [] => [[]]
  | c :: s' =>
      if (c =? sep)%N then [] :: split sep s'
      else match split sep s' with
           | part :: parts => (c :: part) :: parts
           | [] => [[c]]
           end
  end.

(** [parts.join(sep)] *)
Fixpoint join (sep : N) (parts : list jsstring) : jsstring :=
  match parts with
  | [] => []
  | [part] => part
  | part :: parts' => part ++ sep :: join sep parts'
  end.

Module PathMap.

Record state := {
  heap : list CPVNode;
  nodeMap : gmap jsstring ref;
  rootNodes : list ref
}.

(** [indices.join('-')] of the node's position in the document. *)
Definition pathOf (node : TreeNodeElement) : jsstring :=
  join 45 (numberToString <$> domPath node).

(** [path.split('-').slice(0, -1).join('-')] *)
Definition parentPathOf (path : jsstring) : jsstring :=
  join 45 (removelast (split 45 path)).

Definition visit (st : state) (node : TreeNodeElement) : state :=
  match labelText node with
  | None | Some [] => st
  | Some (c :: t) =>
      let l := parseLabel (c :: t) in
      match getNodeLevel node with
      | Thrown _ => st
      | Returned level =>
          let cpvNode := {| code := labelCode l;
                            description := labelDescription l;
                            level := level; children := [] |} in
          let r := length (heap st) in
          let heap1 := heap st ++ [cpvNode] in
          let path := pathOf node in
          let nodeMap1 := <[path := r]> (nodeMap st) in
          let parentPath := parentPathOf path in
          match nodeMap1 !! parentPath with
          | Some parent =>
              {| heap := alter (pushChild r) parent heap1;
                 nodeMap := nodeMap1; rootNodes := rootNodes st |}
          | None =>
              {| heap := heap1; nodeMap := nodeMap1;
                 rootNodes := rootNodes st ++ [r] |}
          end
      end
  end.

Definition run (nodes : list TreeNodeElement) : state :=
  fold_left visit nodes {| heap := []; nodeMap := ∅; rootNodes := [] |}.

(** The returned [rootNodes], as a value. *)
Definition scrapeCPVTree (nodes : list TreeNodeElement) : option (list Tree) :=
  let st := run nodes in reifyAll (heap st) (rootNodes st).

End PathMap.

(** ** Vocabulary of the statements *)

(** A row with all six cells, of which the amount and the date cell carry the
    given texts. *)
Definition sampleRow (importeText fechaText : jsstring) : Row :=
  {| tdExpediente := Some {| textoEnlace := None; expedienteDiv2 := None;
                             imgELicitacion := false; deeplink := None |};
     tdTipoContrato := Some {| tipoDiv1 := None; tipoDiv2 := None |};
     tdEstado := Some [];
     tdImporte := Some importeText;
     tdFechaLimite := Some fechaText;
     tdOrganoContratacion := Some {| organoText := []; organoAnchor := None |} |}.

(** The three cells read with [$eval] are present. *)
Definition wellFormedRow (row : Row) : Prop :=
  is_Some (tdExpediente row) ∧ is_Some (tdTipoContrato row)
  ∧ is_Some (tdOrganoContratacion row).

(** The amount text after [replace(/[^\d,]/g, '')]. *)
Definition strippedImporte (row : Row) : jsstring :=
  removeAll nonDigitComma (extractText (tdImporte row)).

(** The number is not NaN and equals [q]. *)
Definition hasValue (n : number) (q : Q) : Prop :=
  match n with
  | Num x => (x == q)%Q
  | NaN => False
  end.

Definition decimalDigit : list N := [0; 1; 2; 3; 4; 5; 6; 7; 8; 9]%N.

(** The code unit of a decimal digit. *)
Definition digitChar (d : N) : N := (48 + d)%N.

(** The text [d1 d2 / m1 m2 / y1 y2 y3 y4] and the text
    [y1 y2 y3 y4 - m1 m2 - d1 d2] of digits. *)
Definition sourceDateText (d1 d2 m1 m2 y1 y2 y3 y4 : N) : jsstring :=
  [digitChar d1; digitChar d2; 47%N; digitChar m1; digitChar m2; 47%N;
   digitChar y1; digitChar y2; digitChar y3; digitChar y4].

Definition canonicalDateText (d1 d2 m1 m2 y1 y2 y3 y4 : N) : jsstring :=
  [digitChar y1; digitChar y2; digitChar y3; digitChar y4; 45%N;
   digitChar m1; digitChar m2; 45%N; digitChar d1; digitChar d2].

(** Pacific/Apia as far as whole days go: the zone went from 29 to 31
    December 2011, and the instant built for the 30th falls on the 31st. *)
Definition pacificApia : TimeZone :=
  {| calendarDay y m d :=
       if ((y =? 2011) && (m =? 12) && (d =? 30))%N then (2011, 12, 31)%N
       else (y, m, d) |}.

(** [(.+)$] takes the whole of [s]: it is not empty and holds no line
    terminator. *)
Definition dotPlusToEnd (s : jsstring) : bool :=
  forallb dot s && (1 <=? length s).

(** The text starts with eight digits. *)
Definition hasLeadingCode (text : jsstring) : bool :=
  (8 <=? length text) && forallb isDigit (take 8 text).

(** What [-?(.+)$] captures on [s], if it matches. *)
Definition labelRest (s : jsstring) (caps : gmap nat jsstring)
    : option (gmap nat jsstring) :=
  match s with
  | 45%N :: s' =>
      if dotPlusToEnd s' then Some (<[2 := s']> caps)
      else if dotPlusToEnd s then Some (<[2 := s]> caps) else None
  | _ => if dotPlusToEnd s then Some (<[2 := s]> caps) else None
  end.

(** *** Sample worlds *)

(** An operation that throws on its first two calls and returns 42 on the
    third; the world counts the calls and the error carries the call number. *)
Definition flakyOperation (w : nat) : completion nat nat * nat :=
  if w <? 2 then (Thrown w, S w) else (Returned 42, S w).

Definition failingOperation (w : nat) : completion nat nat * nat :=
  (Thrown w, S w).

Definition noSleep (ms : nat) (w : nat) : nat := w.

(** A row without the [.tdExpediente] cell. *)
Definition brokenRow : Row :=
  {| tdExpediente := None; tdTipoContrato := None; tdEstado := None;
     tdImporte := None; tdFechaLimite := None; tdOrganoContratacion := None |}.

(** A listing of two pages; the world is the number of the page shown. *)
Definition twoPages : Page nat unit :=
  {| goto w := (Returned (), w);
     submitSearch w := (Returned (), w);
     tableRows w :=
       match w with
       | O => [sampleRow (js "12,50 EUR") (js "31/12/2024"); brokenRow]
       | _ => [sampleRow (js "1.234,56 EUR") (js "01/02/2025")]
       end;
     nextButton w := w <? 1;
     clickNext w := (Returned (), S w);
     writeFile _ w := (Returned (), w);
     setTimeout _ w := w |}.

(** A widget with as many levels left to expand as the world says, and one
    that shows a new control after every click. *)
Definition countdownWidget : TreeWidget nat unit unit :=
  {| expandButtons w := match w with O => [] | S _ => [()] end;
     isVisible _ _ := Returned true;
     click _ w := (Returned (), pred w);
     waitForTimeout _ w := w |}.

Definition endlessWidget : TreeWidget nat unit unit :=
  {| expandButtons _ := [()];
     isVisible _ _ := Returned true;
     click _ w := (Returned (), S w);
     waitForTimeout _ w := w |}.

(** *** Sample trees *)

(** A tree row with the given label, style of its indentation cell and
    position in the document. *)
Definition treeElement (label style : string) (path : list N) : TreeNodeElement :=
  {| labelText := Some (js label); tdStyle := Some (Some (js style));
     domPath := path |}.

(** The node object that [visit] creates for an element, when it creates
    one. *)
Definition nodeOf (element : TreeNodeElement) : option CPVNode :=
  match labelText element with
  | None | Some [] => None
  | Some (c :: t) =>
      match getNodeLevel element with
      | Thrown _ => None
      | Returned level =>
          Some {| code := labelCode (parseLabel (c :: t));
                  description := labelDescription (parseLabel (c :: t));
                  level := level; children := [] |}
      end
  end.

(** Two states of one node object: the data are the same, the children may
    differ. *)
Definition sameData (n n' : CPVNode) : Prop :=
  code n' = code n ∧ description n' = description n ∧ level n' = level n.

(** *** The invariant of the depth walk

    With every reference below [b]: the roots are at level 0 or 1, and a
    child is at level 2 or more, its level one greater than its parent's,
    but for the children of a root at level 0, which are at level 2. *)
Definition depthInv (b : nat) (st : DepthWalk.state) : Prop :=
  b ≤ length (DepthWalk.heap st)
  ∧ (∀ r, r ∈ DepthWalk.cpvData st → r < b)
  ∧ (∀ p c, c ∈ childrenOf (DepthWalk.heap st) p → c < b)
  ∧ (∀ r l, r ∈ DepthWalk.cpvData st →
            levelOf (DepthWalk.heap st) r = Some l → l ≤ 1)
  ∧ (∀ p c lp lc,
       c ∈ childrenOf (DepthWalk.heap st) p →
       levelOf (DepthWalk.heap st) p = Some lp →
       levelOf (DepthWalk.heap st) c = Some lc →
       2 ≤ lc ∧ (lc = lp + 1 ∨ (lp = 0 ∧ lc = 2))).

(** Streams used in the examples: levels 0, 1, 2; levels 0, 2; and a single
    element at level 2. *)
Definition regularStream : list TreeNodeElement :=
  [treeElement "03000000-Agricultura" "width: 0px" [1; 0]%N;
   treeElement "03100000-Horticultura" "width: 19px" [1; 1]%N;
   treeElement "03110000-Cereales" "width: 38px" [1; 2]%N].

Definition gapStream : list TreeNodeElement :=
  [treeElement "03000000-Agricultura" "width: 0px" [1; 0]%N;
   treeElement "03110000-Cereales" "width: 38px" [1; 1]%N].

Definition orphanElement : TreeNodeElement :=
  treeElement "45000000-Obras" "width: 38px" [1; 0]%N.

Definition orphanStream : list TreeNodeElement := [orphanElement].

(** The levels of the elements of a stream that yield a node, in order. *)
Definition streamLevels (nodes : list TreeNodeElement) : list nat :=
  omap (λ element, level <$> nodeOf element) nodes.

(** No level is more than one above the level before it ([prev], if any). *)
Fixpoint regularLevels (prev : option nat) (levels : list nat) : Prop :=
  match levels with
  | [] => True
  | l :: rest =>
      match prev with
      | None => True
      | Some p => l ≤ p + 1
      end ∧ regularLevels (Some l) rest
  end.

(** The invariant of the depth walk over a regular stream whose last node
    so far was at level [prev]: the level of every child is one greater than
    its parent's, and the last root is at level 1 unless the last node was at
    level 0. *)
Definition regularInv (prev : option nat) (st : DepthWalk.state) : Prop :=
  depthInv (length (DepthWalk.heap st)) st
  ∧ (∀ p c lp lc,
       c ∈ childrenOf (DepthWalk.heap st) p →
       levelOf (DepthWalk.heap st) p = Some lp →
       levelOf (DepthWalk.heap st) c = Some lc → lc = lp + 1)
  ∧ match prev with
    | None => DepthWalk.cpvData st = []
    | Some P =>
        1 ≤ P →
        ∀ r l, lastElement (DepthWalk.cpvData st) = Some r →
               levelOf (DepthWalk.heap st) r = Some l → l = 1
    end.

(** ** Vocabulary of the further properties *)

(** A sequence of pages on the last of which the next-page control is shown
    but the click on it throws [e] and leaves the world [wfail]. *)
Fixpoint brokenSequence {W E} (page : Page W E) (ws : list W) (e : E)
    (wfail : W) : Prop :=
  match ws with
  | [] => False
  | [w] => nextButton page w = true ∧ clickNext page w = (Thrown e, wfail)
  | w :: (w' :: _) as ws' =>
      nextButton page w = true ∧ clickNext page w = (Returned (), w')
      ∧ brokenSequence page ws' e wfail
  end.

(** The three cells read with [$eval] are present, as a test. *)
Definition hasEvalCells (row : Row) : bool :=
  match tdExpediente row, tdTipoContrato row, tdOrganoContratacion row with
  | Some _, Some _, Some _ => true
  | _, _, _ => false
  end.

(** A listing whose every page shows the next-page control, and one whose
    second page shows it but answers the click with a throw. *)
Definition endlessPages : Page nat unit :=
  {| goto w := (Returned (), w);
     submitSearch w := (Returned (), w);
     tableRows _ := [sampleRow (js "12,50 EUR") (js "31/12/2024")];
     nextButton _ := true;
     clickNext w := (Returned (), S w);
     writeFile _ w := (Returned (), w);
     setTimeout _ w := w |}.

Definition failingPages : Page nat unit :=
  {| goto w := (Returned (), w);
     submitSearch w := (Returned (), w);
     tableRows _ := [sampleRow (js "12,50 EUR") (js "31/12/2024")];
     nextButton _ := true;
     clickNext w := match w with O => (Returned (), 1) | S _ => (Thrown (), w) end;
     writeFile _ w := (Returned (), w);
     setTimeout _ w := w |}.

(** A portal that cannot be reached: every navigation throws the number of
    the attempt. *)
Definition unreachablePages : Page nat nat :=
  {| goto w := (Thrown (S w), S w);
     submitSearch w := (Returned (), w);
     tableRows _ := [];
     nextButton _ := false;
     clickNext w := (Returned (), w);
     writeFile _ w := (Returned (), w);
     setTimeout _ w := w |}.

(** The text of the amount cell as the page has it (a missing cell reads as
    the empty text). *)
Definition rawImporte (row : Row) : jsstring := default [] (tdImporte row).

(** A row whose texts carry white space around them. *)
Definition paddedRow : Row :=
  {| tdExpediente :=
       Some {| textoEnlace := Some (js "  2024/017 ");
               expedienteDiv2 := Some (10%N :: js " Obras de mejora " ++ [10%N]);
               imgELicitacion := true;
               deeplink := Some (js "https://contrataciondelestado.es/deeplink") |};
     tdTipoContrato := Some {| tipoDiv1 := Some (js " Obras"); tipoDiv2 := None |};
     tdEstado := Some (js " Publicada  ");
     tdImporte := Some (js " 1.234,56 EUR ");
     tdFechaLimite := Some (js " 31/12/2024 ");
     tdOrganoContratacion :=
       Some {| organoText := js "  Ayuntamiento "; organoAnchor := None |} |}.

(** A widget whose only expand control is hidden. *)
Definition hiddenWidget : TreeWidget nat unit unit :=
  {| expandButtons _ := [()];
     isVisible _ _ := Returned false;
     click _ w := (Returned (), S w);
     waitForTimeout ms w := w |}.

(** The path key of a position in the document. *)
Definition pathKey (indices : list N) : jsstring :=
  join 45 (numberToString <$> indices).

(** The references held by the arrays of a result: the roots, then the
    [children] of every node of the store. *)
Definition placements (heap : list CPVNode) (roots : list ref) : list ref :=
  roots ++ concat (children <$> heap).

(** The references of an array come in the order of creation. *)
Definition increasing (arr : list ref) : Prop :=
  ∀ i j x y, i < j → arr !! i = Some x → arr !! j = Some y → x < y.

(** The invariant of the path-map reader: the map points into the store,
    every node of the store is held by exactly one array, once, the arrays
    are in creation order and no node is created after one of its
    children. *)
Definition pathInv (st : PathMap.state) : Prop :=
  (∀ k r, PathMap.nodeMap st !! k = Some r → r < length (PathMap.heap st))
  ∧ placements (PathMap.heap st) (PathMap.rootNodes st)
      ≡ₚ seq 0 (length (PathMap.heap st))
  ∧ increasing (PathMap.rootNodes st)
  ∧ (∀ p, increasing (childrenOf (PathMap.heap st) p))
  ∧ (∀ p c, c ∈ childrenOf (PathMap.heap st) p → p ≤ c).

(** The invariant of the depth walk: no node is held twice, the arrays hold
    references into the store in creation order, and a node is created
    before each of its children. *)
Definition walkInv (st : DepthWalk.state) : Prop :=
  NoDup (placements (DepthWalk.heap st) (DepthWalk.cpvData st))
  ∧ (∀ x, x ∈ placements (DepthWalk.heap st) (DepthWalk.cpvData st) →
          x < length (DepthWalk.heap st))
  ∧ increasing (DepthWalk.cpvData st)
  ∧ (∀ p, increasing (childrenOf (DepthWalk.heap st) p))
  ∧ (∀ p c, c ∈ childrenOf (DepthWalk.heap st) p → p < c).

(** The invariant of the path-map reader over elements that all sit [S d]
    steps below the top of the document. *)
Definition flatInv (d : nat) (st : PathMap.state) : Prop :=
  PathMap.rootNodes st = seq 0 (length (PathMap.heap st))
  ∧ (∀ k r, PathMap.nodeMap st !! k = Some r →
            ∃ indices, length indices = S d ∧ k = pathKey indices)
  ∧ (∀ p, childrenOf (PathMap.heap st) p = []).

(** The invariant of the depth walk over a stream that starts at level 0 or
    1 and never goes more than one level deeper at a time, after a node of
    level [P]: every node created so far is held by an array, and the walk
    along the last elements can go [P] steps down. *)
Definition spineInv (P : nat) (st : DepthWalk.state) : Prop :=
  walkInv st
  ∧ placements (DepthWalk.heap st) (DepthWalk.cpvData st)
      ≡ₚ seq 0 (length (DepthWalk.heap st))
  ∧ ∀ k, k ≤ P → is_Some (DepthWalk.walk st k DepthWalk.RootArray).

(** ** calculateTreeStats (selector.spec.ts) *)

(** The three counters of [calculateTreeStats]; [nodesByLevel] is a [Map]
    from depths to counts. *)
Record TreeStats := {
  totalNodes : nat;
  maxDepth : nat;
  nodesByLevel : gmap nat nat
}.

(** The statements of [traverse] before it descends: one more node, the
    depth seen, and one more node at this depth
    ([(nodesByLevel.get(depth) || 0) + 1]). *)
Definition countNode (depth : nat) (stats : TreeStats) : TreeStats :=
  {| totalNodes := totalNodes stats + 1;
     maxDepth := Nat.max (maxDepth stats) depth;
     nodesByLevel :=
       <[depth := default 0 (nodesByLevel stats !! depth) + 1]>
         (nodesByLevel stats) |}.

Fixpoint traverse (node : Tree) (depth : nat) (stats : TreeStats) : TreeStats :=
  match node with
  | TreeNode _ _ _ kids =>
      fold_left (λ stats child, traverse child (depth + 1) stats) kids
        (countNode depth stats)
  end.

Definition calculateTreeStats (nodes : list Tree) : TreeStats :=
  fold_left (λ stats node, traverse node 0 stats) nodes
    {| totalNodes := 0; maxDepth := 0; nodesByLevel := ∅ |}.

(** The number of nodes of a tree, and the number of them [k] steps below
    its root. *)
Fixpoint treeSize (t : Tree) : nat :=
  match t with
  | TreeNode _ _ _ kids => S (sum_list (treeSize <$> kids))
  end.

Fixpoint countAt (k : nat) (t : Tree) {struct t} : nat :=
  match t with
  | TreeNode _ _ _ kids =>
      match k with
      | O => 1
      | S k' => sum_list (countAt k' <$> kids)
      end
  end.

(** The nodes at depth [k] of a tree whose root is at depth [d]. *)
Definition countFrom (d k : nat) (t : Tree) : nat :=
  if decide (d ≤ k) then countAt (k - d) t else 0.

(** The counters agree with each other: no depth is counted beyond
    [maxDepth], no count is zero, and [maxDepth] is counted once a node has
    been seen. *)
Definition statsInv (stats : TreeStats) : Prop :=
  (∀ k, is_Some (nodesByLevel stats !! k) → k ≤ maxDepth stats)
  ∧ (∀ k, nodesByLevel stats !! k ≠ Some 0)
  ∧ (totalNodes stats = 0 → maxDepth stats = 0)
  ∧ (0 < totalNodes stats → is_Some (nodesByLevel stats !! maxDepth stats)).

(** The size of the tree read back from a reference of a store. *)
Definition subtreeSize (heap : list CPVNode) (r : ref) : nat :=
  from_option treeSize 0 (reify (length heap) heap r).

(** * Properties *)

Ltac by_computation := apply (bool_decide_unpack _); vm_compute; exact I.

(** ** Amounts *)

Lemma span_digits_app a r :
  Forall (λ c, isDigit c = true) a →
  (∀ c r', r = c :: r' → isDigit c = false) →
  span isDigit (a ++ r) = (a, r).
Proof.
  intros Ha Hr. induction Ha as [|c a Hc _ IH]; cbn [span app].
  - destruct r as [|c r']; [done|]. cbn [span]. by rewrite (Hr c r').
  - by rewrite Hc, IH.
Qed.

Lemma span_digits_all a :
  Forall (λ c, isDigit c = true) a → span isDigit a = (a, []).
Proof.
  intros Ha. pose proof (span_digits_app a [] Ha) as H.
  rewrite app_nil_r in H. by apply H.
Qed.

Lemma replaceFirst_app a r :
  44%N ∉ a → replaceFirst 44 46 (a ++ 44%N :: r) = a ++ 46%N :: r.
Proof.
  induction a as [|c a IH]; simpl; intros Hn; [done|].
  apply not_elem_of_cons in Hn as [Hc Ha].
  destruct (N.eqb_spec c 44); [done|]. by rewrite IH.
Qed.

(** What survives the stripping is a digit or a comma. *)
Lemma removeAll_class s :
  Forall (λ c, isDigit c = true ∨ c = 44%N) (removeAll nonDigitComma s).
Proof.
  apply list.Forall_forall. intros c Hc.
  apply list_elem_of_filter in Hc as [Hc _].
  unfold nonDigitComma in Hc.
  apply negb_false_iff, orb_true_iff in Hc as [?|?%N.eqb_eq]; auto.
Qed.

Lemma comma_free_digits l :
  44%N ∉ l → Forall (λ c, isDigit c = true ∨ c = 44%N) l →
  Forall (λ c, isDigit c = true) l.
Proof.
  intros Hl Hf. apply list.Forall_forall. intros x Hx.
  destruct (proj1 (list.Forall_forall _ _) Hf x Hx) as [?| ->]; done.
Qed.

Lemma parseFloat_two_parts a b r :
  Forall (λ c, isDigit c = true) a →
  Forall (λ c, isDigit c = true) b →
  (∀ c r', r = c :: r' → isDigit c = false) →
  parseFloat (a ++ 46%N :: b ++ r) = parseFloat (a ++ 46%N :: b).
Proof.
  intros Ha Hb Hr. unfold parseFloat.
  rewrite !(span_digits_app a) by (done || by intros ? ? [= <- _]).
  by rewrite (span_digits_app b r), (span_digits_all b).
Qed.

(** The number read from digits, a dot and digits. *)
Lemma parseFloat_decimal a b :
  Forall (λ c, isDigit c = true) a → Forall (λ c, isDigit c = true) b →
  parseFloat (a ++ 46%N :: b)
  = match a ++ b with
    | [] => NaN
    | _ :: _ =>
        Num (Z.of_N (digitsValue (a ++ b)) # Z.to_pos (10 ^ Z.of_nat (length b)))
    end.
Proof.
  intros Ha Hb. unfold parseFloat.
  rewrite (span_digits_app a) by (done || by intros ? ? [= <- _]).
  rewrite (span_digits_all b Hb). cbn [fst].
  by destruct (a ++ b).
Qed.

(** The amount of a row whose stripped text is [a , b], with no comma in
    [a]. *)
Lemma extractImporte_one_comma row a b :
  strippedImporte row = a ++ 44%N :: b → 44%N ∉ a →
  extractImporte row = parseFloat (a ++ 46%N :: b).
Proof.
  intros Hs Ha. unfold extractImporte. fold (strippedImporte row).
  rewrite Hs, replaceFirst_app by done. by destruct a.
Qed.

(** C10. When the stripped amount text has two commas or more, say it is
    [a , b , c] with no comma in [a] and in [b], only the first comma becomes
    the decimal point and nothing from the second comma on contributes: the
    amount is that of any row whose stripped text is [a , b] alone, it is
    what [parseFloat] reads from [a . b], and it is the number written
    [a . b]: NaN when [a] and [b] are both empty, else the decimal of the
    digits of [a] and [b] with those of [b] after the point (stated for up
    to 15 digits, where the decimal names one double). So "1,234,56" gives
    1.234, not 1234.56. *)
Theorem extractImporte_two_commas row a b c :
  strippedImporte row = a ++ 44%N :: b ++ 44%N :: c →
  44%N ∉ a → 44%N ∉ b →
  (∀ row', strippedImporte row' = a ++ 44%N :: b →
           extractImporte row = extractImporte row')
  ∧ extractImporte row = parseFloat (a ++ 46%N :: b)
  ∧ (a ++ b = [] → extractImporte row = NaN)
  ∧ (a ++ b ≠ [] → length (a ++ b) ≤ 15 →
     hasValue (extractImporte row)
       (Z.of_N (digitsValue (a ++ b)) # Z.to_pos (10 ^ Z.of_nat (length b)))).
Proof.
  intros Hs Ha Hb.
  pose proof (removeAll_class (extractText (tdImporte row))) as Hall.
  fold (strippedImporte row) in Hall. rewrite Hs in Hall.
  apply Forall_app in Hall as [Hda Hall].
  apply list.Forall_cons in Hall as [_ Hall].
  apply Forall_app in Hall as [Hdb _].
  apply comma_free_digits in Hda; [|done].
  apply comma_free_digits in Hdb; [|done].
  assert (extractImporte row = parseFloat (a ++ 46%N :: b)) as Hrow.
  { rewrite (extractImporte_one_comma row a (b ++ 44%N :: c)) by done.
    apply parseFloat_two_parts; [done..|]. by intros ? ? [= <- _]. }
  split; [|split; [done|split]].
  - intros row' Hs'. by rewrite Hrow, (extractImporte_one_comma row' a b).
  - intros Hnil. by rewrite Hrow, parseFloat_decimal, Hnil.
  - intros Hne _. rewrite Hrow, parseFloat_decimal by done.
    destruct (a ++ b); [done|]. cbn [hasValue]. reflexivity.
Qed.

Lemma extractImporte_two_commas_witness :
  extractImporte (sampleRow (js "1,234,56") [])
  = extractImporte (sampleRow (js "1,234") [])
  ∧ hasValue (extractImporte (sampleRow (js "1,234,56") [])) 1.234
  ∧ ¬ hasValue (extractImporte (sampleRow (js "1,234,56") [])) 1234.56.
Proof.
  destruct (extractImporte_two_commas (sampleRow (js "1,234,56") [])
              (js "1") (js "234") (js "56"))
    as (Hsame & _ & _ & Hvalue).
  - reflexivity.
  - by_computation.
  - by_computation.
  - split; [by apply Hsame|]. split.
    + apply Hvalue; [discriminate|simpl; lia].
    + vm_compute. congruence.
Defined.

(** An empty stripped text gives 0. *)
Lemma extractImporte_empty row :
  strippedImporte row = [] → extractImporte row = Num 0.
Proof.
  intros Hs. unfold extractImporte. fold (strippedImporte row). by rewrite Hs.
Qed.

Lemma span_fst_nil s :
  fst (span isDigit s) = [] ↔ ∀ c r', s = c :: r' → isDigit c = false.
Proof.
  destruct s as [|c s]; cbn [span].
  - split; [by intros _ ? ? [=] | done].
  - destruct (isDigit c) eqn:Hc.
    + destruct (span isDigit s). split; [done|].
      intros H. specialize (H c s eq_refl). congruence.
    + split; [|done]. by intros _ ? ? [= <- _].
Qed.

(** The amount is NaN exactly when the stripped text starts with a comma
    that no digit follows (for instance the cell text ","). *)
Lemma extractImporte_NaN_iff row :
  extractImporte row = NaN ↔
  ∃ r, strippedImporte row = 44%N :: r ∧ ∀ c r', r = c :: r' → isDigit c = false.
Proof.
  unfold extractImporte. fold (strippedImporte row).
  pose proof (removeAll_class (extractText (tdImporte row))) as Hall.
  fold (strippedImporte row) in Hall.
  destruct (strippedImporte row) as [|c r]; cbn [replaceFirst].
  { split; [done | by intros (? & [=] & _)]. }
  apply list.Forall_cons in Hall as [[Hc | ->] _].
  - assert (c ≠ 44%N) as Hne by (intros ->; done).
    destruct (N.eqb_spec c 44) as [|_]; [done|].
    unfold parseFloat. cbn [span]. rewrite Hc.
    destruct (span isDigit (replaceFirst 44 46 r)) as [ip rest].
    split; [done | by intros (? & [= ? _] & _)].
  - change (44 =? 44)%N with true. cbv iota.
    unfold parseFloat. cbn [span]. change (isDigit 46) with false. cbv iota.
    cbn [app]. destruct (fst (span isDigit r)) as [|d fp] eqn:Hfp.
    + split; [intros _ | done]. exists r. split; [done|]. by apply span_fst_nil.
    + split; [done|]. intros (r0 & [= <-] & H).
      apply span_fst_nil in H. congruence.
Qed.

(** When it is a number it is not negative. *)
Lemma extractImporte_nonneg row q :
  extractImporte row = Num q → (0 <= q)%Q.
Proof.
  unfold extractImporte, parseFloat.
  destruct (replaceFirst _ _ _) as [|c s]; [by intros [= <-]|].
  destruct (span isDigit (c :: s)) as [ip r].
  destruct (ip ++ _); [done|]. intros [= <-].
  unfold Qle. simpl. lia.
Qed.

(** C7. On the three amounts the specification names the function gives
    1234.56, 0 and 12.5. On the cell text "," the stripped text "," is not
    empty and not numeric, and the function gives NaN where the claim
    asks for 0. *)
Theorem extractImporte_examples :
  hasValue (extractImporte (sampleRow (js "1.234,56 EUR") [])) 1234.56
  ∧ hasValue (extractImporte (sampleRow (js "") [])) 0
  ∧ hasValue (extractImporte (sampleRow (js "12,50 EUR") [])) 12.5
  ∧ strippedImporte (sampleRow (js ",") []) = js ","
  ∧ extractImporte (sampleRow (js ",") []) = NaN.
Proof. repeat split; vm_compute; congruence. Qed.

(** ** Records *)

(** A well-formed row gives a complete record, whose fields are what the six
    extractors return. *)
Lemma extractRowData_wellFormed row :
  wellFormedRow row →
  ∃ e t o,
    extractExpediente row = Returned e ∧ extractTipoContrato row = Returned t
    ∧ extractOrganoContratacion row = Returned o
    ∧ extractRowData row =
        Returned {| expediente := e; tipoContrato := t;
                    estado := extractText (tdEstado row);
                    importe := extractImporte row;
                    fechaPresentacion := extractFecha utc row;
                    organoContratacion := o |}.
Proof.
  intros ([ce He] & [ct Ht] & [co Ho]).
  unfold extractRowData, extractExpediente, extractTipoContrato,
    extractOrganoContratacion.
  rewrite He, Ht, Ho. cbn [evalCell bind]. eauto 8.
Qed.

(** A row that lacks one of the cells read with [$eval] makes the extraction
    throw: no partial record is returned. *)
Lemma extractRowData_not_wellFormed row :
  ¬ wellFormedRow row → ∃ e, extractRowData row = Thrown e.
Proof.
  intros Hn. unfold extractRowData, extractExpediente, extractTipoContrato,
    extractOrganoContratacion.
  destruct (tdExpediente row) eqn:He; cbn [evalCell bind]; [|eauto].
  destruct (tdTipoContrato row) eqn:Ht; cbn [evalCell bind]; [|eauto].
  destruct (tdOrganoContratacion row) eqn:Ho; cbn [evalCell bind]; [|eauto].
  destruct Hn. unfold wellFormedRow. rewrite He, Ht, Ho. eauto.
Qed.

(** C5. The row with all six cells whose amount cell reads "," is well
    formed and its record is complete, but the amount in it is NaN: neither
    a non-negative number nor the 0 the claim asks for on unparsable text. *)
Theorem extractRowData_comma_amount :
  wellFormedRow (sampleRow (js ",") (js "31/12/2024"))
  ∧ ∃ r, extractRowData (sampleRow (js ",") (js "31/12/2024")) = Returned r
         ∧ importe r = NaN
         ∧ fechaPresentacion r = js "2024-12-31".
Proof.
  split.
  - unfold wellFormedRow; simpl; eauto.
  - eexists. split; [reflexivity|]. split; vm_compute; reflexivity.
Qed.

(** ** Dates *)

Lemma decimalDigit_below (d : N) : (d < 10)%N → In d decimalDigit.
Proof.
  intros H. unfold decimalDigit.
  assert (d = 0 ∨ d = 1 ∨ d = 2 ∨ d = 3 ∨ d = 4 ∨ d = 5 ∨ d = 6 ∨ d = 7
          ∨ d = 8 ∨ d = 9)%N as Hd by lia.
  simpl. intuition auto.
Qed.

Lemma isDigit_digitChar d : (d < 10)%N → isDigit (digitChar d) = true.
Proof.
  unfold isDigit, digitChar. intros. rewrite andb_true_iff, !N.leb_le. lia.
Qed.

Lemma addLeadingZeros_2 a b :
  (a < 10)%N → (b < 10)%N →
  addLeadingZeros (10 * a + b) 2 = [digitChar a; digitChar b].
Proof.
  intros Ha Hb.
  assert (forallb (λ a, forallb (λ b,
            bool_decide (addLeadingZeros (10 * a + b) 2
                         = [digitChar a; digitChar b]))
          decimalDigit) decimalDigit = true) as H
    by (vm_compute; reflexivity).
  rewrite forallb_forall in H. specialize (H a (decimalDigit_below a Ha)).
  rewrite forallb_forall in H. specialize (H b (decimalDigit_below b Hb)).
  by apply bool_decide_eq_true_1 in H.
Qed.

Lemma addLeadingZeros_4 a b c d :
  (a < 10)%N → (b < 10)%N → (c < 10)%N → (d < 10)%N →
  addLeadingZeros (1000 * a + 100 * b + 10 * c + d) 4
  = [digitChar a; digitChar b; digitChar c; digitChar d].
Proof.
  intros Ha Hb Hc Hd.
  assert (forallb (λ a, forallb (λ b, forallb (λ c, forallb (λ d,
            bool_decide (addLeadingZeros (1000 * a + 100 * b + 10 * c + d) 4
                         = [digitChar a; digitChar b; digitChar c; digitChar d]))
          decimalDigit) decimalDigit) decimalDigit) decimalDigit = true) as H
    by (vm_compute; reflexivity).
  rewrite forallb_forall in H. specialize (H a (decimalDigit_below a Ha)).
  rewrite forallb_forall in H. specialize (H b (decimalDigit_below b Hb)).
  rewrite forallb_forall in H. specialize (H c (decimalDigit_below c Hc)).
  rewrite forallb_forall in H. specialize (H d (decimalDigit_below d Hd)).
  by apply bool_decide_eq_true_1 in H.
Qed.

Lemma parseNDigits_2 a b r :
  (a < 10)%N → (b < 10)%N →
  parseNDigits 2 (digitChar a :: digitChar b :: r) = Some ((10 * a + b)%N, r).
Proof.
  intros Ha Hb. unfold parseNDigits. cbn [takeDigits].
  rewrite !isDigit_digitChar by done.
  unfold digitsValue, digitChar. cbn [fold_left]. do 2 f_equal. lia.
Qed.

Lemma parseNDigits_4 a b c d :
  (a < 10)%N → (b < 10)%N → (c < 10)%N → (d < 10)%N →
  parseNDigits 4 [digitChar a; digitChar b; digitChar c; digitChar d]
  = Some ((1000 * a + 100 * b + 10 * c + d)%N, []).
Proof.
  intros Ha Hb Hc Hd. unfold parseNDigits. cbn [takeDigits].
  rewrite !isDigit_digitChar by done.
  unfold digitsValue, digitChar. cbn [fold_left]. do 2 f_equal. lia.
Qed.

(** A text of two digits, a slash, two digits, a slash and four digits is
    parsed to the day on which the instant built for the day it names falls
    in the zone, when it names a day of the calendar, and to the Invalid
    Date when it does not. *)
Lemma parse_sourceDateText tz d1 d2 m1 m2 y1 y2 y3 y4 :
  Forall (λ x, x < 10)%N [d1; d2; m1; m2; y1; y2; y3; y4] →
  parse tz (sourceDateText d1 d2 m1 m2 y1 y2 y3 y4)
  = if validDate (1000 * y1 + 100 * y2 + 10 * y3 + y4) (10 * m1 + m2)
         (10 * d1 + d2)
    then let '(y, m, d) :=
           calendarDay tz (1000 * y1 + 100 * y2 + 10 * y3 + y4) (10 * m1 + m2)
             (10 * d1 + d2) in
         ValidDate y m d
    else InvalidDate.
Proof.
  intros Hd. repeat (apply list.Forall_cons in Hd as [? Hd]).
  unfold parse, sourceDateText.
  rewrite parseNDigits_2 by done. cbn [mbind option_bind expectChar].
  change (47 =? 47)%N with true. cbn [mbind option_bind].
  rewrite parseNDigits_2 by done. cbn [mbind option_bind expectChar].
  change (47 =? 47)%N with true. cbn [mbind option_bind].
  rewrite parseNDigits_4 by done. cbn [mbind option_bind forallb].
  reflexivity.
Qed.

(** A text that does not start with a digit does not parse. *)
Lemma parse_no_digit tz text :
  (∀ c rest, text = c :: rest → isDigit c = false) →
  parse tz text = InvalidDate.
Proof.
  intros Hhead. unfold parse, parseNDigits.
  destruct text as [|c rest]; [done|].
  cbn [takeDigits]. by rewrite (Hhead c rest).
Qed.

(** C8, as the code has it. A text of the form dd/MM/yyyy (two digits,
    slash, two digits, slash, four digits) is returned as yyyy-MM-dd with
    the same digits when it names a day of the calendar and that day has a
    midnight in the time zone of the process. A text of that form that names
    no day of the calendar is returned as it is, and so is a text that does
    not start with a digit; in general a text that [parse] does not accept
    is returned as it is, and a text that it accepts is returned as the
    zero-padded year, month and day it parsed to. Nothing is thrown. *)
Theorem extractFecha_spec tz row :
  (∀ d1 d2 m1 m2 y1 y2 y3 y4,
     Forall (λ x, x < 10)%N [d1; d2; m1; m2; y1; y2; y3; y4] →
     validDate (1000 * y1 + 100 * y2 + 10 * y3 + y4) (10 * m1 + m2)
       (10 * d1 + d2) = true →
     calendarDay tz (1000 * y1 + 100 * y2 + 10 * y3 + y4) (10 * m1 + m2)
       (10 * d1 + d2)
     = ((1000 * y1 + 100 * y2 + 10 * y3 + y4)%N, (10 * m1 + m2)%N,
        (10 * d1 + d2)%N) →
     extractText (tdFechaLimite row) = sourceDateText d1 d2 m1 m2 y1 y2 y3 y4 →
     extractFecha tz row = canonicalDateText d1 d2 m1 m2 y1 y2 y3 y4)
  ∧ (∀ d1 d2 m1 m2 y1 y2 y3 y4,
       Forall (λ x, x < 10)%N [d1; d2; m1; m2; y1; y2; y3; y4] →
       validDate (1000 * y1 + 100 * y2 + 10 * y3 + y4) (10 * m1 + m2)
         (10 * d1 + d2) = false →
       extractText (tdFechaLimite row) = sourceDateText d1 d2 m1 m2 y1 y2 y3 y4 →
       extractFecha tz row = sourceDateText d1 d2 m1 m2 y1 y2 y3 y4)
  ∧ ((∀ c rest, extractText (tdFechaLimite row) = c :: rest →
                isDigit c = false) →
     extractFecha tz row = extractText (tdFechaLimite row))
  ∧ (parse tz (extractText (tdFechaLimite row)) = InvalidDate →
     extractFecha tz row = extractText (tdFechaLimite row))
  ∧ (∀ y m d,
       parse tz (extractText (tdFechaLimite row)) = ValidDate y m d →
       extractFecha tz row
       = addLeadingZeros y 4 ++ [45%N] ++ addLeadingZeros m 2 ++ [45%N]
         ++ addLeadingZeros d 2).
Proof.
  split; [|split; [|split; [|split]]].
  - intros d1 d2 m1 m2 y1 y2 y3 y4 Hd Hv Hzone Ht. unfold extractFecha.
    rewrite Ht, parse_sourceDateText, Hv, Hzone by done.
    repeat (apply list.Forall_cons in Hd as [? Hd]).
    cbn [format]. rewrite addLeadingZeros_4, !addLeadingZeros_2 by done.
    reflexivity.
  - intros d1 d2 m1 m2 y1 y2 y3 y4 Hd Hv Ht. unfold extractFecha.
    by rewrite Ht, parse_sourceDateText, Hv.
  - intros Hhead. unfold extractFecha. by rewrite parse_no_digit.
  - intros Hp. unfold extractFecha. by rewrite Hp.
  - intros y m d Hp. unfold extractFecha. by rewrite Hp.
Qed.

Lemma extractFecha_spec_witness :
  extractFecha utc (sampleRow [] (js "31/12/2024")) = js "2024-12-31"
  ∧ extractFecha pacificApia (sampleRow [] (js "29/02/2024")) = js "2024-02-29"
  ∧ extractFecha utc (sampleRow [] (js "30/02/2024")) = js "30/02/2024"
  ∧ extractFecha utc (sampleRow [] (js "not a date")) = js "not a date".
Proof.
  split; [|split; [|split]].
  - apply (proj1 (extractFecha_spec utc (sampleRow [] (js "31/12/2024")))
             3 1 1 2 2 0 2 4)%N.
    + repeat constructor.
    + reflexivity.
    + reflexivity.
    + reflexivity.
  - apply (proj1 (extractFecha_spec pacificApia
                    (sampleRow [] (js "29/02/2024")))
             2 9 0 2 2 0 2 4)%N.
    + repeat constructor.
    + reflexivity.
    + reflexivity.
    + reflexivity.
  - apply (proj1 (proj2 (extractFecha_spec utc
                           (sampleRow [] (js "30/02/2024"))))
             3 0 0 2 2 0 2 4)%N.
    + repeat constructor.
    + reflexivity.
    + reflexivity.
  - apply (proj1 (proj2 (proj2 (extractFecha_spec utc
                                  (sampleRow [] (js "not a date")))))).
    intros c rest [= <- _]. reflexivity.
Defined.

(** C8 as stated fails. The text "31/02/2024" has the form dd/MM/yyyy but
    names no day of the calendar: it is returned as it is, not as
    "2024-02-31". And in the zone Pacific/Apia, which skipped 30 December
    2011, "30/12/2011" is returned as "2011-12-31". *)
Lemma extractFecha_31_02 :
  extractText (tdFechaLimite (sampleRow [] (js "31/02/2024")))
    = sourceDateText 3 1 0 2 2 0 2 4
  ∧ extractFecha utc (sampleRow [] (js "31/02/2024")) = js "31/02/2024"
  ∧ extractFecha utc (sampleRow [] (js "31/02/2024"))
    ≠ canonicalDateText 3 1 0 2 2 0 2 4
  ∧ extractText (tdFechaLimite (sampleRow [] (js "30/12/2011")))
    = sourceDateText 3 0 1 2 2 0 1 1
  ∧ extractFecha pacificApia (sampleRow [] (js "30/12/2011")) = js "2011-12-31"
  ∧ extractFecha pacificApia (sampleRow [] (js "30/12/2011"))
    ≠ canonicalDateText 3 0 1 2 2 0 1 1.
Proof. repeat split; vm_compute; congruence. Qed.

(** ** Labels: the matcher on [labelRegex] *)

Section MatcherFacts.
Context {R : Type}.

(** A bounded repetition [cls{n}] takes exactly [n] code units. *)
Lemma rep_exact cls n p s (k : nat → jsstring → option R) :
  rep cls n (Some n) p s k
  = if (n <=? length s) && forallb cls (take n s)
    then k (p + n) (drop n s) else None.
Proof.
  revert p s. induction n as [|n IH]; intros p s.
  - rewrite Nat.add_0_r. destruct s as [|c s]; cbn [rep]; [done|].
    rewrite bool_decide_eq_true_2 by done. by rewrite andb_false_r.
  - destruct s as [|c s]; cbn [rep]; [done|].
    rewrite bool_decide_eq_false_2 by done. rewrite andb_true_r.
    cbn [length take drop forallb pred fmap option_fmap option_map].
    destruct (cls c); cbn [andb].
    + rewrite IH. replace (S p + n) with (p + S n) by lia.
      change (S n <=? S (length s)) with (n <=? length s).
      destruct ((n <=? length s) && forallb cls (take n s)); [|done].
      by destruct (k (p + S n) (drop n s)).
    + by rewrite andb_false_r.
Qed.

(** An unbounded repetition of [.] in front of the end of input either
    takes everything or fails. *)
Lemma rep_dot_to_end lo p s (k : nat → jsstring → option R) :
  (∀ p' c s', k p' (c :: s') = None) →
  rep dot lo None p s k
  = if forallb dot s && (lo <=? length s) then k (p + length s) [] else None.
Proof.
  intros Hk. revert lo p. induction s as [|c s IH]; intros lo p.
  - cbn [rep length forallb andb]. rewrite Nat.add_0_r. by destruct lo.
  - cbn [rep length forallb].
    rewrite bool_decide_eq_false_2 by done. rewrite andb_true_r.
    destruct (dot c); cbn [andb].
    + change (pred <$> None) with (@None nat). rewrite IH.
      replace (S p + length s) with (p + S (length s)) by lia.
      replace (pred lo <=? length s) with (lo <=? S (length s))
        by (destruct lo; done).
      destruct (forallb dot s && (lo <=? S (length s)));
        [|by destruct lo; rewrite ?Hk].
      by destruct (k (p + S (length s)) []); [|destruct lo; rewrite ?Hk].
    + by destruct lo; rewrite ?Hk.
Qed.
End MatcherFacts.

Section MatcherEquations.
Context {R : Type}.
Implicit Types (k : nat → jsstring → gmap nat jsstring → option R).

Lemma rmatch_Seq r1 r2 p s caps k :
  rmatch (Seq r1 r2) p s caps k
  = rmatch r1 p s caps (λ p' s' caps', rmatch r2 p' s' caps' k).
Proof. reflexivity. Qed.

Lemma rmatch_Bol s caps k : rmatch Bol 0 s caps k = k 0 s caps.
Proof. reflexivity. Qed.

Lemma rmatch_Opt r p s caps k :
  rmatch (Opt r) p s caps k
  = match rmatch r p s caps k with Some x => Some x | None => k p s caps end.
Proof. reflexivity. Qed.

Lemma rmatch_Rep cls lo hi p s caps k :
  rmatch (Rep cls lo hi) p s caps k = rep cls lo hi p s (λ p' s', k p' s' caps).
Proof. reflexivity. Qed.

Lemma rmatch_Grp i r p s caps k :
  rmatch (Grp i r) p s caps k
  = rmatch r p s caps (λ p' s' caps', k p' s' (<[i := take (p' - p) s]> caps')).
Proof. reflexivity. Qed.
End MatcherEquations.

(** [(.+)$] under the final continuation. *)
Lemma rmatch_label_tail p s caps :
  rmatch (Seq (Grp 2 (Rep dot 1 None)) Eol) p s caps (λ _ _ c, Some c)
  = if dotPlusToEnd s then Some (<[2 := s]> caps) else None.
Proof.
  rewrite rmatch_Seq, rmatch_Grp, rmatch_Rep, rep_dot_to_end by done.
  unfold dotPlusToEnd. destruct (_ && _); [|done]. cbn [rmatch].
  replace (p + length s - p) with (length s) by lia. by rewrite firstn_all.
Qed.

(** [-?(.+)$]: the hyphen is consumed when something is left after it. *)
Lemma rmatch_label_rest p s caps :
  rmatch (Seq (Opt (Rep (isChar 45) 1 (Some 1)))
            (Seq (Grp 2 (Rep dot 1 None)) Eol)) p s caps (λ _ _ c, Some c)
  = labelRest s caps.
Proof.
  unfold labelRest.
  rewrite rmatch_Seq, rmatch_Opt, rmatch_Rep, rep_exact. cbv beta.
  rewrite !rmatch_label_tail.
  destruct s as [|c s]; [done|].
  cbn [length Nat.leb take forallb drop andb]. unfold isChar.
  rewrite andb_true_r.
  destruct (N.eqb_spec c 45) as [->|Hne].
  - rewrite drop_0. by destruct (dotPlusToEnd s).
  - destruct c as [|c]; [done|].
    repeat (destruct c as [c|c|]; try done).
Qed.

Lemma scan_label_later p s : scan labelRegex (S p) s = None.
Proof. revert p. induction s as [|c s IH]; intros p; cbn [scan]; [done|]. apply IH. Qed.

(** The whole of [labelRegex]: with the eight digits when that lets the rest
    match, else without them. *)
Lemma jsMatch_label text :
  jsMatch text labelRegex
  = match (if hasLeadingCode text
           then labelRest (drop 8 text) (<[1 := take 8 text]> ∅) else None) with
    | Some caps => Some caps
    | None => labelRest text ∅
    end.
Proof.
  unfold jsMatch. destruct text as [|c s]; cbn [scan].
  - reflexivity.
  - rewrite scan_label_later. unfold labelRegex.
    rewrite rmatch_Seq, rmatch_Bol, rmatch_Seq, rmatch_Opt, rmatch_Grp, rmatch_Rep.
    rewrite rep_exact. cbv beta. rewrite !rmatch_label_rest.
    fold (hasLeadingCode (c :: s)). rewrite Nat.sub_0_r.
    destruct (hasLeadingCode (c :: s)); [|by destruct (labelRest (c :: s) ∅)].
    change (0 + 8) with 8.
    destruct (labelRest (drop 8 (c :: s)) _); [done|].
    by destruct (labelRest (c :: s) ∅).
Qed.

Lemma orElse_same a : orElse (Some a) a = a.
Proof. by destruct a. Qed.

(** C9, as the code has it. A label of eight digits, a hyphen and a
    description that holds no line terminator and is not blank gives the
    eight digits as code and the trimmed description. A label that starts
    neither with eight digits nor with a hyphen gives the empty code and the
    whole trimmed text. *)
Theorem parseLabel_spec text :
  (∀ digits desc,
     text = digits ++ 45%N :: desc →
     length digits = 8 → forallb isDigit digits = true →
     forallb dot desc = true → trim desc ≠ [] →
     parseLabel text = {| labelCode := digits; labelDescription := trim desc |})
  ∧ (hasLeadingCode text = false → head text ≠ Some 45%N →
     parseLabel text = {| labelCode := []; labelDescription := trim text |}).
Proof.
  split.
  - intros digits desc -> Hlen Hdig Hdot Hdesc.
    unfold parseLabel. rewrite jsMatch_label.
    assert (take 8 (digits ++ 45%N :: desc) = digits) as Htake
      by (by rewrite take_app_length').
    assert (drop 8 (digits ++ 45%N :: desc) = 45%N :: desc) as Hdrop
      by (by rewrite drop_app_length').
    assert (hasLeadingCode (digits ++ 45%N :: desc) = true) as ->.
    { unfold hasLeadingCode. rewrite Htake, Hdig, length_app, Hlen. done. }
    rewrite Htake, Hdrop. unfold labelRest.
    assert (dotPlusToEnd desc = true) as ->.
    { unfold dotPlusToEnd. rewrite Hdot. destruct desc; done. }
    cbn [mbind option_bind fmap option_fmap option_map].
    rewrite lookup_insert_ne, lookup_insert_eq by done.
    rewrite lookup_insert_eq. cbn [mbind option_bind fmap option_fmap option_map].
    f_equal.
    + destruct digits; done.
    + destruct (trim desc); done.
  - intros Hcode Hhead. unfold parseLabel. rewrite jsMatch_label, Hcode.
    assert (labelRest text ∅
            = if dotPlusToEnd text then Some (<[2 := text]> ∅) else None) as ->.
    { unfold labelRest. destruct text as [|c s]; [done|].
      destruct (N.eq_dec c 45%N) as [->|Hne]; [done|].
      destruct c as [|c]; [done|].
      repeat (destruct c as [c|c|]; try done). }
    destruct (dotPlusToEnd text);
      cbn [mbind option_bind fmap option_fmap option_map]; [|done].
    rewrite lookup_insert_ne, lookup_empty, lookup_insert_eq by done.
    cbn [fmap option_fmap option_map]. by rewrite orElse_same.
Qed.

Lemma parseLabel_spec_witness :
  parseLabel (js "03000000-Agricultura")
    = {| labelCode := js "03000000"; labelDescription := js "Agricultura" |}
  ∧ parseLabel (js "Obras")
    = {| labelCode := []; labelDescription := js "Obras" |}.
Proof.
  split.
  - apply (proj1 (parseLabel_spec (js "03000000-Agricultura"))
             (js "03000000") (js "Agricultura")).
    + reflexivity.
    + reflexivity.
    + reflexivity.
    + reflexivity.
    + vm_compute. discriminate.
  - apply (proj2 (parseLabel_spec (js "Obras"))).
    + reflexivity.
    + vm_compute. discriminate.
Defined.

(** C9 as stated fails: the text "-Foo" has no leading code, yet the
    description returned is "Foo", not the whole trimmed text "-Foo". *)
Lemma parseLabel_leading_hyphen :
  hasLeadingCode (js "-Foo") = false
  ∧ labelCode (parseLabel (js "-Foo")) = []
  ∧ labelDescription (parseLabel (js "-Foo")) = js "Foo"
  ∧ labelDescription (parseLabel (js "-Foo")) ≠ trim (js "-Foo").
Proof. repeat split; vm_compute; congruence. Qed.

(** It also fails on eight digits, a hyphen and a description that spans two
    lines or is blank: the code is lost in the first case, and the
    description is the whole text in both. *)
Example parseLabel_two_lines :
  parseLabel (js "12345678-Foo" ++ 10%N :: js "Bar")
  = {| labelCode := [];
       labelDescription := js "12345678-Foo" ++ 10%N :: js "Bar" |}.
Proof. vm_compute. reflexivity. Qed.

Example parseLabel_blank_description :
  parseLabel (js "12345678- ")
  = {| labelCode := js "12345678"; labelDescription := js "12345678-" |}.
Proof. vm_compute. reflexivity. Qed.

(** ** retryOperation *)

Section RetryFacts.
Context {W E A : Type}.
Variable operation : W → completion E A * W.
Variable sleep : nat → W → W.
Variable maxAttempts : nat.

(** The loop entered at attempt [a], when the attempts [a], ..., [a + n - 1]
    throw and attempt [a + n] returns or is the last one allowed. *)
Lemma retryLoop_from n : ∀ a lastError w trace,
  1 ≤ a → a + n ≤ maxAttempts →
  (∀ j, j < n →
     ∃ e, fst (operation (attemptWorldFrom operation sleep a j w)) = Thrown e) →
  (let c := fst (operation (attemptWorldFrom operation sleep a n w)) in
   (∃ v, c = Returned v) ∨ a + n = maxAttempts) →
  retryLoop operation sleep maxAttempts (maxAttempts + 1 - a) a lastError w trace
  = (finalCompletion (fst (operation (attemptWorldFrom operation sleep a n w))),
     snd (operation (attemptWorldFrom operation sleep a n w)),
     trace ++ traceFrom a n).
Proof.
  induction n as [|n IH]; intros a lastError w trace Ha Hle Hfail Hlast.
  - replace (maxAttempts + 1 - a) with (S (maxAttempts - a)) by lia.
    cbn [retryLoop attemptWorldFrom traceFrom] in *.
    destruct (operation w) as [[v|e] w']; [done|]. cbn [fst snd finalCompletion].
    destruct Hlast as [[v [=]]|Hmax].
    replace (a =? maxAttempts) with true by (symmetry; apply Nat.eqb_eq; lia).
    done.
  - replace (maxAttempts + 1 - a) with (S (maxAttempts - a)) by lia.
    cbn [retryLoop attemptWorldFrom traceFrom].
    destruct (Hfail 0 ltac:(lia)) as [e He]. cbn [attemptWorldFrom] in He.
    destruct (operation w) as [c w'] eqn:Hop. cbn [fst snd] in *. subst c.
    replace (a =? maxAttempts) with false by (symmetry; apply Nat.eqb_neq; lia).
    replace (maxAttempts - a) with (maxAttempts + 1 - S a) by lia.
    rewrite IH.
    + by rewrite <- !app_assoc.
    + lia.
    + lia.
    + intros j Hj. specialize (Hfail (S j) ltac:(lia)).
      cbn [attemptWorldFrom] in Hfail. by rewrite Hop in Hfail.
    + cbn [attemptWorldFrom] in Hlast. rewrite Hop in Hlast.
      destruct Hlast as [?|?]; [by left | right; lia].
Qed.

Lemma retryOperation_run k w :
  1 ≤ k ≤ maxAttempts →
  (∀ j, 1 ≤ j < k →
     ∃ e, fst (operation (attemptWorld operation sleep j w)) = Thrown e) →
  ((∃ v, fst (operation (attemptWorld operation sleep k w)) = Returned v)
   ∨ k = maxAttempts) →
  retryOperation operation sleep maxAttempts w
  = (finalCompletion (fst (operation (attemptWorld operation sleep k w))),
     snd (operation (attemptWorld operation sleep k w)),
     backoffTrace k).
Proof.
  intros Hk Hfail Hlast. unfold retryOperation, attemptWorld.
  replace maxAttempts with (maxAttempts + 1 - 1) at 2 by lia.
  rewrite (retryLoop_from (k - 1)); try lia.
  - destruct k as [|k]; [lia|]. by rewrite Nat.sub_succ, Nat.sub_0_r.
  - intros j Hj. specialize (Hfail (S j) ltac:(lia)).
    unfold attemptWorld in Hfail. by rewrite Nat.sub_succ, Nat.sub_0_r in Hfail.
  - unfold attemptWorld in Hlast. destruct Hlast as [?|?]; [by left | right; lia].
Qed.
End RetryFacts.

Lemma invocations_traceFrom a n : invocations (traceFrom a n) = S n.
Proof.
  revert a. induction n as [|n IH]; intros a; [done|].
  unfold invocations in *. cbn [traceFrom omap list_omap length]. by rewrite IH.
Qed.

Lemma waits_traceFrom a n :
  waits (traceFrom a n) = (λ i, i * 1000) <$> seq a n.
Proof.
  revert a. induction n as [|n IH]; intros a; [done|].
  unfold waits in *. cbn [traceFrom omap list_omap seq fmap list_fmap].
  by rewrite IH.
Qed.

(** [k] calls, and after each but the last the wait of its attempt number
    times one second. *)
Lemma backoffTrace_shape k :
  invocations (backoffTrace k) = k
  ∧ waits (backoffTrace k) = (λ i, i * 1000) <$> seq 1 (k - 1).
Proof.
  destruct k as [|n]; [done|]. cbn [backoffTrace].
  rewrite invocations_traceFrom, waits_traceFrom.
  by rewrite Nat.sub_succ, Nat.sub_0_r.
Qed.

(** C4. With [maxAttempts] at least 1: when every attempt throws, the
    operation is called [maxAttempts] times, attempt [i] is followed by a wait
    of [i * 1000] ms unless it is the last, and the call throws the very error
    of the last attempt; when attempt [k] is the first to return, the call
    returns its value after [k] calls. *)
Theorem retryOperation_spec {W E A : Type}
    (operation : W → completion E A * W) (sleep : nat → W → W)
    (maxAttempts : nat) (w : W) :
  1 ≤ maxAttempts →
  ((∀ k, 1 ≤ k ≤ maxAttempts →
      ∃ e, fst (operation (attemptWorld operation sleep k w)) = Thrown e) →
   ∃ e trace w',
     fst (operation (attemptWorld operation sleep maxAttempts w)) = Thrown e
     ∧ retryOperation operation sleep maxAttempts w = (Thrown (Some e), w', trace)
     ∧ trace = backoffTrace maxAttempts
     ∧ invocations trace = maxAttempts
     ∧ waits trace = (λ i, i * 1000) <$> seq 1 (maxAttempts - 1))
  ∧ (∀ k v,
       1 ≤ k ≤ maxAttempts →
       (∀ j, 1 ≤ j < k →
          ∃ e, fst (operation (attemptWorld operation sleep j w)) = Thrown e) →
       fst (operation (attemptWorld operation sleep k w)) = Returned v →
       ∃ trace w',
         retryOperation operation sleep maxAttempts w = (Returned v, w', trace)
         ∧ trace = backoffTrace k
         ∧ invocations trace = k
         ∧ waits trace = (λ i, i * 1000) <$> seq 1 (k - 1)).
Proof.
  intros Hmax. split.
  - intros Hall. destruct (Hall maxAttempts ltac:(lia)) as [e He].
    exists e. eexists _, _. split; [done|].
    rewrite (retryOperation_run operation sleep maxAttempts maxAttempts w);
      [| lia | intros; apply Hall; lia | by right].
    rewrite He. split; [reflexivity|]. split; [done|]. apply backoffTrace_shape.
  - intros k v Hk Hfail Hret. eexists _, _.
    rewrite (retryOperation_run operation sleep maxAttempts k w);
      [| lia | done | left; eauto].
    rewrite Hret. split; [reflexivity|]. split; [done|]. apply backoffTrace_shape.
Qed.

Lemma retryOperation_spec_witness :
  (∃ e trace w',
     fst (failingOperation (attemptWorld failingOperation noSleep 3 0)) = Thrown e
     ∧ retryOperation failingOperation noSleep 3 0 = (Thrown (Some e), w', trace)
     ∧ trace = backoffTrace 3
     ∧ invocations trace = 3
     ∧ waits trace = (λ i, i * 1000) <$> seq 1 (3 - 1))
  ∧ (∃ trace w',
       retryOperation flakyOperation noSleep 3 0 = (Returned 42, w', trace)
       ∧ trace = backoffTrace 3
       ∧ invocations trace = 3
       ∧ waits trace = (λ i, i * 1000) <$> seq 1 (3 - 1)).
Proof.
  split.
  - apply (proj1 (retryOperation_spec failingOperation noSleep 3 0 ltac:(lia))).
    intros k _. eexists. reflexivity.
  - apply (proj2 (retryOperation_spec flakyOperation noSleep 3 0 ltac:(lia)) 3 42).
    + lia.
    + intros j Hj. assert (j = 1 ∨ j = 2) as [-> | ->] by lia;
        eexists; reflexivity.
    + reflexivity.
Defined.

(** The example of the specification, evaluated: two failures, then the
    value; and three failures, then the third error. *)
Example retryOperation_flaky :
  retryOperation flakyOperation noSleep 3 0
  = (Returned 42, 3, [Invoked; Waited 1000; Invoked; Waited 2000; Invoked])
  ∧ retryOperation failingOperation noSleep 3 0
    = (Thrown (Some 2), 3, [Invoked; Waited 1000; Invoked; Waited 2000; Invoked]).
Proof. split; reflexivity. Qed.

(** ** scrape *)

Lemma scrapeTable_fold rows : ∀ results,
  fold_left (λ results row,
               match extractRowData row with
               | Returned result => results ++ [result]
               | Thrown _ => results
               end) rows results
  = results ++ extractedRows rows.
Proof.
  induction rows as [|row rows IH]; intros results; cbn [fold_left].
  - by rewrite app_nil_r.
  - rewrite IH. unfold extractedRows. cbn [omap list_omap].
    destruct (extractRowData row); [|done]. by rewrite <- app_assoc.
Qed.

(** [scrapeTable] keeps the rows that extract, in their order. *)
Lemma scrapeTable_extractedRows rows : scrapeTable rows = extractedRows rows.
Proof. unfold scrapeTable. by rewrite scrapeTable_fold. Qed.

Lemma elem_of_extractedRows rows result :
  result ∈ extractedRows rows
  ↔ ∃ row, row ∈ rows ∧ extractRowData row = Returned result.
Proof.
  unfold extractedRows. rewrite list_elem_of_omap. split.
  - intros (row & Hrow & Hext). exists row. split; [done|].
    destruct (extractRowData row); congruence.
  - intros (row & Hrow & Hext). exists row. by rewrite Hext.
Qed.

Lemma last_cons_default {A} (l : list A) : ∀ x d,
  List.last (x :: l) d = List.last l x.
Proof.
  induction l as [|y l IH]; intros x d; [done|].
  change (List.last (x :: y :: l) d) with (List.last (y :: l) d).
  by rewrite !IH.
Qed.

Section ScrapeFacts.
Context {W E : Type}.
Variable page : Page W E.

(** Over a page sequence the loop needs one iteration per page. *)
Lemma scrapeLoop_pageSequence rest : ∀ w0 fuel allResults,
  pageSequence page (w0 :: rest) →
  scrapeLoop page fuel allResults w0
  = if S (length rest) <=? fuel
    then Some (Returned (allResults ++ concat (pageRows page <$> w0 :: rest)),
               List.last rest w0)
    else None.
Proof.
  induction rest as [|w1 rest IH]; intros w0 fuel allResults Hseq.
  - destruct fuel as [|fuel]; [done|].
    cbn [scrapeLoop pageSequence] in *. rewrite Hseq, scrapeTable_extractedRows.
    cbn [fmap list_fmap concat length List.last Nat.leb]. by rewrite app_nil_r.
  - destruct Hseq as (Hnext & Hclick & Hseq).
    destruct fuel as [|fuel]; [done|].
    cbn [scrapeLoop]. rewrite Hnext, Hclick, scrapeTable_extractedRows.
    rewrite (IH w1 fuel _ Hseq).
    change (S (length (w1 :: rest)) <=? S fuel) with (S (length rest) <=? fuel).
    destruct (S (length rest) <=? fuel); [|done].
    cbn [fmap list_fmap concat]. rewrite <- app_assoc.
    by rewrite last_cons_default.
Qed.

(** The loop returns only at a page without the next-page control. *)
Lemma scrapeLoop_returns fuel : ∀ allResults w results w',
  scrapeLoop page fuel allResults w = Some (Returned results, w') →
  nextButton page w' = false.
Proof.
  induction fuel as [|fuel IH]; intros allResults w results w'; [done|].
  cbn [scrapeLoop]. destruct (nextButton page w) eqn:Hnext.
  - destruct (clickNext page w) as [[[]|e] w1]; [apply IH | done].
  - by intros [= _ <-].
Qed.

(** When every page shows the control and the click works, the loop is
    still running after any number of iterations. *)
Lemma scrapeLoop_endless fuel : ∀ allResults w,
  (∀ v, nextButton page v = true) →
  (∀ v, ∃ v', clickNext page v = (Returned (), v')) →
  scrapeLoop page fuel allResults w = None.
Proof.
  induction fuel as [|fuel IH]; intros allResults w Hnext Hclick; [done|].
  cbn [scrapeLoop]. rewrite Hnext. destruct (Hclick w) as [v' ->]. by apply IH.
Qed.
End ScrapeFacts.

(** C3. Over a fixed sequence of pages, each but the last showing the
    next-page control, [scrape] returns the rows that extract, page after
    page; the loop runs once per page, so it is still running as long as
    fewer iterations than pages have been made, and stops at the page
    without the control. *)
Theorem scrape_spec {W E : Type} (page : Page W E) (w w0 : W) (rest : list W)
    (wend : W) :
  let results := concat (pageRows page <$> w0 :: rest) in
  openListing page w = (Returned (), w0) →
  pageSequence page (w0 :: rest) →
  writeFile page results (List.last rest w0) = (Returned (), wend) →
  (∀ fuel, S (length rest) ≤ fuel →
     scrape page fuel w = Some (Returned results, wend))
  ∧ (∀ fuel, fuel < S (length rest) → scrape page fuel w = None)
  ∧ nextButton page (List.last rest w0) = false.
Proof.
  intros results Hopen Hseq Hwrite. split; [|split].
  - intros fuel Hfuel. unfold scrape.
    rewrite Hopen, (scrapeLoop_pageSequence page rest w0 fuel [] Hseq).
    replace (S (length rest) <=? fuel) with true
      by (symmetry; apply Nat.leb_le; lia).
    cbn [app]. fold results. by rewrite Hwrite.
  - intros fuel Hfuel. unfold scrape.
    rewrite Hopen, (scrapeLoop_pageSequence page rest w0 fuel [] Hseq).
    replace (S (length rest) <=? fuel) with false
      by (symmetry; apply Nat.leb_gt; lia).
    done.
  - apply (scrapeLoop_returns page (S (length rest)) [] w0
             (concat (pageRows page <$> w0 :: rest))).
    rewrite (scrapeLoop_pageSequence page rest w0 _ [] Hseq).
    by rewrite Nat.leb_refl.
Qed.

Lemma scrape_spec_witness :
  (∀ fuel, 2 ≤ fuel →
     scrape twoPages fuel 0
     = Some (Returned (concat (pageRows twoPages <$> [0; 1])), 1))
  ∧ (∀ fuel, fuel < 2 → scrape twoPages fuel 0 = None)
  ∧ nextButton twoPages 1 = false.
Proof.
  apply (scrape_spec twoPages 0 0 [1] 1).
  - reflexivity.
  - repeat split; reflexivity.
  - reflexivity.
Defined.

(** On the two sample pages: the broken row of the first page is left out,
    the other rows come in page order. *)
Example scrape_twoPages :
  (λ r, (importe r, fechaPresentacion r)) <$> concat (pageRows twoPages <$> [0; 1])
  = [(Num (1250 # 100), js "2024-12-31"); (Num (123456 # 100), js "2025-02-01")].
Proof. vm_compute. reflexivity. Qed.

(** ** expandAllNodes *)

Section ExpandFacts.
Context {W B E : Type}.
Variable page : TreeWidget W B E.

(** The loop entered with [budget] iterations left, on a widget that shows
    controls for [n] rounds and then none, or for the whole budget. *)
Lemma expandLoop_run n : ∀ budget iterations w,
  (∀ k, k < n → expandButtons page (expandRounds page k w) ≠ []) →
  (n < budget ∧ expandButtons page (expandRounds page n w) = [] ∨ n = budget) →
  expandLoop page budget iterations w = (iterations + n, expandRounds page n w).
Proof.
  induction n as [|n IH]; intros budget iterations w Hsome Hend.
  - rewrite Nat.add_0_r. cbn [expandRounds] in *.
    destruct Hend as [[Hlt Hnone] | <-]; [|done].
    destruct budget as [|budget]; [lia|]. cbn [expandLoop]. by rewrite Hnone.
  - destruct budget as [|budget]; [lia|]. cbn [expandLoop expandRounds].
    pose proof (Hsome 0 ltac:(lia)) as H0. cbn [expandRounds] in H0.
    destruct (expandButtons page w) as [|b bs] eqn:Hb; [done|].
    rewrite IH.
    + f_equal. lia.
    + intros k Hk. apply (Hsome (S k)). lia.
    + cbn [expandRounds] in Hend. destruct Hend as [[? ?]|?]; [left | right];
        [split; [lia | done] | lia].
Qed.
End ExpandFacts.

(** C6, as the code has it. The loop always ends. On a widget whose controls
    run out after [n] rounds with [n] below the ceiling of 100 it ends after
    [n] iterations with no control to be found; on a widget that still shows
    a control in each of the first 100 rounds it ends after exactly 100
    iterations, and that is a normal return. *)
Theorem expandAllNodes_spec {W B E : Type} (page : TreeWidget W B E)
    (w : W) (n : nat) :
  (∀ k, k < n → expandButtons page (expandRounds page k w) ≠ []) →
  (n < maxIterations ∧ expandButtons page (expandRounds page n w) = []
   ∨ n = maxIterations) →
  expandAllNodes page w = (n, expandRounds page n w).
Proof.
  intros Hsome Hend. unfold expandAllNodes.
  by rewrite (expandLoop_run page n).
Qed.

Lemma expandAllNodes_spec_witness :
  expandAllNodes countdownWidget 3 = (3, expandRounds countdownWidget 3 3)
  ∧ expandAllNodes endlessWidget 0 = (100, expandRounds endlessWidget 100 0).
Proof.
  split.
  - apply (expandAllNodes_spec countdownWidget 3 3).
    + intros k Hk.
      assert (k = 0 ∨ k = 1 ∨ k = 2) as [-> | [-> | ->]] by lia; discriminate.
    + left. split; [unfold maxIterations; lia | reflexivity].
  - apply (expandAllNodes_spec endlessWidget 0 100).
    + intros k _. discriminate.
    + right. reflexivity.
Defined.

(** C6 as stated fails: a widget with 150 levels has finitely many, yet the
    loop stops at the ceiling of 100 iterations, not before, and a control is
    still to be found. *)
Lemma expandAllNodes_deep_widget :
  expandAllNodes countdownWidget 150 = (maxIterations, 50)
  ∧ expandButtons countdownWidget 50 ≠ []
  ∧ expandButtons countdownWidget (expandRounds countdownWidget 150 150) = [].
Proof. repeat split; vm_compute; congruence. Qed.

(** The iteration count never exceeds the ceiling. *)
Lemma expandLoop_bound {W B E : Type} (page : TreeWidget W B E) budget :
  ∀ iterations w,
    fst (expandLoop page budget iterations w) ≤ iterations + budget.
Proof.
  induction budget as [|budget IH]; intros iterations w; cbn [expandLoop].
  - simpl. lia.
  - destruct (expandButtons page w); [simpl; lia|].
    specialize (IH (S iterations) (expandRound page w)). lia.
Qed.

(** ** The tree readers *)

Lemma lastElement_elem {A} (arr : list A) x : lastElement arr = Some x → x ∈ arr.
Proof.
  unfold lastElement. destruct (length arr); [done|].
  intros H. by apply list_elem_of_lookup_2 in H.
Qed.

Lemma levelOf_app_l heap n r :
  r < length heap → levelOf (heap ++ [n]) r = levelOf heap r.
Proof. intros H. unfold levelOf. by rewrite lookup_app_l. Qed.

Lemma levelOf_app_new heap n : levelOf (heap ++ [n]) (length heap) = Some (level n).
Proof. unfold levelOf. by rewrite list_lookup_middle. Qed.

Lemma childrenOf_app_l heap n p :
  p < length heap → childrenOf (heap ++ [n]) p = childrenOf heap p.
Proof. intros H. unfold childrenOf. by rewrite lookup_app_l. Qed.

Lemma childrenOf_app_ge heap n p :
  children n = [] → length heap ≤ p → childrenOf (heap ++ [n]) p = [].
Proof.
  intros Hn H. unfold childrenOf. rewrite lookup_app_r by done.
  destruct (p - length heap) as [|i]; simpl; [done|]. by destruct i.
Qed.

Lemma levelOf_alter heap r j x :
  levelOf (alter (pushChild r) j heap) x = levelOf heap x.
Proof.
  unfold levelOf. rewrite list_lookup_alter. case_decide as H; [|done].
  subst x. by destruct (heap !! j).
Qed.

Lemma childrenOf_alter heap r j p :
  childrenOf (alter (pushChild r) j heap) p
  = if decide (j = p ∧ j < length heap) then childrenOf heap p ++ [r]
    else childrenOf heap p.
Proof.
  unfold childrenOf. rewrite list_lookup_alter.
  case_decide as Hj; [subst p|].
  - destruct (heap !! j) as [nj|] eqn:Hl.
    + apply lookup_lt_Some in Hl as Hlt. by rewrite decide_True.
    + apply lookup_ge_None in Hl. by rewrite decide_False by lia.
  - by rewrite decide_False by (intros [? _]; done).
Qed.

Module DepthWalkFacts.
Import DepthWalk.

Lemma walk_snoc st k : ∀ a,
  walk st (S k) a = walk st k a ≫= λ a', walk st 1 a'.
Proof.
  induction k as [|k IH]; intros a.
  - cbn [walk mbind option_bind].
    by destruct (lastElement (elements st a)).
  - change (walk st (S (S k)) a)
      with (match lastElement (elements st a) with
            | None => None
            | Some r => walk st (S k) (ChildrenOf r)
            end).
    change (walk st (S k) a)
      with (match lastElement (elements st a) with
            | None => None
            | Some r => walk st k (ChildrenOf r)
            end).
    destruct (lastElement (elements st a)) as [r|]; [|done]. apply IH.
Qed.

(** Where the walk from the roots arrives: after one step at a root, after
    [k] steps, [k] at least 2, at a node of level [k]. *)
Lemma walk_level b st k : ∀ j l,
  depthInv b st →
  walk st k RootArray = Some (ChildrenOf j) →
  levelOf (heap st) j = Some l →
  j < b ∧ (k = 1 ∧ l ≤ 1 ∨ 2 ≤ k ∧ l = k).
Proof.
  intros j l (Hb & Hroots & Hkids & Hrootlv & Hchildlv).
  revert j l. induction k as [|k IH]; intros j l Hwalk Hl; [done|].
  rewrite walk_snoc in Hwalk.
  destruct (walk st k RootArray) as [[|p]|] eqn:Hk; [| |done];
    cbn [mbind option_bind walk] in Hwalk;
    destruct (lastElement (elements st _)) as [j'|] eqn:Hlast; try done;
    injection Hwalk as ->; apply lastElement_elem in Hlast;
    cbn [elements] in Hlast.
  - split; [by apply Hroots|].
    destruct k as [|k].
    + left. split; [done|]. by apply (Hrootlv j).
    + rewrite walk_snoc in Hk. destruct (walk st k RootArray); [|done].
      cbn [mbind option_bind walk] in Hk.
      by destruct (lastElement (elements st _)).
  - split; [by apply (Hkids p)|].
    destruct (levelOf (heap st) p) as [lp|] eqn:Hlp.
    + destruct (IH p lp eq_refl Hlp) as [_ Hcase].
      destruct (Hchildlv p j lp l Hlast Hlp Hl) as [? ?]. lia.
    + unfold levelOf in Hlp. unfold childrenOf in Hlast.
      destruct (heap st !! p); [done|]. by apply elem_of_nil in Hlast.
Qed.

(** Allocation of a node without children keeps the invariant. *)
Lemma depthInv_alloc b st n :
  depthInv b st → b = length (heap st) → children n = [] →
  depthInv b {| heap := heap st ++ [n]; cpvData := cpvData st |}.
Proof.
  intros (Hb & Hroots & Hkids & Hrootlv & Hchildlv) -> Hn.
  assert (∀ p c, c ∈ childrenOf (heap st ++ [n]) p →
                 p < length (heap st) ∧ c ∈ childrenOf (heap st) p) as Hold.
  { intros p c Hc. destruct (decide (p < length (heap st))) as [Hp|Hp].
    - by rewrite childrenOf_app_l in Hc.
    - rewrite childrenOf_app_ge in Hc by (done || lia).
      by apply elem_of_nil in Hc. }
  unfold depthInv. cbn [heap cpvData]. rewrite length_app.
  split; [lia|]. split; [done|]. split; [|split].
  - intros p c Hc. apply Hold in Hc as [_ Hc]. by apply (Hkids p).
  - intros r l Hr Hl. rewrite levelOf_app_l in Hl by auto. eauto.
  - intros p c lp lc Hc Hlp Hlc. apply Hold in Hc as [Hp Hc].
    rewrite levelOf_app_l in Hlp by done.
    rewrite levelOf_app_l in Hlc by eauto. eauto.
Qed.

(** A node of level 0 or 1 may join the roots. *)
Lemma depthInv_push_root st r l :
  depthInv r st → r < length (heap st) →
  levelOf (heap st) r = Some l → l ≤ 1 →
  depthInv (S r) (push st RootArray r).
Proof.
  intros (Hb & Hroots & Hkids & Hrootlv & Hchildlv) Hr Hl Hle.
  unfold depthInv. cbn [push heap cpvData].
  split; [lia|]. split; [|split; [|split]].
  - intros x [Hx| ->%list_elem_of_singleton]%elem_of_app; [|lia].
    apply Hroots in Hx. lia.
  - intros p c Hc. apply Hkids in Hc. lia.
  - intros x lx [Hx| ->%list_elem_of_singleton]%elem_of_app Hlx; [eauto|].
    congruence.
  - done.
Qed.

(** A node of level [k + 1] may join the children of the node the walk of
    [k] steps arrives at. *)
Lemma depthInv_push_child st r k j :
  depthInv r st → r < length (heap st) →
  levelOf (heap st) r = Some (S k) →
  walk st k RootArray = Some (ChildrenOf j) →
  depthInv (S r) (push st (ChildrenOf j) r).
Proof.
  intros Hinv Hr Hl Hwalk.
  pose proof Hinv as (Hb & Hroots & Hkids & Hrootlv & Hchildlv).
  unfold depthInv. cbn [push heap cpvData]. rewrite length_alter.
  split; [lia|]. split; [|split; [|split]].
  - intros x Hx. apply Hroots in Hx. lia.
  - intros p c Hc. rewrite childrenOf_alter in Hc. case_decide.
    + apply elem_of_app in Hc as [Hc| ->%list_elem_of_singleton]; [|lia].
      apply Hkids in Hc. lia.
    + apply Hkids in Hc. lia.
  - intros x lx Hx Hlx. rewrite levelOf_alter in Hlx. eauto.
  - intros p c lp lc Hc Hlp Hlc. rewrite levelOf_alter in Hlp, Hlc.
    rewrite childrenOf_alter in Hc. case_decide as Hj; [|eauto].
    destruct Hj as [-> Hj].
    apply elem_of_app in Hc as [Hc| ->%list_elem_of_singleton]; [eauto|].
    assert (lc = S k) as -> by congruence.
    destruct (walk_level r st k p lp Hinv Hwalk Hlp) as [_ Hcase]. lia.
Qed.

(** One element more keeps the invariant. *)
Lemma depthInv_visit st node :
  depthInv (length (heap st)) st →
  depthInv (length (heap (visit st node))) (visit st node).
Proof.
  intros Hinv. unfold visit.
  destruct (labelText node) as [[|c t]|]; [done| |done].
  destruct (getNodeLevel node) as [lv|]; [|done].
  set (n := {| code := _; description := _; level := lv; children := [] |}).
  pose proof (depthInv_alloc _ st n Hinv eq_refl eq_refl) as Hinv1.
  set (st1 := {| heap := heap st ++ [n]; cpvData := cpvData st |}) in *.
  assert (length (heap st) < length (heap st1)) as Hlt
    by (subst st1; cbn [heap]; rewrite length_app; simpl; lia).
  assert (levelOf (heap st1) (length (heap st)) = Some lv) as Hlv
    by apply (levelOf_app_new (heap st) n).
  assert (length (heap st1) = S (length (heap st))) as Hlen
    by (subst st1; cbn [heap]; rewrite length_app; simpl; lia).
  destruct lv as [|k].
  - pose proof (depthInv_push_root st1 _ 0 Hinv1 Hlt Hlv ltac:(lia)) as H.
    by cbn [push heap] in *; rewrite Hlen.
  - replace (S k - 1) with k by lia.
    destruct (walk st1 k RootArray) as [[|j]|] eqn:Hwalk.
    + destruct k as [|k].
      * pose proof (depthInv_push_root st1 _ 1 Hinv1 Hlt Hlv ltac:(lia)) as H.
        by cbn [push heap] in *; rewrite Hlen.
      * rewrite walk_snoc in Hwalk. destruct (walk st1 k RootArray); [|done].
        cbn [mbind option_bind walk] in Hwalk.
        by destruct (lastElement (elements st1 _)).
    + pose proof (depthInv_push_child st1 _ k j Hinv1 Hlt Hlv Hwalk) as H.
      by cbn [push heap] in *; rewrite length_alter, Hlen.
    + destruct Hinv1 as (Hb & Hroots & Hkids & Hrootlv & Hchildlv).
      rewrite Hlen. unfold depthInv.
      split; [lia|]. split; [|split; [|split]]; try done.
      * intros r Hr. apply Hroots in Hr. lia.
      * intros p x Hx. apply Hkids in Hx. lia.
Qed.

Lemma depthInv_fold nodes : ∀ st,
  depthInv (length (heap st)) st →
  depthInv (length (heap (fold_left visit nodes st))) (fold_left visit nodes st).
Proof.
  induction nodes as [|node nodes IH]; intros st Hinv; [done|].
  cbn [fold_left]. by apply IH, depthInv_visit.
Qed.

Lemma depthInv_run nodes :
  depthInv (length (heap (run nodes))) (run nodes).
Proof.
  apply depthInv_fold. unfold depthInv, childrenOf. cbn [heap cpvData].
  split; [done|]. split; [by intros ? ?%elem_of_nil|].
  split; [by intros ? ? ?%elem_of_nil|].
  split; [by intros ? ? ?%elem_of_nil|]. by intros ? ? ? ? ?%elem_of_nil.
Qed.

(** Whatever the stream, a node found in the [children] of a parent is at
    level 2 or more, and its level is one greater than its parent's unless
    the parent is at level 0, in which case the child is at level 2. *)
Lemma child_levels_general nodes p c np nc :
  heap (run nodes) !! p = Some np →
  c ∈ children np →
  heap (run nodes) !! c = Some nc →
  2 ≤ level nc
  ∧ (level nc = level np + 1 ∨ (level np = 0 ∧ level nc = 2)).
Proof.
  intros Hp Hc Hnc.
  destruct (depthInv_run nodes) as (_ & _ & _ & _ & Hchildlv).
  apply (Hchildlv p c).
  - unfold childrenOf. by rewrite Hp.
  - unfold levelOf. by rewrite Hp.
  - unfold levelOf. by rewrite Hnc.
Qed.

(** What does hold whatever the stream: the level of a node found in the
    [children] of a parent at level 1 or more is exactly one greater than
    the level of that parent. *)
Lemma child_levels nodes p c np nc :
  heap (run nodes) !! p = Some np →
  c ∈ children np →
  heap (run nodes) !! c = Some nc →
  1 ≤ level np →
  level nc = level np + 1.
Proof.
  intros Hp Hc Hnc Hlevel.
  destruct (child_levels_general nodes p c np nc Hp Hc Hnc) as [_ [?|[? _]]];
    [done | lia].
Qed.

(** [visit] in terms of the node object it creates. *)
Lemma visit_by_depth st node :
  visit st node
  = match nodeOf node with
    | None => st
    | Some n =>
        let r := length (heap st) in
        let st1 := {| heap := heap st ++ [n]; cpvData := cpvData st |} in
        match level n with
        | O => push st1 RootArray r
        | S k =>
            match walk st1 k RootArray with
            | Some currentLevel => push st1 currentLevel r
            | None => st1
            end
        end
    end.
Proof.
  unfold visit, nodeOf. destruct (labelText node) as [[|c t]|]; [done| |done].
  destruct (getNodeLevel node) as [[|k]|]; cbn [level]; [done| |done].
  by rewrite Nat.sub_succ, Nat.sub_0_r.
Qed.

(** A walk of one step or more does not end at the root array. *)
Lemma walk_not_root st k : walk st (S k) RootArray ≠ Some RootArray.
Proof.
  rewrite walk_snoc. destruct (walk st k RootArray); [|done].
  cbn [mbind option_bind walk]. by destruct (lastElement (elements st _)).
Qed.

(** A node of level 0 or 1 is returned as a root, whatever came before. *)
Lemma shallow_node_is_root st node n :
  nodeOf node = Some n → level n ≤ 1 →
  cpvData (visit st node) = cpvData st ++ [length (heap st)].
Proof.
  intros Hn Hl. rewrite visit_by_depth, Hn. cbv zeta.
  destruct (level n) as [|[|k]]; [done|done|lia].
Qed.

(** A deeper node whose walk meets an empty array is left out: the roots and
    all the children arrays stay as they were. *)
Lemma orphan_dropped st node n k :
  nodeOf node = Some n → level n = S k →
  walk {| heap := heap st ++ [n]; cpvData := cpvData st |} k RootArray = None →
  visit st node = {| heap := heap st ++ [n]; cpvData := cpvData st |}.
Proof.
  intros Hn Hl Hwalk. rewrite visit_by_depth, Hn. cbv zeta. by rewrite Hl, Hwalk.
Qed.

(** Over a regular stream the stronger invariant is kept. *)
Lemma regularInv_visit prev st node n :
  regularInv prev st → nodeOf node = Some n →
  match prev with None => True | Some P => level n ≤ P + 1 end →
  regularInv (Some (level n)) (visit st node).
Proof.
  intros (Hinv & Hpairs & Hlast) Hn Hreg.
  pose proof (depthInv_visit st node Hinv) as Hinv'.
  split; [done|]. clear Hinv'.
  rewrite visit_by_depth, Hn. cbv zeta.
  pose proof (depthInv_alloc _ st n Hinv eq_refl) as Hinv1.
  assert (children n = []) as Hkids.
  { unfold nodeOf in Hn. destruct (labelText node) as [[|? ?]|]; try done.
    destruct (getNodeLevel node); [|done]. by injection Hn as <-. }
  specialize (Hinv1 Hkids).
  set (st1 := {| heap := heap st ++ [n]; cpvData := cpvData st |}) in *.
  pose proof Hinv as (_ & Hroots & Hkidsb & _ & _).
  assert (∀ p c, c ∈ childrenOf (heap st1) p →
                 p < length (heap st) ∧ c < length (heap st)
                 ∧ c ∈ childrenOf (heap st) p) as Hold.
  { intros p c Hc. cbn [heap st1] in Hc.
    destruct (decide (p < length (heap st))) as [Hp|Hp].
    - rewrite childrenOf_app_l in Hc by done. eauto.
    - rewrite childrenOf_app_ge in Hc by (done || lia).
      by apply elem_of_nil in Hc. }
  assert (∀ p c lp lc, c ∈ childrenOf (heap st1) p →
            levelOf (heap st1) p = Some lp → levelOf (heap st1) c = Some lc →
            lc = lp + 1) as Hpairs1.
  { intros p c lp lc Hc Hlp Hlc. apply Hold in Hc as (Hp & Hc' & Hc).
    cbn [heap st1] in Hlp, Hlc. rewrite levelOf_app_l in Hlp, Hlc by done.
    eauto. }
  assert (∀ r l, r ∈ cpvData st → levelOf (heap st1) r = Some l →
                 levelOf (heap st) r = Some l) as Hrootlv.
  { intros r l Hr Hl. cbn [heap st1] in Hl.
    by rewrite levelOf_app_l in Hl by auto. }
  assert (levelOf (heap st1) (length (heap st)) = Some (level n)) as Hnew
    by apply (levelOf_app_new (heap st) n).
  destruct (level n) as [|k] eqn:Hlevel.
  - (* a root at level 0 *)
    split; [done|]. intros ?. lia.
  - destruct (walk st1 k RootArray) as [[|j]|] eqn:Hwalk.
    + (* a root at level 1 *)
      destruct k as [|k]; [|by apply walk_not_root in Hwalk].
      split; [done|]. intros _ r l. cbn [push cpvData heap].
      unfold lastElement. rewrite length_app, Nat.add_1_r.
      rewrite list_lookup_middle by done. intros [= <-]. congruence.
    + (* a child of the node the walk arrives at *)
      assert (∀ r l, lastElement (cpvData st) = Some r →
                     levelOf (heap st) r = Some l → l = 1) as Hlast1.
      { destruct prev as [P|].
        - destruct k as [|k]; [done|].
          apply Hlast. lia.
        - rewrite Hlast. by intros ? ? [=]. }
      split.
      * intros p c lp lc Hc Hlp Hlc. cbn [push heap] in *.
        rewrite levelOf_alter in Hlp, Hlc. rewrite childrenOf_alter in Hc.
        case_decide as Hj; [|eauto]. destruct Hj as [-> Hj].
        apply elem_of_app in Hc as [Hc| ->%list_elem_of_singleton]; [eauto|].
        assert (lc = S k) as -> by congruence.
        destruct (walk_level _ st1 k p lp Hinv1 Hwalk Hlp) as [Hp [[-> Hle]|?]];
          [|lia].
        cbn [walk] in Hwalk.
        destruct (lastElement (elements st1 RootArray)) as [r|] eqn:Hr; [|done].
        injection Hwalk as ->. cbn [elements st1 cpvData] in Hr.
        rewrite (Hlast1 p lp Hr); [done|].
        apply Hrootlv; [by apply lastElement_elem | done].
      * intros _ r l Hr Hl. cbn [push cpvData heap] in *.
        rewrite levelOf_alter in Hl.
        apply (Hlast1 r l Hr). apply Hrootlv; [by apply lastElement_elem | done].
    + (* left out *)
      split; [done|]. intros _ r l Hr Hl. cbn [st1 cpvData] in Hr.
      assert (∀ r l, lastElement (cpvData st) = Some r →
                     levelOf (heap st) r = Some l → l = 1) as Hlast1.
      { destruct prev as [P|].
        - apply Hlast. destruct k; [|lia].
          (* a walk of no step cannot fail *) done.
        - rewrite Hlast. by intros ? ? [=]. }
      apply (Hlast1 r l Hr). apply Hrootlv; [by apply lastElement_elem | done].
Qed.

Lemma regularInv_fold nodes : ∀ prev st,
  regularInv prev st → regularLevels prev (streamLevels nodes) →
  ∃ prev', regularInv prev' (fold_left visit nodes st).
Proof.
  induction nodes as [|node nodes IH]; intros prev st Hinv Hreg; [by exists prev|].
  cbn [fold_left]. unfold streamLevels in Hreg. cbn [omap list_omap] in Hreg.
  destruct (nodeOf node) as [n|] eqn:Hn; cbn [fmap option_fmap option_map] in Hreg.
  - destruct Hreg as [Hstep Hreg].
    apply (IH (Some (level n))); [|done]. by apply (regularInv_visit prev).
  - apply (IH prev); [|done]. by rewrite visit_by_depth, Hn.
Qed.

(** On a regular stream, one in which no node is more than one level deeper
    than the node before it, the level of every child is exactly one greater
    than the level of its parent: the statement of C2 holds there as it is. *)
Lemma child_levels_regular nodes p c np nc :
  regularLevels None (streamLevels nodes) →
  heap (run nodes) !! p = Some np →
  c ∈ children np →
  heap (run nodes) !! c = Some nc →
  level nc = level np + 1.
Proof.
  intros Hreg Hp Hc Hnc.
  destruct (regularInv_fold nodes None {| heap := []; cpvData := [] |})
    as (prev & _ & Hpairs & _); [|done|].
  - split; [apply (depthInv_run [])|]. split; [|done].
    by intros ? ? ? ? ?%elem_of_nil.
  - apply (Hpairs p c).
    + unfold childrenOf. fold (run nodes). by rewrite Hp.
    + unfold levelOf. fold (run nodes). by rewrite Hp.
    + unfold levelOf. fold (run nodes). by rewrite Hnc.
Qed.

End DepthWalkFacts.

Lemma child_levels_witness :
  ∃ np nc,
    DepthWalk.heap (DepthWalk.run regularStream) !! 1 = Some np
    ∧ DepthWalk.heap (DepthWalk.run regularStream) !! 2 = Some nc
    ∧ level nc = level np + 1.
Proof.
  eexists _, _. split; [vm_compute; reflexivity|].
  split; [vm_compute; reflexivity|].
  apply (DepthWalkFacts.child_levels regularStream 1 2).
  - vm_compute. reflexivity.
  - apply list_elem_of_here.
  - vm_compute. reflexivity.
  - simpl. lia.
Defined.

(** C2. The walk goes [level - 1] steps down from the roots and never looks
    at the levels it passes, so it takes a node of level 0 and a node of
    level 1 alike for a root to descend from. On a node at level 0 followed
    by a node at level 2 the second becomes a child of the first, two levels
    above it, where the claim asks for one. The path-map reader returns the
    same node as a root. *)
Theorem child_levels_gap :
  streamLevels gapStream = [0; 2]
  ∧ DepthWalk.scrapeCPVTree gapStream
    = Some [TreeNode (js "03000000") (js "Agricultura") 0
              [TreeNode (js "03110000") (js "Cereales") 2 []]]
  ∧ (∃ p c np nc,
       DepthWalk.heap (DepthWalk.run gapStream) !! p = Some np
       ∧ c ∈ children np
       ∧ DepthWalk.heap (DepthWalk.run gapStream) !! c = Some nc
       ∧ level nc ≠ level np + 1)
  ∧ PathMap.scrapeCPVTree gapStream
    = Some [TreeNode (js "03000000") (js "Agricultura") 0 [];
            TreeNode (js "03110000") (js "Cereales") 2 []].
Proof.
  split; [vm_compute; reflexivity|].
  split; [vm_compute; reflexivity|].
  split; [|vm_compute; reflexivity].
  exists 0, 1. eexists _, _.
  split; [vm_compute; reflexivity|].
  split; [apply list_elem_of_here|].
  split; [vm_compute; reflexivity|]. simpl. lia.
Qed.

(** On the regular stream the tree is the expected one, but for the node at
    level 1, which is a root. *)
Example scrapeCPVTree_regular :
  DepthWalk.scrapeCPVTree regularStream
  = Some [TreeNode (js "03000000") (js "Agricultura") 0 [];
          TreeNode (js "03100000") (js "Horticultura") 1
            [TreeNode (js "03110000") (js "Cereales") 2 []]].
Proof. vm_compute. reflexivity. Qed.

(** C1. A single element at level 2 has no ancestor to hang from. The
    path-map reader returns it as a root; the depth walk reads [children] of
    undefined, the TypeError is caught, and the node is missing from the
    result. *)
Theorem orphan_dropped_by_depth_walk :
  nodeOf orphanElement
    = Some {| code := js "45000000"; description := js "Obras"; level := 2;
              children := [] |}
  ∧ DepthWalk.walk {| DepthWalk.heap := []; DepthWalk.cpvData := [] |} 1
      DepthWalk.RootArray = None
  ∧ DepthWalk.scrapeCPVTree orphanStream = Some []
  ∧ PathMap.scrapeCPVTree orphanStream
    = Some [TreeNode (js "45000000") (js "Obras") 2 []].
Proof. repeat split; vm_compute; reflexivity. Qed.

Module PathMapFacts.
Import PathMap.

(** [visit] in terms of the node object it creates. *)
Lemma visit_by_path st node :
  visit st node
  = match nodeOf node with
    | None => st
    | Some n =>
        let r := length (heap st) in
        let nodeMap1 := <[pathOf node := r]> (nodeMap st) in
        match nodeMap1 !! parentPathOf (pathOf node) with
        | Some parent =>
            {| heap := alter (pushChild r) parent (heap st ++ [n]);
               nodeMap := nodeMap1; rootNodes := rootNodes st |}
        | None =>
            {| heap := heap st ++ [n]; nodeMap := nodeMap1;
               rootNodes := rootNodes st ++ [r] |}
        end
    end.
Proof.
  unfold visit, nodeOf. destruct (labelText node) as [[|c t]|]; [done| |done].
  by destruct (getNodeLevel node).
Qed.

(** The roots only grow. *)
Lemma rootNodes_visit st node r :
  r ∈ rootNodes st → r ∈ rootNodes (visit st node).
Proof.
  intros Hr. rewrite visit_by_path. destruct (nodeOf node); [|done].
  cbv zeta. destruct (<[_:=_]> _ !! _); cbn [rootNodes]; [done|].
  apply elem_of_app. by left.
Qed.

Lemma rootNodes_fold nodes : ∀ st r,
  r ∈ rootNodes st → r ∈ rootNodes (fold_left visit nodes st).
Proof.
  induction nodes as [|node nodes IH]; intros st r Hr; [done|].
  cbn [fold_left]. by apply IH, rootNodes_visit.
Qed.

(** A node keeps its code, description and level: later visits only add
    to its children. *)
Lemma heap_visit st node r n :
  heap st !! r = Some n →
  ∃ n', heap (visit st node) !! r = Some n' ∧ sameData n n'.
Proof.
  intros Hr. rewrite visit_by_path. destruct (nodeOf node) as [m|]; [|by exists n].
  cbv zeta. destruct (<[_:=_]> _ !! _) as [parent|]; cbn [heap].
  - rewrite list_lookup_alter. case_decide as Hp.
    + subst parent. rewrite lookup_app_l by (by eapply lookup_lt_Some).
      rewrite Hr. by exists (pushChild (length (heap st)) n).
    + rewrite lookup_app_l by (by eapply lookup_lt_Some). by exists n.
  - rewrite lookup_app_l by (by eapply lookup_lt_Some). by exists n.
Qed.

Lemma heap_fold nodes : ∀ st r n,
  heap st !! r = Some n →
  ∃ n', heap (fold_left visit nodes st) !! r = Some n' ∧ sameData n n'.
Proof.
  induction nodes as [|node nodes IH]; intros st r n Hr; [by exists n|].
  cbn [fold_left]. destruct (heap_visit st node r n Hr) as (n1 & H1 & Hs1).
  destruct (IH _ r n1 H1) as (n2 & H2 & Hs2). exists n2. split; [done|].
  unfold sameData in *. intuition congruence.
Qed.

(** The path-map reader promotes orphans: an element that yields a node
    and whose parent path is not in the map when it is visited is among the
    returned roots, with its code, description and level. *)
Theorem orphan_promoted before node after n :
  nodeOf node = Some n →
  <[pathOf node := length (heap (run before))]> (nodeMap (run before))
    !! parentPathOf (pathOf node) = None →
  length (heap (run before)) ∈ rootNodes (run (before ++ node :: after))
  ∧ ∃ n', heap (run (before ++ node :: after)) !! length (heap (run before))
          = Some n'
        ∧ sameData n n'.
Proof.
  intros Hn Hparent. unfold run. rewrite fold_left_app. cbn [fold_left].
  fold (run before).
  assert (visit (run before) node
          = {| heap := heap (run before) ++ [n];
               nodeMap := <[pathOf node := length (heap (run before))]>
                            (nodeMap (run before));
               rootNodes := rootNodes (run before)
                            ++ [length (heap (run before))] |}) as ->.
  { rewrite visit_by_path, Hn. cbv zeta. by rewrite Hparent. }
  split.
  - apply rootNodes_fold. cbn [rootNodes]. apply elem_of_app. right.
    apply list_elem_of_here.
  - apply heap_fold. cbn [heap]. apply list_lookup_middle. done.
Qed.

End PathMapFacts.

(** * Further properties *)

(** ** retryOperation, whatever the operation does *)

Section RetryAlways.
Context {W E A : Type}.
Variable operation : W → completion E A * W.
Variable sleep : nat → W → W.
Variable maxAttempts : nat.

Lemma retryLoop_S remaining a lastError w trace :
  retryLoop operation sleep maxAttempts (S remaining) a lastError w trace
  = match operation w with
    | (Returned v, w') => (Returned v, w', trace ++ [Invoked])
    | (Thrown error, w') =>
        if a =? maxAttempts then (Thrown (Some error), w', trace ++ [Invoked])
        else retryLoop operation sleep maxAttempts remaining (S a) (Some error)
               (sleep (a * 1000) w') ((trace ++ [Invoked]) ++ [Waited (a * 1000)])
    end.
Proof. cbn [retryLoop]. by destruct (operation w) as [[|] ?]. Qed.

(** From attempt [a] on, the loop makes the calls of the attempts [a], ...,
    [a + n] for some [n], stops there with a value or, only at the last
    attempt allowed, with the error of that attempt. *)
Lemma retryLoop_shape remaining : ∀ a lastError w trace,
  a + remaining = maxAttempts →
  ∃ n c w',
    a + n ≤ maxAttempts
    ∧ retryLoop operation sleep maxAttempts (S remaining) a lastError w trace
      = (c, w', trace ++ traceFrom a n)
    ∧ match c with
      | Returned _ => True
      | Thrown None => False
      | Thrown (Some _) => a + n = maxAttempts
      end.
Proof.
  induction remaining as [|remaining IH]; intros a lastError w trace Ha;
    rewrite retryLoop_S; destruct (operation w) as [[v|e] w1].
  - exists 0, (Returned v), w1. split; [lia|]. by split.
  - replace (a =? maxAttempts) with true by (symmetry; apply Nat.eqb_eq; lia).
    exists 0, (Thrown (Some e)), w1. split; [lia|]. split; [done|lia].
  - exists 0, (Returned v), w1. split; [lia|]. by split.
  - replace (a =? maxAttempts) with false by (symmetry; apply Nat.eqb_neq; lia).
    destruct (IH (S a) (Some e) (sleep (a * 1000) w1)
                ((trace ++ [Invoked]) ++ [Waited (a * 1000)]) ltac:(lia))
      as (n & c & w' & Hn & Heq & Hc).
    exists (S n), c, w'. split; [lia|]. split.
    + rewrite Heq. cbn [traceFrom]. by rewrite <- !app_assoc.
    + destruct c as [|[|]]; [done| |done]. lia.
Qed.
End RetryAlways.

Lemma sum_waits_traceFrom a n :
  sum_list (waits (traceFrom a n)) * 2 + 1000 * n = 1000 * n * (2 * a + n).
Proof.
  revert a. induction n as [|n IH]; intros a; [done|].
  unfold waits in *. cbn [traceFrom omap list_omap sum_list sum_list_with].
  specialize (IH (S a)).
  remember (sum_list _) as x eqn:Hx. clear Hx. unfold id. nia.
Qed.

(** The calls made and the way the loop ends, whatever the operation
    does. *)
Lemma retryOperation_backoff {W E A : Type}
    (operation : W → completion E A * W) (sleep : nat → W → W)
    (maxAttempts : nat) (w : W) :
  ∃ k c w',
    retryOperation operation sleep maxAttempts w = (c, w', backoffTrace k)
    ∧ k ≤ maxAttempts
    ∧ match c with
      | Returned _ => 1 ≤ k
      | Thrown None => maxAttempts = 0 ∧ w' = w
      | Thrown (Some _) => k = maxAttempts ∧ 1 ≤ maxAttempts
      end.
Proof.
  unfold retryOperation. destruct maxAttempts as [|m].
  - exists 0, (Thrown None), w. repeat split; done.
  - destruct (retryLoop_shape operation sleep (S m) m 1 None w [] ltac:(lia))
      as (n & c & w' & Hn & Heq & Hc).
    exists (S n), c, w'. split; [by rewrite Heq|]. split; [lia|].
    destruct c as [|[|]]; [lia| |done]. lia.
Qed.

(** X1. Whatever the operation does, a call makes some number [k] of calls
    of it, at most [maxAttempts], with the wait of [i] seconds after call [i]
    for every call but the last, and nothing else; it throws only when all
    [maxAttempts] calls were made, the thrown value being undefined exactly
    when [maxAttempts] is 0, in which case the operation is not called. *)
Theorem retryOperation_always {W E A : Type}
    (operation : W → completion E A * W) (sleep : nat → W → W)
    (maxAttempts : nat) (w : W) :
  ∃ k c w',
    retryOperation operation sleep maxAttempts w = (c, w', backoffTrace k)
    ∧ k ≤ maxAttempts
    ∧ invocations (backoffTrace k) = k
    ∧ waits (backoffTrace k) = (λ i, i * 1000) <$> seq 1 (k - 1)
    ∧ match c with
      | Returned _ => 1 ≤ k
      | Thrown None => maxAttempts = 0 ∧ w' = w
      | Thrown (Some _) => k = maxAttempts ∧ 1 ≤ maxAttempts
      end.
Proof.
  destruct (retryOperation_backoff operation sleep maxAttempts w)
    as (k & c & w' & Heq & Hk & Hc).
  exists k, c, w'. split; [done|]. split; [done|].
  split; [apply backoffTrace_shape|]. split; [apply backoffTrace_shape|done].
Qed.

(** X2. The time spent waiting is [500 * k * (k - 1)] ms after [k] calls, so
    never more than [500 * maxAttempts * (maxAttempts - 1)] ms: 3 seconds
    with the 3 attempts [scrape] asks for. *)
Theorem retryOperation_total_wait {W E A : Type}
    (operation : W → completion E A * W) (sleep : nat → W → W)
    (maxAttempts : nat) (w : W) :
  let trace := snd (retryOperation operation sleep maxAttempts w) in
  sum_list (waits trace) = 500 * invocations trace * (invocations trace - 1)
  ∧ sum_list (waits trace) ≤ 500 * maxAttempts * (maxAttempts - 1).
Proof.
  destruct (retryOperation_backoff operation sleep maxAttempts w)
    as (k & c & w' & Heq & Hk & _).
  destruct (backoffTrace_shape k) as [Hinv _].
  cbv zeta. rewrite Heq. cbn [snd]. rewrite Hinv.
  assert (sum_list (waits (backoffTrace k)) = 500 * k * (k - 1)) as ->.
  { destruct k as [|n]; [done|]. cbn [backoffTrace].
    pose proof (sum_waits_traceFrom 1 n). rewrite Nat.sub_succ, Nat.sub_0_r.
    nia. }
  split; [done|]. nia.
Qed.

(** ** scrape: failures and the endless listing *)

(** X3. When the navigation throws on each of its three attempts, [scrape]
    throws the error of the third attempt, whatever the rest of the portal
    would do: no page is read and nothing is written. *)
Theorem scrape_navigation_fails {W E : Type} (page : Page W E) (w : W)
    (fuel : nat) :
  (∀ k, 1 ≤ k ≤ 3 →
     ∃ e, fst (goto page (attemptWorld (goto page) (setTimeout page) k w))
          = Thrown e) →
  ∃ e,
    fst (goto page (attemptWorld (goto page) (setTimeout page) 3 w)) = Thrown e
    ∧ scrape page fuel w
      = Some (Thrown (Some e),
              snd (goto page (attemptWorld (goto page) (setTimeout page) 3 w))).
Proof.
  intros Hfail. destruct (Hfail 3 ltac:(lia)) as [e He]. exists e.
  split; [done|]. unfold scrape, openListing.
  rewrite (retryOperation_run (goto page) (setTimeout page) 3 3 w);
    [| lia | intros; apply Hfail; lia | by right].
  by rewrite He.
Qed.

Lemma scrape_navigation_fails_witness :
  ∃ e,
    fst (goto unreachablePages
           (attemptWorld (goto unreachablePages) (setTimeout unreachablePages) 3 0))
      = Thrown e
    ∧ scrape unreachablePages 5 0
      = Some (Thrown (Some e),
              snd (goto unreachablePages
                     (attemptWorld (goto unreachablePages)
                        (setTimeout unreachablePages) 3 0))).
Proof.
  apply (scrape_navigation_fails unreachablePages 0 5).
  intros k Hk. eexists. reflexivity.
Defined.

(** X4. There is no page limit: on a listing whose every page shows the
    next-page control and answers the click, [scrape] is still running after
    any number of iterations. *)
Theorem scrape_never_returns {W E : Type} (page : Page W E) (w w0 : W) :
  openListing page w = (Returned (), w0) →
  (∀ v, nextButton page v = true) →
  (∀ v, ∃ v', clickNext page v = (Returned (), v')) →
  ∀ fuel, scrape page fuel w = None.
Proof.
  intros Hopen Hnext Hclick fuel. unfold scrape.
  by rewrite Hopen, scrapeLoop_endless.
Qed.

Lemma scrape_never_returns_witness : scrape endlessPages 1000 0 = None.
Proof.
  apply (scrape_never_returns endlessPages 0 0).
  - reflexivity.
  - reflexivity.
  - intros v. exists (S v). reflexivity.
Defined.

(** Over a sequence of pages that ends with a failing click the loop throws
    when it gets there. *)
Lemma scrapeLoop_brokenSequence {W E : Type} (page : Page W E) e wfail rest :
  ∀ w0 fuel allResults,
    brokenSequence page (w0 :: rest) e wfail →
    S (length rest) ≤ fuel →
    scrapeLoop page fuel allResults w0 = Some (Thrown (Some e), wfail).
Proof.
  induction rest as [|w1 rest IH]; intros w0 fuel allResults Hseq Hfuel;
    (destruct fuel as [|fuel]; [simpl in Hfuel; lia|]); cbn [scrapeLoop].
  - destruct Hseq as [-> ->]. done.
  - destruct Hseq as (-> & -> & Hseq). apply IH; [done|]. simpl in *. lia.
Qed.

(** X5. When the click on the next-page control throws on some page,
    [scrape] throws that error: the rows read from the pages before are not
    returned and the file is not written. *)
Theorem scrape_click_fails {W E : Type} (page : Page W E) (w w0 : W)
    (rest : list W) (e : E) (wfail : W) (fuel : nat) :
  openListing page w = (Returned (), w0) →
  brokenSequence page (w0 :: rest) e wfail →
  S (length rest) ≤ fuel →
  scrape page fuel w = Some (Thrown (Some e), wfail).
Proof.
  intros Hopen Hseq Hfuel. unfold scrape.
  by rewrite Hopen, (scrapeLoop_brokenSequence page e wfail rest).
Qed.

Lemma scrape_click_fails_witness :
  scrape failingPages 2 0 = Some (Thrown (Some ()), 1).
Proof.
  apply (scrape_click_fails failingPages 0 0 [1] () 1 2).
  - reflexivity.
  - repeat split; reflexivity.
  - simpl. lia.
Defined.

(** ** scrapeTable *)

Lemma extractRowData_hasEvalCells row :
  hasEvalCells row = true ↔ ∃ result, extractRowData row = Returned result.
Proof.
  unfold hasEvalCells, extractRowData, extractExpediente, extractTipoContrato,
    extractOrganoContratacion.
  destruct (tdExpediente row); cbn [evalCell bind];
    [|split; [done | by intros [? ?]]].
  destruct (tdTipoContrato row); cbn [evalCell bind];
    [|split; [done | by intros [? ?]]].
  destruct (tdOrganoContratacion row); cbn [evalCell bind];
    [|split; [done | by intros [? ?]]].
  split; [eauto | done].
Qed.

(** X6. [scrapeTable] returns one record for each row that has the three
    cells read with [$eval], in the order of the rows, and behaves as if the
    other rows were not in the table. *)
Theorem scrapeTable_skips_broken_rows rows :
  length (scrapeTable rows) = length (filter (λ row, hasEvalCells row = true) rows)
  ∧ scrapeTable rows = scrapeTable (filter (λ row, hasEvalCells row = true) rows)
  ∧ length (scrapeTable rows) ≤ length rows.
Proof.
  rewrite !scrapeTable_extractedRows. unfold extractedRows.
  induction rows as [|row rows (IH1 & IH2 & IH3)]; [done|].
  rewrite filter_cons. cbn [omap list_omap].
  destruct (extractRowData row) as [result|err] eqn:Hrow.
  - rewrite decide_True by (apply extractRowData_hasEvalCells; eauto).
    cbn [omap list_omap length]. rewrite Hrow. cbn [length].
    split; [by rewrite IH1|]. split; [by rewrite <- IH2 | lia].
  - rewrite decide_False.
    + split; [done|]. split; [done|]. cbn [length]. lia.
    + intros [? ?]%extractRowData_hasEvalCells. congruence.
Qed.

(** ** trim *)

Lemma trimStart_head s c s' : trimStart s = c :: s' → isTrimmed c = false.
Proof.
  induction s as [|x s IH]; cbn [trimStart]; [done|].
  destruct (isTrimmed x) eqn:Hx; [done|]. by intros [= <- _].
Qed.

Lemma trimStart_fixed s :
  (∀ c s', s = c :: s' → isTrimmed c = false) → trimStart s = s.
Proof.
  destruct s as [|c s]; [done|]. intros H. cbn [trimStart].
  by rewrite (H c s).
Qed.

Lemma trimStart_idem s : trimStart (trimStart s) = trimStart s.
Proof. apply trimStart_fixed. intros c s'. apply trimStart_head. Qed.

Lemma trimStart_snoc l c :
  isTrimmed c = false → trimStart (l ++ [c]) = trimStart l ++ [c].
Proof.
  intros Hc. induction l as [|x l IH]; cbn [trimStart app].
  - by rewrite Hc.
  - by destruct (isTrimmed x).
Qed.

Lemma trimEnd_cons c l :
  isTrimmed c = false → trimEnd (c :: l) = c :: trimEnd l.
Proof.
  intros Hc. unfold trimEnd. cbn [rev].
  by rewrite trimStart_snoc, rev_app_distr.
Qed.

Lemma trimEnd_idem s : trimEnd (trimEnd s) = trimEnd s.
Proof. unfold trimEnd. by rewrite rev_involutive, trimStart_idem. Qed.

(** [trim] is the identity on its own results. *)
Lemma trim_idem s : trim (trim s) = trim s.
Proof.
  unfold trim. destruct (trimStart s) as [|c t] eqn:Ht; [done|].
  apply trimStart_head in Ht.
  rewrite (trimEnd_cons c t Ht). cbn [trimStart]. rewrite Ht.
  by rewrite (trimEnd_cons c _ Ht), trimEnd_idem.
Qed.

Lemma trimStart_decompose s :
  ∃ a, s = a ++ trimStart s ∧ Forall (λ c, isTrimmed c = true) a.
Proof.
  induction s as [|x s (a & Ha & Hws)]; [by exists []|]. cbn [trimStart].
  destruct (isTrimmed x) eqn:Hx.
  - exists (x :: a). split; [by rewrite Ha at 1 | by constructor].
  - by exists [].
Qed.

Lemma trimEnd_decompose s :
  ∃ b, s = trimEnd s ++ b ∧ Forall (λ c, isTrimmed c = true) b.
Proof.
  destruct (trimStart_decompose (rev s)) as (a & Ha & Hws).
  exists (rev a). split.
  - unfold trimEnd. rewrite <- rev_app_distr, <- Ha. by rewrite rev_involutive.
  - by apply Forall_rev.
Qed.

(** [trim] only takes white space away, at the two ends. *)
Lemma trim_decompose s :
  ∃ a b, s = a ++ trim s ++ b
         ∧ Forall (λ c, isTrimmed c = true) a
         ∧ Forall (λ c, isTrimmed c = true) b.
Proof.
  destruct (trimStart_decompose s) as (a & Ha & Hwa).
  destruct (trimEnd_decompose (trimStart s)) as (b & Hb & Hwb).
  exists a, b. unfold trim. split; [|done]. by rewrite <- Hb.
Qed.

Lemma trim_no_space s :
  Forall (λ c, isTrimmed c = false) s → trim s = s.
Proof.
  intros Hs. unfold trim. rewrite trimStart_fixed.
  - unfold trimEnd. rewrite trimStart_fixed; [apply rev_involutive|].
    intros c s' Hrev. apply (proj1 (list.Forall_forall _ _) Hs).
    apply list_elem_of_In, in_rev. rewrite Hrev. by left.
  - intros c s' ->. by apply list.Forall_cons in Hs as [? _].
Qed.

Lemma isDigit_not_space c : isDigit c = true → isTrimmed c = false.
Proof.
  unfold isDigit. intros [H1%N.leb_le H2%N.leb_le]%andb_true_iff.
  unfold isTrimmed, isWhiteSpace, isLineTerminator.
  repeat match goal with
         | |- context [(c =? ?k)%N] => destruct (N.eqb_spec c k); [lia|]
         end.
  destruct (N.leb_spec 8192 c); [lia|]. done.
Qed.

Lemma decimalDigits_digits fuel : ∀ n,
  Forall (λ c, isDigit c = true) (decimalDigits fuel n).
Proof.
  induction fuel as [|fuel IH]; intros n; cbn [decimalDigits]; [done|].
  destruct (N.ltb_spec n 10).
  - constructor; [|done]. by apply (isDigit_digitChar n).
  - apply Forall_app. split; [apply IH|]. constructor; [|done].
    apply (isDigit_digitChar (n mod 10)). by apply N.mod_lt.
Qed.

Lemma addLeadingZeros_digits n len :
  Forall (λ c, isDigit c = true) (addLeadingZeros n len).
Proof.
  unfold addLeadingZeros. apply Forall_app. split.
  - apply Forall_replicate. done.
  - apply decimalDigits_digits.
Qed.

Lemma orElse_trimmed (x : option jsstring) :
  trim (orElse (trim <$> x) []) = orElse (trim <$> x) [].
Proof.
  destruct x as [t|]; cbn [fmap option_fmap option_map orElse]; [|done].
  destruct (trim t) as [|c u] eqn:Ht; [done|]. rewrite <- Ht. apply trim_idem.
Qed.

Lemma extractText_trimmed element : trim (extractText element) = extractText element.
Proof. destruct element; [apply trim_idem | done]. Qed.

Lemma extractFecha_trimmed tz row :
  trim (extractFecha tz row) = extractFecha tz row.
Proof.
  unfold extractFecha. destruct (parse _); cbn [format].
  - apply extractText_trimmed.
  - apply trim_no_space. apply list.Forall_forall. intros c Hc.
    assert (isDigit c = true ∨ c = 45%N) as [Hd| ->];
      [|by apply isDigit_not_space|done].
    pose proof (proj1 (list.Forall_forall _ _) (addLeadingZeros_digits year 4)).
    pose proof (proj1 (list.Forall_forall _ _) (addLeadingZeros_digits month 2)).
    pose proof (proj1 (list.Forall_forall _ _) (addLeadingZeros_digits day 2)).
    rewrite !elem_of_app, !list_elem_of_singleton in Hc.
    destruct Hc as [?|[?|[?|[?|?]]]]; auto.
Qed.

(** X7. Every text of a returned record is free of white space at its two
    ends: the number and description of the file, the type and subtype, the
    state, the date and the name of the contracting body. *)
Theorem extractRowData_texts_trimmed row r :
  extractRowData row = Returned r →
  Forall (λ s, trim s = s)
    [numero (expediente r); descripcion (expediente r);
     tipo (tipoContrato r); subtipo (tipoContrato r); estado r;
     fechaPresentacion r; nombre (organoContratacion r)].
Proof.
  unfold extractRowData, extractExpediente, extractTipoContrato,
    extractOrganoContratacion.
  destruct (tdExpediente row) as [ce|]; cbn [evalCell bind]; [|done].
  destruct (tdTipoContrato row) as [ct|]; cbn [evalCell bind]; [|done].
  destruct (tdOrganoContratacion row) as [co|]; cbn [evalCell bind]; [|done].
  intros [= <-]. cbn.
  repeat constructor;
    auto using orElse_trimmed, extractText_trimmed, extractFecha_trimmed, trim_idem.
Qed.

Lemma extractRowData_texts_trimmed_witness :
  ∃ r, extractRowData paddedRow = Returned r
       ∧ Forall (λ s, trim s = s)
           [numero (expediente r); descripcion (expediente r);
            tipo (tipoContrato r); subtipo (tipoContrato r); estado r;
            fechaPresentacion r; nombre (organoContratacion r)].
Proof.
  eexists. split; [reflexivity|].
  apply (extractRowData_texts_trimmed paddedRow). reflexivity.
Defined.

(** ** Amounts, further *)

Lemma removeAll_app cls a b :
  removeAll cls (a ++ b) = removeAll cls a ++ removeAll cls b.
Proof. unfold removeAll. apply list.filter_app. Qed.

Lemma removeAll_all cls a :
  Forall (λ c, cls c = true) a → removeAll cls a = [].
Proof.
  intros Ha. unfold removeAll. induction Ha as [|c a Hc _ IH]; [done|].
  rewrite filter_cons, decide_False by congruence. done.
Qed.

Lemma space_nonDigitComma c : isTrimmed c = true → nonDigitComma c = true.
Proof.
  intros Hc. unfold nonDigitComma. apply negb_true_iff, orb_false_iff. split.
  - destruct (isDigit c) eqn:Hd; [|done].
    apply isDigit_not_space in Hd. congruence.
  - apply N.eqb_neq. intros ->. done.
Qed.

(** The trimming before the stripping changes nothing. *)
Lemma strippedImporte_raw row :
  strippedImporte row = removeAll nonDigitComma (rawImporte row).
Proof.
  unfold strippedImporte, rawImporte, extractText.
  destruct (tdImporte row) as [t|]; [|done].
  change (default [] (Some t)) with t.
  destruct (trim_decompose t) as (a & b & Ht & Ha & Hb).
  rewrite (f_equal (removeAll nonDigitComma) Ht), !removeAll_app.
  rewrite (removeAll_all _ a), (removeAll_all _ b), app_nil_r; [done| |].
  - eapply Forall_impl; [|exact Hb]. apply space_nonDigitComma.
  - eapply Forall_impl; [|exact Ha]. apply space_nonDigitComma.
Qed.

(** X8. The amount depends on nothing but the digits and commas of the cell
    text, in their order: currency names, signs, dots and spaces, wherever
    they stand, make no difference. *)
Theorem extractImporte_only_digits_and_commas row1 row2 :
  removeAll nonDigitComma (rawImporte row1)
    = removeAll nonDigitComma (rawImporte row2) →
  extractImporte row1 = extractImporte row2.
Proof.
  intros H. unfold extractImporte.
  fold (strippedImporte row1). fold (strippedImporte row2).
  by rewrite !strippedImporte_raw, H.
Qed.

Lemma extractImporte_only_digits_and_commas_witness :
  extractImporte (sampleRow (js "1.234,56 EUR") [])
  = extractImporte (sampleRow (js "-EUR 12 34,5.6") []).
Proof.
  apply extractImporte_only_digits_and_commas. reflexivity.
Defined.

Lemma replaceFirst_absent a : 44%N ∉ a → replaceFirst 44 46 a = a.
Proof.
  induction a as [|c a IH]; [done|]. intros [Hc Ha]%not_elem_of_cons.
  cbn [replaceFirst]. destruct (N.eqb_spec c 44); [done|]. by rewrite IH.
Qed.

Lemma digits_no_comma a : Forall (λ c, isDigit c = true) a → 44%N ∉ a.
Proof.
  intros Ha Hin. by apply (proj1 (list.Forall_forall _ _) Ha) in Hin.
Qed.

(** X9. When the stripped text is digits, one comma, digits, with a digit
    somewhere and 15 digits at most, the amount is the number written by
    the digits with those after the comma as decimals: the number written
    by all the digits divided by ten to the number of digits after the
    comma. (Up to 15 digits the decimal names one double; beyond, the
    program holds the double nearest to it.) *)
Theorem extractImporte_decimal row a b :
  strippedImporte row = a ++ 44%N :: b →
  Forall (λ c, isDigit c = true) a → Forall (λ c, isDigit c = true) b →
  a ++ b ≠ [] → length (a ++ b) ≤ 15 →
  extractImporte row
  = Num (Z.of_N (digitsValue (a ++ b)) # Z.to_pos (10 ^ Z.of_nat (length b))).
Proof.
  intros Hs Ha Hb Hne _. unfold extractImporte. fold (strippedImporte row).
  rewrite Hs, replaceFirst_app by (by apply digits_no_comma).
  assert (a ++ 46%N :: b ≠ []) as Hne' by (by destruct a).
  destruct (a ++ 46%N :: b) as [|x l] eqn:Hl; [done|]. rewrite <- Hl.
  unfold parseFloat.
  rewrite (span_digits_app a) by (done || by intros ? ? [= <- _]).
  rewrite (span_digits_all b Hb). cbn [fst].
  by destruct (a ++ b).
Qed.

Lemma extractImporte_decimal_witness :
  extractImporte (sampleRow (js "1.234,56 EUR") [])
  = Num (Z.of_N (digitsValue (js "1234" ++ js "56"))
         # Z.to_pos (10 ^ Z.of_nat (length (js "56")))).
Proof.
  apply (extractImporte_decimal _ (js "1234") (js "56")).
  - reflexivity.
  - by_computation.
  - by_computation.
  - discriminate.
  - simpl. lia.
Defined.

(** X10. When the stripped text is digits only and the number they write
    is at most 2^53, the amount is that whole number: a dot used as
    thousands or as decimal separator is lost, so "1.234" and "12.50" read
    as 1234 and 1250. (Above 2^53 the program holds the double nearest to
    the number written.) *)
Theorem extractImporte_whole row a :
  strippedImporte row = a → Forall (λ c, isDigit c = true) a → a ≠ [] →
  (digitsValue a ≤ 2 ^ 53)%N →
  extractImporte row = Num (Z.of_N (digitsValue a) # 1).
Proof.
  intros Hs Ha Hne _. unfold extractImporte. fold (strippedImporte row).
  rewrite Hs, replaceFirst_absent by (by apply digits_no_comma).
  destruct a as [|x l] eqn:Hl; [done|]. rewrite <- Hl in *.
  unfold parseFloat. rewrite (span_digits_all a Ha). rewrite app_nil_r.
  by destruct a.
Qed.

Lemma extractImporte_whole_witness :
  extractImporte (sampleRow (js "12.50 EUR") []) = Num (Z.of_N (digitsValue (js "1250")) # 1).
Proof.
  apply (extractImporte_whole _ (js "1250")).
  - reflexivity.
  - by_computation.
  - discriminate.
  - by_computation.
Defined.

(** X11. Every amount is NaN or a number that is not negative, NaN exactly
    when the stripped text starts with a comma that no digit follows. *)
Theorem extractImporte_range row :
  (extractImporte row = NaN
   ∧ ∃ r, strippedImporte row = 44%N :: r
          ∧ ∀ c r', r = c :: r' → isDigit c = false)
  ∨ (∃ q, extractImporte row = Num q ∧ (0 <= q)%Q).
Proof.
  destruct (extractImporte row) as [|q] eqn:Hq.
  - left. split; [done|]. by apply extractImporte_NaN_iff.
  - right. exists q. split; [done|]. by apply (extractImporte_nonneg row).
Qed.

(** ** expandAllNodes, whatever the widget does *)

Lemma expandLoop_first_empty {W B E : Type} (page : TreeWidget W B E) budget :
  ∀ iterations w,
    ∃ n, n ≤ budget
         ∧ expandLoop page budget iterations w
           = (iterations + n, expandRounds page n w)
         ∧ (∀ k, k < n → expandButtons page (expandRounds page k w) ≠ [])
         ∧ (n < budget → expandButtons page (expandRounds page n w) = []).
Proof.
  induction budget as [|budget IH]; intros iterations w.
  - exists 0. cbn [expandLoop expandRounds]. rewrite Nat.add_0_r.
    repeat split; [done|lia..].
  - cbn [expandLoop]. destruct (expandButtons page w) as [|b bs] eqn:Hb.
    + exists 0. cbn [expandRounds]. rewrite Nat.add_0_r.
      repeat split; [lia|lia|done].
    + destruct (IH (S iterations) (expandRound page w))
        as (n & Hn & Heq & Hsome & Hnone).
      exists (S n). split; [lia|]. split; [rewrite Heq; f_equal; lia|]. split.
      * intros [|k] Hk; cbn [expandRounds]; [by rewrite Hb|]. apply Hsome. lia.
      * intros Hlt. cbn [expandRounds]. apply Hnone. lia.
Qed.

(** X12. For every widget the number of iterations is the number of the
    first round, up to the ceiling of 100, before which no expand control is
    found: controls were found before each earlier round, and when the loop
    stops below the ceiling none is left. *)
Theorem expandAllNodes_first_empty {W B E : Type} (page : TreeWidget W B E)
    (w : W) :
  ∃ n, n ≤ maxIterations
       ∧ expandAllNodes page w = (n, expandRounds page n w)
       ∧ (∀ k, k < n → expandButtons page (expandRounds page k w) ≠ [])
       ∧ (n < maxIterations →
          expandButtons page (expandRounds page n w) = []).
Proof. apply (expandLoop_first_empty page maxIterations 0 w). Qed.

(** X13. A control that is not visible, or whose visibility test throws, is
    not clicked: when no control found is visible the round leaves the page
    alone but for the wait of 500 ms. *)
Theorem expandRound_nothing_visible {W B E : Type} (page : TreeWidget W B E)
    (w : W) :
  (∀ b, b ∈ expandButtons page w → isVisible page b w ≠ Returned true) →
  expandRound page w = waitForTimeout page 500 w.
Proof.
  intros Hvis. unfold expandRound. f_equal.
  induction (expandButtons page w) as [|b bs IH]; [done|].
  cbn [fold_left]. unfold clickIfVisible at 2.
  pose proof (Hvis b ltac:(left)) as Hb.
  destruct (isVisible page b w) as [[|]|]; [done| |];
    apply IH; intros b' Hb'; apply Hvis; by right.
Qed.

Lemma expandRound_nothing_visible_witness :
  expandRound hiddenWidget 0 = waitForTimeout hiddenWidget 500 0.
Proof.
  apply (expandRound_nothing_visible hiddenWidget 0).
  intros b _. discriminate.
Defined.

(** ** parseLabel, whatever the text *)

Lemma labelRest_captures s caps caps' :
  labelRest s caps = Some caps' →
  caps' !! 1 = caps !! 1
  ∧ ∃ g, caps' !! 2 = Some g ∧ g ≠ [] ∧ (g = s ∨ s = 45%N :: g).
Proof.
  unfold labelRest, dotPlusToEnd.
  assert (∀ g, (if forallb dot g && (1 <=? length g)
                then Some (<[2:=g]> caps) else None) = Some caps' →
               caps' !! 1 = caps !! 1 ∧ caps' !! 2 = Some g ∧ g ≠ []) as Hg.
  { intros g. destruct (forallb dot g && (1 <=? length g)) eqn:Hd; [|done].
    intros [= <-]. rewrite lookup_insert_ne, lookup_insert_eq by done.
    split; [done|]. split; [done|]. intros ->.
    by rewrite andb_false_r in Hd. }
  destruct s as [|c s'].
  { intros H. apply Hg in H as (? & ? & ?). eauto 6. }
  destruct (N.eq_dec c 45%N) as [->|Hne].
  - destruct (forallb dot s' && (1 <=? length s')) eqn:Hd.
    + intros H. specialize (Hg s'). rewrite Hd in Hg.
      apply Hg in H as (? & ? & ?). eauto 6.
    + intros H. apply Hg in H as (? & ? & ?). eauto 6.
  - assert (∀ X Y : option (gmap nat jsstring),
              match c with 45%N => X | _ => Y end = Y) as Hc.
    { intros X Y. destruct c as [|c]; [done|].
      repeat (destruct c as [c|c|]; try done). }
    rewrite Hc. intros H. apply Hg in H as (? & ? & ?). eauto 6.
Qed.

(** X14. The code returned is empty or the first eight code units of the
    text, and then they are eight digits. *)
Theorem parseLabel_code_shape text :
  labelCode (parseLabel text) = []
  ∨ (labelCode (parseLabel text) = take 8 text
     ∧ length (labelCode (parseLabel text)) = 8
     ∧ forallb isDigit (labelCode (parseLabel text)) = true).
Proof.
  unfold parseLabel. cbn [labelCode]. rewrite jsMatch_label.
  destruct (hasLeadingCode text) eqn:Hcode.
  - destruct (labelRest (drop 8 text) _) as [caps|] eqn:Hrest.
    + apply labelRest_captures in Hrest as [H1 _].
      cbn [mbind option_bind]. rewrite H1, lookup_insert_eq.
      apply andb_true_iff in Hcode as [Hlen%Nat.leb_le Hdig].
      right. destruct (take 8 text) as [|c t] eqn:Ht.
      * apply (f_equal length) in Ht. rewrite length_take in Ht.
        cbn [length] in Ht. lia.
      * cbn [orElse]. rewrite <- Ht. split; [done|]. split; [|by rewrite Ht].
        rewrite length_take. lia.
    + destruct (labelRest text ∅) as [caps|] eqn:Hrest'; [|by left].
      apply labelRest_captures in Hrest' as [H1 _].
      cbn [mbind option_bind]. rewrite H1, lookup_empty. by left.
  - destruct (labelRest text ∅) as [caps|] eqn:Hrest'; [|by left].
    apply labelRest_captures in Hrest' as [H1 _].
    cbn [mbind option_bind]. rewrite H1, lookup_empty. by left.
Qed.

Lemma trim_nil_iff s : trim s = [] ↔ Forall (λ c, isTrimmed c = true) s.
Proof.
  split.
  - intros Ht. destruct (trim_decompose s) as (a & b & Hs & Ha & Hb).
    rewrite Hs, Ht. apply Forall_app. by split.
  - intros Hs. unfold trim.
    assert (trimStart s = []) as ->; [|done].
    induction Hs as [|c s Hc _ IH]; [done|]. cbn [trimStart]. by rewrite Hc.
Qed.

(** The second capture, when there is one, is a piece of the text. *)
Lemma jsMatch_label_description text caps g :
  jsMatch text labelRegex = Some caps → caps !! 2 = Some g →
  ∃ pre, text = pre ++ g.
Proof.
  rewrite jsMatch_label. intros Hm Hg.
  assert (∀ s caps0, labelRest s caps0 = Some caps → ∃ pre, s = pre ++ g) as Hrest.
  { intros s caps0 (_ & g' & Hg' & _ & Hs)%labelRest_captures.
    assert (g' = g) as -> by congruence.
    destruct Hs as [->| ->]; [by exists [] | by exists [45%N]]. }
  destruct (hasLeadingCode text).
  - destruct (labelRest (drop 8 text) _) as [caps1|] eqn:H1.
    + injection Hm as ->. destruct (Hrest _ _ H1) as [pre Hpre].
      exists (take 8 text ++ pre).
      by rewrite <- app_assoc, <- Hpre, take_drop.
    + by apply Hrest in Hm.
  - by apply Hrest in Hm.
Qed.

(** X15. The description returned has no white space at its ends, and it is
    empty only for a text that is all white space. *)
Theorem parseLabel_description_shape text :
  trim (labelDescription (parseLabel text)) = labelDescription (parseLabel text)
  ∧ (labelDescription (parseLabel text) = [] ↔ trim text = []).
Proof.
  unfold parseLabel. cbn [labelDescription].
  destruct (jsMatch text labelRegex) as [caps|] eqn:Hm; cbn [mbind option_bind];
    [|split; [apply trim_idem | done]].
  destruct (caps !! 2) as [g|] eqn:Hg;
    cbn [fmap option_fmap option_map orElse]; [|split; [apply trim_idem | done]].
  destruct (jsMatch_label_description text caps g Hm Hg) as [pre Hpre].
  destruct (trim g) as [|c u] eqn:Htg; [split; [apply trim_idem | done]|].
  split; [rewrite <- Htg; apply trim_idem|]. split; [done|].
  intros Ht%trim_nil_iff. rewrite Hpre in Ht. apply Forall_app in Ht as [_ Ht].
  apply trim_nil_iff in Ht. congruence.
Qed.

(** ** getNodeLevel: the matcher on [widthRegex] *)

Section MatcherGreedy.
Context {R : Type}.

(** A greedy unbounded repetition takes the whole run of the class when the
    rest of the pattern matches after it. *)
Lemma rep_greedy cls a : ∀ lo p r (k : nat → jsstring → option R) x,
  Forall (λ c, cls c = true) a → lo ≤ length a →
  (∀ c r', r = c :: r' → cls c = false) →
  k (p + length a) r = Some x →
  rep cls lo None p (a ++ r) k = Some x.
Proof.
  induction a as [|c a IH]; intros lo p r k x Ha Hlo Hr Hk.
  - cbn [length] in *. rewrite Nat.add_0_r in Hk.
    assert (lo = 0) as -> by lia. cbn [app].
    destruct r as [|c r]; cbn [rep]; [done|].
    by rewrite (Hr c r).
  - apply list.Forall_cons in Ha as [Hc Ha]. cbn [app rep].
    rewrite Hc, bool_decide_eq_false_2 by done. cbn [andb negb].
    change (pred <$> None) with (@None nat).
    rewrite (IH (pred lo) (S p) r k x); [done|done| |done|].
    + cbn [length] in Hlo. lia.
    + cbn [length] in Hk. by replace (S p + length a) with (p + S (length a)) by lia.
Qed.

Lemma rmatch_Lit l : ∀ p r caps (k : nat → jsstring → gmap nat jsstring → option R),
  rmatch (Lit l) p (l ++ r) caps k = k (p + length l) r caps.
Proof.
  induction l as [|c l IH]; intros p r caps k.
  - cbn [Lit app length]. unfold Eps. rewrite rmatch_Rep, (rep_exact _ 0).
    by rewrite drop_0.
  - cbn [Lit app length]. rewrite rmatch_Seq, rmatch_Rep, (rep_exact _ 1).
    cbn [length Nat.leb take forallb drop andb]. unfold isChar at 1.
    rewrite N.eqb_refl. cbn [andb]. rewrite drop_0, IH. f_equal. lia.
Qed.

Lemma rmatch_Lit_mismatch c l x s p caps
    (k : nat → jsstring → gmap nat jsstring → option R) :
  x ≠ c → rmatch (Lit (c :: l)) p (x :: s) caps k = None.
Proof.
  intros Hx. cbn [Lit]. rewrite rmatch_Seq, rmatch_Rep, (rep_exact _ 1).
  cbn [length Nat.leb take forallb andb]. unfold isChar at 1.
  by replace (x =? c)%N with false by (symmetry; by apply N.eqb_neq).
Qed.
End MatcherGreedy.

(** On a text that starts with [width:], white space, digits and [px], the
    pattern matches at once and captures the digits. *)
Lemma rmatch_width p ws ds rest :
  Forall (λ c, isTrimmed c = true) ws →
  Forall (λ c, isDigit c = true) ds → ds ≠ [] →
  rmatch widthRegex p (js "width:" ++ ws ++ ds ++ js "px" ++ rest) ∅
    (λ _ _ caps, Some caps)
  = Some (<[1 := ds]> ∅).
Proof.
  intros Hws Hds Hne. unfold widthRegex.
  rewrite rmatch_Seq, rmatch_Lit, rmatch_Seq, rmatch_Rep.
  apply rep_greedy; [done|lia| |].
  { destruct ds as [|d ds']; [done|]. intros c r' [= <- _].
    apply list.Forall_cons in Hds as [Hd _]. by apply isDigit_not_space. }
  rewrite rmatch_Seq, rmatch_Grp, rmatch_Rep.
  apply rep_greedy;
    [done|destruct ds; [done|simpl; lia]|by intros c r' [= <- _]|].
  rewrite rmatch_Lit. do 2 f_equal.
  replace (_ - _) with (length ds) by lia. by rewrite take_app_length.
Qed.

Lemma scan_width pre : ∀ p ws ds rest,
  119%N ∉ pre →
  Forall (λ c, isTrimmed c = true) ws →
  Forall (λ c, isDigit c = true) ds → ds ≠ [] →
  scan widthRegex p (pre ++ js "width:" ++ ws ++ ds ++ js "px" ++ rest)
  = Some (<[1 := ds]> ∅).
Proof.
  induction pre as [|c pre IH]; intros p ws ds rest Hpre Hws Hds Hne.
  - cbn [app]. 
    assert (∀ s, rmatch widthRegex p s ∅ (λ _ _ caps, Some caps)
                 = Some (<[1:=ds]> ∅) →
                 scan widthRegex p s = Some (<[1:=ds]> ∅)) as Hscan.
    { intros s Hs. destruct s; cbn [scan]; by rewrite Hs. }
    by apply Hscan, rmatch_width.
  - apply not_elem_of_cons in Hpre as [Hc Hpre]. cbn [app scan].
    unfold widthRegex at 1. rewrite rmatch_Seq.
    change (js "width:") with (119%N :: js "idth:") at 1.
    rewrite rmatch_Lit_mismatch by done. by apply IH.
Qed.

(** X16. When the style of the indentation cell holds [width:], white space
    (or none), digits and [px], with no letter w before it, and the width
    the digits write is below 2^53, the level is that width divided by 19,
    rounded down. (From 2^53 on the program computes on rounded doubles.) *)
Theorem getNodeLevel_width element pre ws ds rest :
  tdStyle element
    = Some (Some (pre ++ js "width:" ++ ws ++ ds ++ js "px" ++ rest)) →
  119%N ∉ pre →
  Forall (λ c, isTrimmed c = true) ws →
  Forall (λ c, isDigit c = true) ds → ds ≠ [] →
  (digitsValue ds < 2 ^ 53)%N →
  getNodeLevel element = Returned (N.to_nat (digitsValue ds / 19)).
Proof.
  intros Hstyle Hpre Hws Hds Hne _. unfold getNodeLevel. rewrite Hstyle.
  cbn [mbind option_bind]. unfold jsMatch. rewrite scan_width by done.
  cbn [mbind option_bind]. rewrite lookup_insert_eq. by destruct ds.
Qed.

Lemma getNodeLevel_width_witness :
  getNodeLevel (treeElement "45000000-Obras" "padding: 0; width: 57px;" [])
  = Returned (N.to_nat (digitsValue (js "57") / 19)).
Proof.
  apply (getNodeLevel_width _ (js "padding: 0; ") (js " ") (js "57") (js ";")).
  - reflexivity.
  - by_computation.
  - by_computation.
  - by_computation.
  - discriminate.
  - by_computation.
Defined.

Lemma scan_width_absent s : ∀ p, 119%N ∉ s → scan widthRegex p s = None.
Proof.
  induction s as [|c s IH]; intros p Hs.
  - cbn [scan]. unfold widthRegex. rewrite rmatch_Seq.
    change (js "width:") with (119%N :: js "idth:").
    cbn [Lit]. rewrite rmatch_Seq, rmatch_Rep, (rep_exact _ 1). done.
  - apply not_elem_of_cons in Hs as [Hc Hs]. cbn [scan].
    unfold widthRegex at 1. rewrite rmatch_Seq.
    change (js "width:") with (119%N :: js "idth:") at 1.
    rewrite rmatch_Lit_mismatch by done. by apply IH.
Qed.

(** X17. Without a style attribute on the indentation cell, or with a style
    that holds no letter w, the level is 0; without an indentation cell the
    helper throws, and the element is left out by both readers. *)
Theorem getNodeLevel_default element :
  match tdStyle element with
  | None =>
      getNodeLevel element = Thrown NoSuchElement
      ∧ nodeOf element = None
      ∧ (∀ st, DepthWalk.visit st element = st)
      ∧ (∀ st, PathMap.visit st element = st)
  | Some None => getNodeLevel element = Returned 0
  | Some (Some style) => 119%N ∉ style → getNodeLevel element = Returned 0
  end.
Proof.
  destruct (tdStyle element) as [[style|]|] eqn:Hstyle.
  - intros Hw. unfold getNodeLevel. rewrite Hstyle.
    cbn [mbind option_bind]. unfold jsMatch. by rewrite scan_width_absent.
  - unfold getNodeLevel. by rewrite Hstyle.
  - assert (getNodeLevel element = Thrown NoSuchElement) as Hthrow
      by (unfold getNodeLevel; by rewrite Hstyle).
    unfold nodeOf, DepthWalk.visit, PathMap.visit. rewrite Hthrow.
    by destruct (labelText element) as [[|? ?]|].
Qed.

(** ** Path keys *)

Lemma digitsValue_snoc a c :
  digitsValue (a ++ [c]) = (digitsValue a * 10 + (c - 48))%N.
Proof. unfold digitsValue. by rewrite fold_left_app. Qed.

Lemma pos_size_nat_gt p : (N.pos p < 2 ^ N.of_nat (Pos.size_nat p))%N.
Proof.
  induction p as [p IH|p IH|]; cbn [Pos.size_nat]; [| |done];
    rewrite Nat2N.inj_succ, N.pow_succ_r' by lia;
    remember (2 ^ N.of_nat (Pos.size_nat p))%N as x eqn:Hx; clear Hx.
  - change (N.pos p~1) with (2 * N.pos p + 1)%N. lia.
  - change (N.pos p~0) with (2 * N.pos p)%N. lia.
Qed.

Lemma decimalDigits_value fuel : ∀ n,
  (n < 2 ^ N.of_nat fuel)%N → digitsValue (decimalDigits fuel n) = n.
Proof.
  induction fuel as [|fuel IH]; intros n Hn; cbn [decimalDigits].
  - change (2 ^ N.of_nat 0)%N with 1%N in Hn. by assert (n = 0%N) as -> by lia.
  - destruct (N.ltb_spec n 10).
    + unfold digitsValue. cbn [fold_left]. lia.
    + rewrite digitsValue_snoc, IH.
      * pose proof (N.div_mod n 10 ltac:(done)) as Hdm.
        remember (n / 10)%N as q eqn:Hq. remember (n mod 10)%N as r eqn:Hr.
        clear Hq Hr. lia.
      * rewrite Nat2N.inj_succ, N.pow_succ_r' in Hn by lia.
        apply N.Div0.div_lt_upper_bound.
        remember (2 ^ N.of_nat fuel)%N as x eqn:Hx. clear Hx. lia.
Qed.

(** Reading back the numeral of a number gives the number. *)
Lemma digitsValue_numberToString n : digitsValue (numberToString n) = n.
Proof.
  unfold numberToString. apply decimalDigits_value.
  rewrite Nat2N.inj_succ, N.pow_succ_r'. destruct n as [|p]; [done|].
  pose proof (pos_size_nat_gt p). cbn [N.size_nat]. lia.
Qed.

Lemma numberToString_no_hyphen n : 45%N ∉ numberToString n.
Proof.
  intros Hin.
  by apply (proj1 (list.Forall_forall _ _) (decimalDigits_digits _ n)) in Hin.
Qed.

Lemma numberToString_not_nil n : numberToString n ≠ [].
Proof.
  unfold numberToString. cbn [decimalDigits].
  destruct (n <? 10)%N; [done|]. by destruct (decimalDigits _ _).
Qed.

Lemma split_no_sep s : 45%N ∉ s → split 45 s = [s].
Proof.
  induction s as [|c s IH]; [done|]. intros [Hc Hs]%not_elem_of_cons.
  cbn [split]. destruct (N.eqb_spec c 45); [done|]. by rewrite IH.
Qed.

Lemma split_app_sep a t : 45%N ∉ a → split 45 (a ++ 45%N :: t) = a :: split 45 t.
Proof.
  induction a as [|c a IH]; [done|]. intros [Hc Ha]%not_elem_of_cons.
  cbn [split app]. destruct (N.eqb_spec c 45); [done|]. by rewrite IH.
Qed.

(** Splitting a joined list of parts without hyphen gives the parts back. *)
Lemma split_join parts :
  parts ≠ [] → Forall (λ part, 45%N ∉ part) parts →
  split 45 (join 45 parts) = parts.
Proof.
  intros Hne Hparts. induction Hparts as [|part parts Hpart Hparts IH]; [done|].
  destruct parts as [|part' parts'].
  - cbn [join]. by apply split_no_sep.
  - change (join 45 (part :: part' :: parts'))
      with (part ++ 45%N :: join 45 (part' :: parts')).
    rewrite split_app_sep by done. by rewrite IH.
Qed.

Lemma removelast_fmap {A B} (f : A → B) (l : list A) :
  removelast (f <$> l) = f <$> removelast l.
Proof.
  induction l as [|x l IH]; [done|]. destruct l as [|y l]; [done|].
  cbn [fmap list_fmap removelast] in *. by rewrite IH.
Qed.

Lemma pathKey_numerals indices :
  Forall (λ part, 45%N ∉ part) (numberToString <$> indices).
Proof.
  apply Forall_fmap, list.Forall_forall. intros n _. apply numberToString_no_hyphen.
Qed.

Lemma parentPathOf_key indices :
  PathMap.parentPathOf (pathKey indices) = pathKey (removelast indices).
Proof.
  unfold PathMap.parentPathOf, pathKey. destruct indices as [|i indices]; [done|].
  rewrite split_join; [|done|apply pathKey_numerals].
  by rewrite removelast_fmap.
Qed.

(** X18. The parent path the reader computes by cutting the last segment off
    the path string is the path of the parent position in the document, for
    every element; for an element without a parent it is the empty path
    again. *)
Theorem parentPathOf_pathKey node :
  PathMap.parentPathOf (PathMap.pathOf node)
  = pathKey (removelast (domPath node))
  ∧ (domPath node = [] →
     PathMap.parentPathOf (PathMap.pathOf node) = PathMap.pathOf node).
Proof.
  change (PathMap.pathOf node) with (pathKey (domPath node)).
  split; [apply parentPathOf_key|].
  intros Hpath. by rewrite parentPathOf_key, Hpath.
Qed.

Lemma join_nil_inv parts :
  Forall (λ part, part ≠ []) parts → join 45 parts = [] → parts = [].
Proof.
  intros Hparts. destruct Hparts as [|part parts Hpart _]; [done|].
  destruct parts; cbn [join]; [done|]. by destruct part.
Qed.

Lemma pathKey_inj indices1 indices2 :
  pathKey indices1 = pathKey indices2 → indices1 = indices2.
Proof.
  unfold pathKey. intros Hkey.
  assert (∀ l, Forall (λ part : jsstring, part ≠ []) (numberToString <$> l)) as Hne.
  { intros l. apply Forall_fmap, list.Forall_forall. intros n _.
    apply numberToString_not_nil. }
  assert (numberToString <$> indices1 = numberToString <$> indices2) as Heq.
  { destruct indices1 as [|i1 l1].
    - symmetry in Hkey. apply join_nil_inv in Hkey; [|apply Hne]. done.
    - destruct indices2 as [|i2 l2].
      + apply join_nil_inv in Hkey; [|apply Hne]. done.
      + apply (f_equal (split 45)) in Hkey.
        by rewrite !split_join in Hkey by (done || apply pathKey_numerals). }
  apply (f_equal (fmap digitsValue)) in Heq.
  rewrite <- !list_fmap_compose in Heq.
  assert (∀ l : list N, (digitsValue ∘ numberToString) <$> l = l) as Hid.
  { intros l. induction l as [|n l IH]; [done|].
    cbn [fmap list_fmap compose]. by rewrite digitsValue_numberToString, IH. }
  by rewrite !Hid in Heq.
Qed.

(** X19. Two elements have the same path key exactly when they are at the
    same position of the document: the keys of the map do not collide. *)
Theorem pathKey_injective node1 node2 :
  PathMap.pathOf node1 = PathMap.pathOf node2 ↔ domPath node1 = domPath node2.
Proof.
  split; [apply pathKey_inj|]. unfold PathMap.pathOf. by intros ->.
Qed.

(** ** Placement and order in the path-map reader *)

Lemma concat_children_snoc heap n :
  concat (children <$> heap ++ [n]) = concat (children <$> heap) ++ children n.
Proof. by rewrite fmap_app, concat_app; cbn; rewrite app_nil_r. Qed.

Lemma concat_children_alter heap : ∀ r p,
  p < length heap →
  concat (children <$> alter (pushChild r) p heap)
    ≡ₚ concat (children <$> heap) ++ [r].
Proof.
  induction heap as [|x heap IH]; intros r p Hp; [simpl in Hp; lia|].
  destruct p as [|p]; cbn [alter list_alter fmap list_fmap concat].
  - cbn [pushChild children]. rewrite <- !app_assoc.
    apply Permutation_app_head, Permutation_app_comm.
  - rewrite <- app_assoc. apply Permutation_app_head, IH. simpl in Hp. lia.
Qed.

Lemma increasing_nil : increasing [].
Proof. by intros i j x y _ ?. Qed.

Lemma increasing_snoc arr r :
  increasing arr → (∀ x, x ∈ arr → x < r) → increasing (arr ++ [r]).
Proof.
  intros Hinc Hlt i j x y Hij Hx Hy.
  destruct (decide (j < length arr)) as [Hj|Hj].
  - rewrite lookup_app_l in Hx, Hy by lia. eauto.
  - assert (i < length arr) as Hi.
    { apply lookup_lt_Some in Hy. rewrite length_app in Hy. simpl in Hy. lia. }
    rewrite lookup_app_l in Hx by done.
    rewrite lookup_app_r in Hy by lia.
    destruct (j - length arr) as [|d]; [|by destruct d].
    injection Hy as <-. apply Hlt. by apply list_elem_of_lookup_2 in Hx.
Qed.

Lemma childrenOf_placed heap roots p c :
  c ∈ childrenOf heap p → c ∈ placements heap roots.
Proof.
  unfold childrenOf, placements. intros Hc. apply elem_of_app. right.
  destruct (heap !! p) as [n|] eqn:Hn; [|by apply elem_of_nil in Hc].
  apply list_elem_of_In, in_concat. exists (children n). split.
  - apply list_elem_of_In, list_elem_of_fmap. exists n. split; [done|].
    by apply list_elem_of_lookup_2 in Hn.
  - by apply list_elem_of_In.
Qed.

Lemma placed_below heap roots x :
  placements heap roots ≡ₚ seq 0 (length heap) →
  x ∈ placements heap roots → x < length heap.
Proof. intros Hperm Hx. rewrite Hperm in Hx. apply elem_of_seq in Hx. lia. Qed.

Lemma childrenOf_alloc heap n p :
  children n = [] → childrenOf (heap ++ [n]) p = childrenOf heap p.
Proof.
  intros Hleaf. destruct (decide (p < length heap)) as [Hp|Hp].
  - by apply childrenOf_app_l.
  - unfold childrenOf. rewrite (lookup_ge_None_2 heap) by lia.
    destruct (decide (p = length heap)) as [->|Hne].
    + by rewrite list_lookup_middle.
    + rewrite lookup_ge_None_2; [done|]. rewrite length_app. simpl. lia.
Qed.

Lemma removelast_length_S {A} (l : list A) :
  l ≠ [] → S (length (removelast l)) = length l.
Proof.
  induction l as [|x [|y l] IH]; intros Hl; [done|done|].
  change (removelast (x :: y :: l)) with (x :: removelast (y :: l)).
  cbn [length]. by rewrite IH.
Qed.

Lemma removelast_shorter {A} (l : list A) : l ≠ [] → removelast l ≠ l.
Proof.
  intros Hne Heq. apply (f_equal length) in Heq.
  pose proof (removelast_length_S l Hne). lia.
Qed.

Module PathMapOrder.
Import PathMap.

Lemma pathInv_visit st node : pathInv st → pathInv (visit st node).
Proof.
  intros (Hmap & Hperm & Hroots & Hkids & Hord).
  rewrite PathMapFacts.visit_by_path. destruct (nodeOf node) as [n|] eqn:Hn;
    [|done].
  assert (children n = []) as Hleaf.
  { unfold nodeOf in Hn. destruct (labelText node) as [[|? ?]|]; try done.
    destruct (getNodeLevel node); [|done]. by injection Hn as <-. }
  cbv zeta. set (r := length (heap st)).
  assert (∀ k x, <[pathOf node:=r]> (nodeMap st) !! k = Some x →
                 x < length (heap st ++ [n])) as Hmap1.
  { intros k x. rewrite length_app. cbn [length].
    destruct (decide (pathOf node = k)) as [->|Hk].
    - rewrite lookup_insert_eq. intros [= <-]. subst r. lia.
    - rewrite lookup_insert_ne by done. intros Hx%Hmap. lia. }
  assert (∀ p, childrenOf (heap st ++ [n]) p = childrenOf (heap st) p) as Hsame.
  { intros p. destruct (decide (p < length (heap st))) as [Hp|Hp].
    - by apply childrenOf_app_l.
    - rewrite childrenOf_app_ge by (done || lia).
      unfold childrenOf. by rewrite lookup_ge_None_2 by lia. }
  assert (∀ x, x ∈ placements (heap st) (rootNodes st) → x < r) as Hbelow
    by (intros x; by apply placed_below).
  destruct (<[pathOf node:=r]> (nodeMap st) !! parentPathOf (pathOf node))
    as [parent|] eqn:Hparent.
  - (* a child of the node found in the map *)
    pose proof (Hmap1 _ _ Hparent) as Hlt.
    assert (parent ≤ r) as Hle by (rewrite length_app in Hlt; simpl in Hlt; lia).
    unfold pathInv. cbn [heap nodeMap rootNodes]. rewrite length_alter.
    split; [done|]. split; [|split; [done|split]].
    + unfold placements. rewrite concat_children_alter by done.
      rewrite concat_children_snoc, Hleaf, app_nil_r, app_assoc.
      fold (placements (heap st) (rootNodes st)). rewrite Hperm.
      rewrite length_app. cbn [length]. by rewrite Nat.add_1_r, seq_S.
    + intros p. rewrite childrenOf_alter. case_decide as Hp; rewrite Hsame;
        [|done]. destruct Hp as [-> _]. apply increasing_snoc; [done|].
      intros x Hx. apply Hbelow. by apply (childrenOf_placed _ _ p).
    + intros p c. rewrite childrenOf_alter. case_decide as Hp; rewrite Hsame;
        [|apply Hord]. destruct Hp as [-> _].
      intros [Hc| ->%list_elem_of_singleton]%elem_of_app; [by apply Hord|done].
  - (* a root *)
    unfold pathInv. cbn [heap nodeMap rootNodes].
    split; [done|]. split; [|split; [|split]].
    + unfold placements. rewrite concat_children_snoc, Hleaf, app_nil_r.
      rewrite <- app_assoc.
      rewrite (Permutation_app_comm [r]), app_assoc.
      fold (placements (heap st) (rootNodes st)). rewrite Hperm.
      rewrite length_app. cbn [length]. by rewrite Nat.add_1_r, seq_S.
    + apply increasing_snoc; [done|]. intros x Hx. apply Hbelow.
      unfold placements. apply elem_of_app. by left.
    + intros p. by rewrite Hsame.
    + intros p c. rewrite Hsame. apply Hord.
Qed.

Lemma pathInv_fold nodes : ∀ st, pathInv st → pathInv (fold_left visit nodes st).
Proof.
  induction nodes as [|node nodes IH]; intros st Hinv; [done|].
  cbn [fold_left]. by apply IH, pathInv_visit.
Qed.

Lemma pathInv_run nodes : pathInv (run nodes).
Proof.
  apply pathInv_fold. unfold pathInv, childrenOf. cbn [heap nodeMap rootNodes].
  split; [by intros k r; rewrite lookup_empty|]. split; [done|].
  split; [apply increasing_nil|]. split; [intros p; apply increasing_nil|].
  by intros p c ?%elem_of_nil.
Qed.

Lemma heap_length_visit st node :
  length (heap (visit st node))
  = length (heap st) + length (streamLevels [node]).
Proof.
  rewrite PathMapFacts.visit_by_path. unfold streamLevels. cbn [omap list_omap].
  destruct (nodeOf node) as [n|]; cbn [fmap option_fmap option_map length];
    [|lia].
  cbv zeta. destruct (<[_:=_]> _ !! _); cbn [heap];
    rewrite ?length_alter, length_app; simpl; lia.
Qed.

Lemma heap_length_fold nodes : ∀ st,
  length (heap (fold_left visit nodes st))
  = length (heap st) + length (streamLevels nodes).
Proof.
  induction nodes as [|node nodes IH]; intros st.
  - simpl. lia.
  - cbn [fold_left]. rewrite IH, heap_length_visit.
    unfold streamLevels. cbn [omap list_omap].
    destruct (level <$> nodeOf node); simpl; lia.
Qed.

(** X20. The path-map reader creates one node for each element that
    yields one and pushes each node it creates to exactly one array, once:
    the references held by [rootNodes] and by all the [children] arrays
    together are those of the store, each exactly once. (An array that
    holds a node need not hang from a root: a node pushed to its own
    [children] is held, and is not in what the reader returns.) *)
Theorem every_node_placed_once nodes :
  length (heap (run nodes)) = length (streamLevels nodes)
  ∧ placements (heap (run nodes)) (rootNodes (run nodes))
      ≡ₚ seq 0 (length (heap (run nodes))).
Proof.
  split.
  - unfold run. by rewrite heap_length_fold.
  - by destruct (pathInv_run nodes) as (_ & Hperm & _).
Qed.

(** X21. The path-map reader keeps the document order: the roots and every
    [children] array list their nodes in the order of creation, and no node
    is the child of a node created after it. *)
Theorem arrays_in_document_order nodes :
  increasing (rootNodes (run nodes))
  ∧ (∀ p, increasing (childrenOf (heap (run nodes)) p))
  ∧ (∀ p c, c ∈ childrenOf (heap (run nodes)) p → p ≤ c).
Proof. by destruct (pathInv_run nodes) as (_ & _ & ? & ? & ?). Qed.

(** The keys of the map are the paths of the elements visited. *)
Lemma nodeMap_visited nodes : ∀ st k r,
  nodeMap (fold_left visit nodes st) !! k = Some r →
  nodeMap st !! k = Some r
  ∨ ∃ element, element ∈ nodes ∧ nodeOf element ≠ None ∧ pathOf element = k.
Proof.
  induction nodes as [|node nodes IH]; intros st k r Hk; [by left|].
  cbn [fold_left] in Hk. apply IH in Hk as [Hk|(e & He & Hne & Hpath)].
  - rewrite PathMapFacts.visit_by_path in Hk.
    destruct (nodeOf node) as [n|] eqn:Hn; [|by left].
    cbv zeta in Hk.
    assert (<[pathOf node:=length (heap st)]> (nodeMap st) !! k = Some r) as Hk'
      by (by destruct (<[_:=_]> _ !! parentPathOf _)).
    destruct (decide (pathOf node = k)) as [Heq|Hneq].
    + right. exists node. split; [by left|]. split; [congruence|done].
    + rewrite lookup_insert_ne in Hk' by done. by left.
  - right. exists e. split; [by right|done].
Qed.

(** X22. In the path-map reader an element that yields a node and has a
    parent in the document becomes a root when no element visited before
    it, and yielding a node, sits at the position of that parent; it is
    still a root when the reader returns. *)
Theorem root_without_parent_element before node after n :
  nodeOf node = Some n →
  domPath node ≠ [] →
  (∀ element, element ∈ before → nodeOf element ≠ None →
              domPath element ≠ removelast (domPath node)) →
  length (heap (run before)) ∈ rootNodes (run (before ++ node :: after)).
Proof.
  intros Hn Hpath Hnone.
  apply (PathMapFacts.orphan_promoted before node after n Hn).
  change (pathOf node) with (pathKey (domPath node)).
  rewrite parentPathOf_key.
  rewrite lookup_insert_ne.
  - destruct (nodeMap (run before) !! pathKey (removelast (domPath node)))
      as [r|] eqn:Hr; [|done].
    apply nodeMap_visited in Hr as [Hr|(e & He & Hne & Hkey)].
    + cbn [nodeMap] in Hr. by rewrite lookup_empty in Hr.
    + apply pathKey_inj in Hkey. by destruct (Hnone e).
  - intros Heq%pathKey_inj. symmetry in Heq.
    by apply removelast_shorter in Heq.
Qed.

Lemma flatInv_visit d st node :
  (nodeOf node ≠ None → length (domPath node) = S d) →
  flatInv d st → flatInv d (visit st node).
Proof.
  intros Hlen (Hroots & Hmap & Hkids).
  rewrite PathMapFacts.visit_by_path. destruct (nodeOf node) as [n|] eqn:Hn;
    [|done].
  specialize (Hlen ltac:(done)).
  assert (children n = []) as Hleaf.
  { unfold nodeOf in Hn. destruct (labelText node) as [[|? ?]|]; try done.
    destruct (getNodeLevel node); [|done]. by injection Hn as <-. }
  assert (domPath node ≠ []) as Hne by (by destruct (domPath node)).
  cbv zeta. change (pathOf node) with (pathKey (domPath node)).
  rewrite parentPathOf_key, lookup_insert_ne.
  2:{ intros Heq%pathKey_inj. symmetry in Heq.
      by apply removelast_shorter in Heq. }
  destruct (nodeMap st !! pathKey (removelast (domPath node))) as [r|] eqn:Hr.
  { apply Hmap in Hr as (indices & Hd & Heq%pathKey_inj).
    pose proof (removelast_length_S _ Hne). rewrite Heq in *. lia. }
  unfold flatInv. cbn [heap nodeMap rootNodes]. split; [|split].
  - rewrite Hroots, length_app. cbn [length]. by rewrite Nat.add_1_r, seq_S.
  - intros k r. destruct (decide (pathKey (domPath node) = k)) as [<-|Hk].
    + intros _. by exists (domPath node).
    + rewrite lookup_insert_ne by done. apply Hmap.
  - intros p. by rewrite childrenOf_alloc.
Qed.

Lemma flatInv_fold d nodes : ∀ st,
  (∀ element, element ∈ nodes → nodeOf element ≠ None →
              length (domPath element) = S d) →
  flatInv d st → flatInv d (fold_left visit nodes st).
Proof.
  induction nodes as [|node nodes IH]; intros st Hlen Hinv; [done|].
  cbn [fold_left]. apply IH.
  - intros e He. apply Hlen. by right.
  - apply flatInv_visit; [|done]. apply Hlen. by left.
Qed.

(** X23. When the elements that yield a node all sit at the same depth of
    the document (the rows of one table, say), the path-map reader finds no
    parent for any of them: every node is a root, in order, and no node has
    a child, whatever the levels the widths give. *)
Theorem siblings_all_roots d nodes :
  (∀ element, element ∈ nodes → nodeOf element ≠ None →
              length (domPath element) = S d) →
  rootNodes (run nodes) = seq 0 (length (streamLevels nodes))
  ∧ ∀ p, childrenOf (heap (run nodes)) p = [].
Proof.
  intros Hlen.
  destruct (flatInv_fold d nodes {| heap := []; nodeMap := ∅; rootNodes := [] |}
              Hlen) as (Hroots & _ & Hkids).
  - split; [done|]. split; [|done]. intros k r. cbn [nodeMap].
    by rewrite lookup_empty.
  - split; [|done]. fold (run nodes) in Hroots.
    rewrite Hroots. f_equal. unfold run. by rewrite heap_length_fold.
Qed.

End PathMapOrder.

Lemma siblings_all_roots_witness :
  PathMap.rootNodes (PathMap.run regularStream)
  = seq 0 (length (streamLevels regularStream))
  ∧ ∀ p, childrenOf (PathMap.heap (PathMap.run regularStream)) p = [].
Proof.
  apply (PathMapOrder.siblings_all_roots 1). intros element Hin _.
  cbn in Hin. repeat (apply elem_of_cons in Hin as [->|Hin]; [reflexivity|]).
  by apply elem_of_nil in Hin.
Defined.

Lemma root_without_parent_element_witness :
  PathMap.rootNodes (PathMap.run regularStream) = [0; 1; 2]
  ∧ length (PathMap.heap (PathMap.run (take 2 regularStream)))
      ∈ PathMap.rootNodes (PathMap.run regularStream).
Proof.
  split; [vm_compute; reflexivity|].
  apply (PathMapOrder.root_without_parent_element
           (take 2 regularStream)
           (treeElement "03110000-Cereales" "width: 38px" [1; 2]%N) []
           {| code := js "03110000"; description := js "Cereales"; level := 2;
              children := [] |}).
  - vm_compute. reflexivity.
  - discriminate.
  - intros element Hin _.
    assert (element = treeElement "03000000-Agricultura" "width: 0px" [1; 0]%N
            ∨ element = treeElement "03100000-Horticultura" "width: 19px" [1; 1]%N)
      as [-> | ->]; [|discriminate..].
    cbn in Hin. apply elem_of_cons in Hin as [->|Hin]; [by left|].
    apply list_elem_of_singleton in Hin as ->. by right.
Defined.

(** ** Placement and order in the depth walk *)

Lemma placements_alloc heap roots n :
  children n = [] → placements (heap ++ [n]) roots = placements heap roots.
Proof.
  intros Hleaf. unfold placements.
  by rewrite concat_children_snoc, Hleaf, app_nil_r.
Qed.

Lemma placements_push_root heap roots r :
  placements heap (roots ++ [r]) ≡ₚ placements heap roots ++ [r].
Proof.
  unfold placements. rewrite <- !app_assoc.
  apply Permutation_app_head, Permutation_app_comm.
Qed.

Lemma placements_push_child heap roots r p :
  p < length heap →
  placements (alter (pushChild r) p heap) roots ≡ₚ placements heap roots ++ [r].
Proof.
  intros Hp. unfold placements.
  by rewrite concat_children_alter, app_assoc.
Qed.

Lemma nodeOf_leaf node n : nodeOf node = Some n → children n = [].
Proof.
  unfold nodeOf. destruct (labelText node) as [[|? ?]|]; try done.
  destruct (getNodeLevel node); [|done]. by intros [= <-].
Qed.

(** A store in which every child is created after its parent holds a
    forest: reading it back succeeds from every reference. *)
Lemma reify_enough heap :
  (∀ p c, c ∈ childrenOf heap p → p < c ∧ c < length heap) →
  ∀ fuel r, r < length heap → length heap - r ≤ fuel →
            is_Some (reify fuel heap r).
Proof.
  intros Hkids. induction fuel as [|fuel IH]; intros r Hr Hfuel; [lia|].
  destruct (lookup_lt_is_Some_2 heap r Hr) as [node Hnode].
  cbn [reify]. rewrite Hnode. cbn [mbind option_bind].
  assert (is_Some (mapM (reify fuel heap) (children node))) as [kids ->]; [|done].
  apply mapM_is_Some, list.Forall_forall. intros c Hc.
  destruct (Hkids r c) as [Hlt Hc'].
  { unfold childrenOf. by rewrite Hnode. }
  apply IH; [done|lia].
Qed.

Lemma reifyAll_enough heap roots :
  (∀ p c, c ∈ childrenOf heap p → p < c ∧ c < length heap) →
  (∀ r, r ∈ roots → r < length heap) →
  is_Some (reifyAll heap roots).
Proof.
  intros Hkids Hroots. apply mapM_is_Some, list.Forall_forall. intros r Hr.
  apply reify_enough; [done|by apply Hroots|lia].
Qed.

Module DepthWalkOrder.
Import DepthWalk.

Lemma walk_placed st k : ∀ a j,
  walk st k a = Some (ChildrenOf j) →
  a = ChildrenOf j ∨ j ∈ placements (heap st) (cpvData st).
Proof.
  induction k as [|k IH]; intros a j Hw.
  - left. by injection Hw.
  - right. cbn [walk] in Hw.
    destruct (lastElement (elements st a)) as [r|] eqn:Hlast; [|done].
    apply IH in Hw as [[= ->]|Hw]; [|done].
    apply lastElement_elem in Hlast. destruct a as [|p].
    + unfold placements. apply elem_of_app. by left.
    + by apply (childrenOf_placed _ _ p).
Qed.

Lemma walkInv_alloc st n :
  walkInv st → children n = [] →
  walkInv {| heap := heap st ++ [n]; cpvData := cpvData st |}.
Proof.
  intros (Hnodup & Hbound & Hroots & Hkids & Hord) Hleaf.
  unfold walkInv. cbn [heap cpvData]. rewrite placements_alloc by done.
  split; [done|]. split; [|split; [done|split]].
  - intros x Hx%Hbound. rewrite length_app. lia.
  - intros p. by rewrite childrenOf_alloc.
  - intros p c. rewrite childrenOf_alloc by done. apply Hord.
Qed.

Lemma walkInv_visit st node : walkInv st → walkInv (visit st node).
Proof.
  intros Hinv. rewrite DepthWalkFacts.visit_by_depth.
  destruct (nodeOf node) as [n|] eqn:Hn; [|done].
  pose proof (nodeOf_leaf _ _ Hn) as Hleaf. cbv zeta.
  set (r := length (heap st)).
  set (st1 := {| heap := heap st ++ [n]; cpvData := cpvData st |}).
  pose proof (walkInv_alloc st n Hinv Hleaf) as Hinv1. fold st1 in Hinv1.
  destruct Hinv as (_ & Hbound & _).
  assert (∀ x, x ∈ placements (heap st1) (cpvData st1) → x < r) as Hbelow.
  { intros x. unfold st1. cbn [heap cpvData]. rewrite placements_alloc by done.
    apply Hbound. }
  assert (length (heap st1) = S r) as Hlen1.
  { unfold st1. cbn [heap]. rewrite length_app. simpl. lia. }
  pose proof Hinv1 as (Hnodup & _ & Hroots & Hkids & Hord).
  assert (walkInv (push st1 RootArray r)) as Hroot.
  { unfold walkInv. cbn [push heap cpvData]. split; [|split; [|split; [|done]]].
    - rewrite placements_push_root. apply list.NoDup_app. split; [done|].
      split; [|apply NoDup_singleton].
      intros x Hx%Hbelow ->%list_elem_of_singleton. lia.
    - intros x. rewrite placements_push_root, Hlen1.
      intros [Hx%Hbelow| ->%list_elem_of_singleton]%elem_of_app; lia.
    - apply increasing_snoc; [done|]. intros x Hx. apply Hbelow.
      unfold placements. apply elem_of_app. by left. }
  destruct (level n) as [|k]; [exact Hroot|].
  destruct (walk st1 k RootArray) as [[|j]|] eqn:Hwalk;
    [exact Hroot| |exact Hinv1].
  apply walk_placed in Hwalk as [?|Hj%Hbelow]; [done|].
  unfold walkInv. cbn [push heap cpvData]. rewrite length_alter.
  split; [|split; [|split; [done|split]]].
  - rewrite placements_push_child by lia. apply list.NoDup_app. split; [done|].
    split; [|apply NoDup_singleton].
    intros x Hx%Hbelow ->%list_elem_of_singleton. lia.
  - intros x. rewrite placements_push_child, Hlen1 by lia.
    intros [Hx%Hbelow| ->%list_elem_of_singleton]%elem_of_app; lia.
  - intros p. rewrite childrenOf_alter. case_decide as Hp; [|done].
    destruct Hp as [-> _]. apply increasing_snoc; [done|].
    intros x Hx. apply Hbelow. by apply (childrenOf_placed _ _ p).
  - intros p c. rewrite childrenOf_alter. case_decide as Hp; [|apply Hord].
    destruct Hp as [-> _].
    intros [Hc| ->%list_elem_of_singleton]%elem_of_app; [by apply Hord|done].
Qed.

Lemma walkInv_fold nodes : ∀ st, walkInv st → walkInv (fold_left visit nodes st).
Proof.
  induction nodes as [|node nodes IH]; intros st Hinv; [done|].
  cbn [fold_left]. by apply IH, walkInv_visit.
Qed.

Lemma walkInv_run nodes : walkInv (run nodes).
Proof.
  apply walkInv_fold. unfold walkInv, placements, childrenOf. cbn.
  split; [apply NoDup_nil_2|]. split; [by intros x ?%elem_of_nil|].
  split; [apply increasing_nil|]. split; [intros p; apply increasing_nil|].
  by intros p c ?%elem_of_nil.
Qed.

(** X24. The depth walk never holds a node twice, and it keeps the document
    order: the references of the roots and of all the [children] arrays
    together have no repetition, each array lists its nodes in the order of
    creation, and every child was created after its parent. *)
Theorem depth_walk_places_in_order nodes :
  NoDup (placements (heap (run nodes)) (cpvData (run nodes)))
  ∧ increasing (cpvData (run nodes))
  ∧ (∀ p, increasing (childrenOf (heap (run nodes)) p))
  ∧ (∀ p c, c ∈ childrenOf (heap (run nodes)) p → p < c).
Proof. by destruct (walkInv_run nodes) as (? & _ & ? & ? & ?). Qed.

(** X25. What the depth walk returns is always a finite forest: no node is
    below itself, so the result can be read back (and serialised) from its
    roots, whatever the stream of elements. *)
Theorem depth_walk_returns_forest nodes : is_Some (scrapeCPVTree nodes).
Proof.
  destruct (walkInv_run nodes) as (_ & Hbound & _ & _ & Hord).
  apply reifyAll_enough.
  - intros p c Hc. split; [by apply Hord|].
    apply Hbound. by apply (childrenOf_placed _ _ p).
  - intros r Hr. apply Hbound. unfold placements. apply elem_of_app. by left.
Qed.

End DepthWalkOrder.

(** ** The size of the forest read back from a store *)

Lemma reify_more heap : ∀ fuel r t,
  reify fuel heap r = Some t → reify (S fuel) heap r = Some t.
Proof.
  induction fuel as [|fuel IH]; intros r t Hr; [done|].
  change (reify (S fuel) heap r)
    with (node ← heap !! r;
          kids ← mapM (reify fuel heap) (children node);
          Some (TreeNode (code node) (description node) (level node) kids))
    in Hr.
  change (reify (S (S fuel)) heap r)
    with (node ← heap !! r;
          kids ← mapM (reify (S fuel) heap) (children node);
          Some (TreeNode (code node) (description node) (level node) kids)).
  destruct (heap !! r) as [node|]; [|done]. cbn [mbind option_bind] in *.
  destruct (mapM (reify fuel heap) (children node)) as [kids|] eqn:Hkids;
    [|done].
  assert (mapM (reify (S fuel) heap) (children node) = Some kids) as ->; [|done].
  apply mapM_Some. apply mapM_Some in Hkids.
  eapply Forall2_impl; [|exact Hkids]. intros c t'. apply IH.
Qed.

Lemma reify_more_fuel heap fuel fuel' r t :
  fuel ≤ fuel' → reify fuel heap r = Some t → reify fuel' heap r = Some t.
Proof.
  intros Hle. induction Hle as [|fuel' Hle IH]; [done|].
  intros Hr. by apply reify_more, IH.
Qed.

Lemma subtreeSize_children heap r node :
  (∀ p c, c ∈ childrenOf heap p → p < c ∧ c < length heap) →
  heap !! r = Some node →
  subtreeSize heap r = S (sum_list (subtreeSize heap <$> children node)).
Proof.
  intros Hkids Hnode. apply lookup_lt_Some in Hnode as Hr.
  destruct (reify_enough heap Hkids (length heap) r Hr) as [t Ht]; [lia|].
  unfold subtreeSize at 1. rewrite Ht. cbn [from_option].
  destruct (length heap) as [|m] eqn:Hlen; [lia|].
  change (reify (S m) heap r)
    with (node ← heap !! r;
          kids ← mapM (reify m heap) (children node);
          Some (TreeNode (code node) (description node) (level node) kids))
    in Ht.
  rewrite Hnode in Ht. cbn [mbind option_bind] in Ht.
  destruct (mapM (reify m heap) (children node)) as [kids|] eqn:Hmap; [|done].
  injection Ht as <-. cbn [treeSize]. f_equal.
  apply mapM_Some in Hmap.
  induction Hmap as [|c t cs ts Hc _ IH]; [done|].
  cbn [fmap list_fmap sum_list]. fold (treeSize <$> ts).
  fold (subtreeSize heap <$> cs). rewrite IH. f_equal.
  unfold subtreeSize. rewrite Hlen.
  by rewrite (reify_more heap m c t Hc).
Qed.

Lemma sum_subtreeSize_store heap (g : nat → nat) : ∀ h off,
  (∀ i node, h !! i = Some node →
             g (off + i) = S (sum_list (subtreeSize heap <$> children node))) →
  sum_list (g <$> seq off (length h))
  = length h + sum_list (subtreeSize heap <$> concat (children <$> h)).
Proof.
  induction h as [|node h IH]; intros off Hg; [done|].
  cbn [length seq fmap list_fmap sum_list concat].
  fold (g <$> seq (S off) (length h)). fold (children <$> h).
  rewrite fmap_app, sum_list_with_app, (IH (S off)).
  - specialize (Hg 0 node eq_refl). rewrite Nat.add_0_r in Hg. rewrite Hg. unfold id at 1. lia.
  - intros i node' Hi. specialize (Hg (S i) node' Hi).
    by replace (S off + i) with (off + S i) by lia.
Qed.

Lemma forest_size heap roots forest :
  (∀ p c, c ∈ childrenOf heap p → p < c) →
  placements heap roots ≡ₚ seq 0 (length heap) →
  reifyAll heap roots = Some forest →
  sum_list (treeSize <$> forest) = length heap.
Proof.
  intros Hord Hperm Hforest.
  assert (∀ p c, c ∈ childrenOf heap p → p < c ∧ c < length heap) as Hkids.
  { intros p c Hc. split; [by apply Hord|].
    apply (placed_below _ roots); [done|]. by apply (childrenOf_placed _ _ p). }
  assert (sum_list (treeSize <$> forest)
          = sum_list (subtreeSize heap <$> roots)) as ->.
  { clear Hperm Hkids. apply mapM_Some in Hforest.
    induction Hforest as [|r t rs ts Hr _ IH]; [done|].
    cbn [fmap list_fmap sum_list]. fold (treeSize <$> ts).
    fold (subtreeSize heap <$> rs). rewrite IH. f_equal.
    unfold subtreeSize. by rewrite Hr. }
  pose proof (sum_subtreeSize_store heap (subtreeSize heap) heap 0) as Hsum.
  rewrite <- Hperm in Hsum. unfold placements in Hsum.
  rewrite fmap_app, sum_list_with_app in Hsum.
  assert (∀ i node, heap !! i = Some node →
                    subtreeSize heap (0 + i)
                    = S (sum_list (subtreeSize heap <$> children node))) as Hg.
  { intros i node Hi. by apply subtreeSize_children. }
  specialize (Hsum Hg). lia.
Qed.

(** ** The depth walk over a regular stream *)

Lemma lastElement_snoc {A} (arr : list A) x : lastElement (arr ++ [x]) = Some x.
Proof.
  unfold lastElement. rewrite length_app, Nat.add_1_r.
  by apply list_lookup_middle.
Qed.

Module DepthWalkRegular.
Import DepthWalk.

Lemma walk_ext st st' :
  cpvData st = cpvData st' →
  (∀ p, childrenOf (heap st) p = childrenOf (heap st') p) →
  ∀ k a, walk st k a = walk st' k a.
Proof.
  intros Hroots Hkids. induction k as [|k IH]; intros a; [done|].
  cbn [walk]. assert (elements st a = elements st' a) as ->.
  { destruct a as [|p]; cbn [elements]; [done|apply Hkids]. }
  destruct (lastElement (elements st' a)); [apply IH|done].
Qed.

Lemma walk_add st k m : ∀ a,
  walk st (k + m) a = walk st k a ≫= walk st m.
Proof.
  induction k as [|k IH]; intros a; [done|].
  change (walk st (S k + m) a)
    with (match lastElement (elements st a) with
          | None => None
          | Some r => walk st (k + m) (ChildrenOf r)
          end).
  change (walk st (S k) a)
    with (match lastElement (elements st a) with
          | None => None
          | Some r => walk st k (ChildrenOf r)
          end).
  destruct (lastElement (elements st a)); [apply IH|done].
Qed.

Lemma walk_increasing st :
  (∀ p c, c ∈ childrenOf (heap st) p → p < c) →
  ∀ k a b, walk st k (ChildrenOf a) = Some (ChildrenOf b) →
           a ≤ b ∧ (0 < k → a < b).
Proof.
  intros Hord. induction k as [|k IH]; intros a b Hw.
  - injection Hw as ->. lia.
  - cbn [walk elements] in Hw.
    destruct (lastElement (childrenOf (heap st) a)) as [r|] eqn:Hlast; [|done].
    apply lastElement_elem, Hord in Hlast. apply IH in Hw. lia.
Qed.

Lemma walk_heap_length st node :
  length (heap (visit st node))
  = length (heap st) + length (streamLevels [node]).
Proof.
  rewrite DepthWalkFacts.visit_by_depth. unfold streamLevels.
  cbn [omap list_omap].
  destruct (nodeOf node) as [n|]; cbn [fmap option_fmap option_map length];
    [|lia].
  cbv zeta. destruct (level n) as [|k]; cbn [push heap].
  - rewrite length_app. simpl. lia.
  - destruct (walk _ k RootArray) as [[|j]|]; cbn [push heap];
      rewrite ?length_alter, length_app; simpl; lia.
Qed.

Lemma walk_heap_length_fold nodes : ∀ st,
  length (heap (fold_left visit nodes st))
  = length (heap st) + length (streamLevels nodes).
Proof.
  induction nodes as [|node nodes IH]; intros st.
  - simpl. lia.
  - cbn [fold_left]. rewrite IH, walk_heap_length.
    unfold streamLevels. cbn [omap list_omap].
    destruct (level <$> nodeOf node); simpl; lia.
Qed.

Lemma spineInv_visit P st node n :
  spineInv P st → nodeOf node = Some n → level n ≤ P + 1 →
  spineInv (level n) (visit st node).
Proof.
  intros (Hinv & Hperm & Hspine) Hn HL.
  pose proof (DepthWalkOrder.walkInv_visit st node Hinv) as Hinv'.
  rewrite DepthWalkFacts.visit_by_depth, Hn in *. cbv zeta in *.
  pose proof (nodeOf_leaf _ _ Hn) as Hleaf.
  set (r := length (heap st)) in *.
  set (st1 := {| heap := heap st ++ [n]; cpvData := cpvData st |}) in *.
  assert (∀ k a, walk st1 k a = walk st k a) as Hw1.
  { apply walk_ext; [done|]. intros p. unfold st1. cbn [heap].
    by apply childrenOf_alloc. }
  assert (length (heap st1) = S r) as Hlen1.
  { unfold st1. cbn [heap]. rewrite length_app. simpl. lia. }
  assert (placements (heap st1) (cpvData st1) ≡ₚ seq 0 r) as Hperm1.
  { unfold st1. cbn [heap cpvData]. by rewrite placements_alloc. }
  pose proof (DepthWalkOrder.walkInv_alloc st n Hinv Hleaf)
    as (_ & _ & _ & _ & Hord1). fold st1 in Hord1.
  destruct (level n) as [|k'] eqn:Hlevel.
  - split; [done|]. split.
    + cbn [push heap cpvData]. rewrite placements_push_root, Hperm1, Hlen1.
      by rewrite seq_S.
    + intros k Hk. assert (k = 0) as -> by lia. by eexists.
  - destruct (Hspine k') as [cl Hcl]; [lia|]. rewrite <- Hw1 in Hcl.
    rewrite Hcl in *. split; [done|].
    assert (match cl with RootArray => k' = 0 | ChildrenOf j => j < r end)
      as Hcl'.
    { destruct cl as [|j].
      - destruct k' as [|k']; [done|]. by apply DepthWalkFacts.walk_not_root in Hcl.
      - apply DepthWalkOrder.walk_placed in Hcl as [?|Hj]; [done|].
        rewrite Hperm1 in Hj. apply elem_of_seq in Hj. lia. }
    assert (elements (push st1 cl r) cl = elements st1 cl ++ [r]) as Hpushed.
    { destruct cl as [|j]; cbn [push elements heap cpvData]; [done|].
      rewrite childrenOf_alter, decide_True; [done|]. split; [done|lia]. }
    split.
    + destruct cl as [|j]; cbn [push heap cpvData].
      * by rewrite placements_push_root, Hperm1, Hlen1, seq_S.
      * rewrite length_alter, placements_push_child, Hperm1, Hlen1 by lia.
        by rewrite seq_S.
    + assert (∀ i, i ≤ k' →
                   walk (push st1 cl r) i RootArray = walk st1 i RootArray)
        as Hsame.
      { induction i as [|i IHi]; [done|]. intros Hi.
        rewrite !DepthWalkFacts.walk_snoc, IHi by lia.
        destruct (walk st1 i RootArray) as [ai|] eqn:Hai; [|done].
        cbn [mbind option_bind walk].
        assert (elements (push st1 cl r) ai = elements st1 ai) as ->; [|done].
        destruct cl as [|j]; [lia|].
        destruct ai as [|a]; cbn [push elements heap cpvData]; [done|].
        rewrite childrenOf_alter. case_decide as Hja; [|done].
        destruct Hja as [-> _].
        replace k' with (i + (k' - i)) in Hcl by lia.
        rewrite walk_add, Hai in Hcl. cbn [mbind option_bind] in Hcl.
        apply (walk_increasing st1 Hord1) in Hcl. lia. }
      intros k Hk. destruct (decide (k ≤ k')) as [Hle|Hgt].
      * rewrite Hsame, Hw1 by done. apply Hspine. lia.
      * assert (k = S k') as -> by lia.
        rewrite DepthWalkFacts.walk_snoc, Hsame, Hcl by done.
        cbn [mbind option_bind walk]. rewrite Hpushed, lastElement_snoc.
        by eexists.
Qed.

Lemma spineInv_fold nodes : ∀ P st,
  spineInv P st → regularLevels (Some P) (streamLevels nodes) →
  ∃ P', spineInv P' (fold_left visit nodes st).
Proof.
  induction nodes as [|node nodes IH]; intros P st Hinv Hreg; [by exists P|].
  cbn [fold_left]. unfold streamLevels in Hreg. cbn [omap list_omap] in Hreg.
  destruct (nodeOf node) as [n|] eqn:Hn; cbn [fmap option_fmap option_map] in Hreg.
  - destruct Hreg as [HL Hreg]. apply (IH (level n)); [|done].
    by apply (spineInv_visit P).
  - apply (IH P); [|done]. by rewrite DepthWalkFacts.visit_by_depth, Hn.
Qed.

(** X26. The depth walk loses nothing on a regular stream: when the first
    node is at level 0 or 1 and no node is more than one level deeper than
    the node before it, every element that yields a node is held by exactly
    one array of the result, once, and the forest returned has as many
    nodes as there are such elements. *)
Theorem regular_stream_kept nodes :
  regularLevels (Some 0) (streamLevels nodes) →
  placements (heap (run nodes)) (cpvData (run nodes))
    ≡ₚ seq 0 (length (streamLevels nodes))
  ∧ ∃ forest, scrapeCPVTree nodes = Some forest
              ∧ sum_list (treeSize <$> forest) = length (streamLevels nodes).
Proof.
  intros Hreg.
  assert (length (heap (run nodes)) = length (streamLevels nodes)) as Hlen
    by (unfold run; by rewrite walk_heap_length_fold).
  rewrite <- Hlen.
  assert (placements (heap (run nodes)) (cpvData (run nodes))
            ≡ₚ seq 0 (length (heap (run nodes)))) as Hperm.
  { destruct (spineInv_fold nodes 0 {| heap := []; cpvData := [] |})
      as (P' & _ & Hperm & _); [|done|done].
    split; [apply DepthWalkOrder.walkInv_run with (nodes := [])|].
    split; [done|]. intros k Hk. assert (k = 0) as -> by lia. by eexists. }
  split; [done|].
  destruct (DepthWalkOrder.walkInv_run nodes) as (_ & Hbound & _ & _ & Hord).
  destruct (reifyAll_enough (heap (run nodes)) (cpvData (run nodes)))
    as [forest Hforest].
  { intros p c Hc. split; [by apply Hord|].
    apply Hbound. by apply (childrenOf_placed _ _ p). }
  { intros r Hr. apply Hbound. unfold placements. apply elem_of_app. by left. }
  exists forest. split; [done|]. by apply (forest_size _ (cpvData (run nodes))).
Qed.

End DepthWalkRegular.

Lemma regular_stream_kept_witness :
  placements (DepthWalk.heap (DepthWalk.run regularStream))
    (DepthWalk.cpvData (DepthWalk.run regularStream))
    ≡ₚ seq 0 (length (streamLevels regularStream))
  ∧ ∃ forest, DepthWalk.scrapeCPVTree regularStream = Some forest
              ∧ sum_list (treeSize <$> forest)
                = length (streamLevels regularStream).
Proof.
  apply DepthWalkRegular.regular_stream_kept.
  vm_compute. repeat split; lia.
Defined.

(** ** The path-map reader returns a forest *)

Module PathMapForest.
Import PathMap.

Lemma strict_visit st node :
  (nodeOf node ≠ None → domPath node ≠ []) →
  pathInv st →
  (∀ p c, c ∈ childrenOf (heap st) p → p < c) →
  ∀ p c, c ∈ childrenOf (heap (visit st node)) p → p < c.
Proof.
  intros Hpath (Hmap & _) Hord.
  rewrite PathMapFacts.visit_by_path. destruct (nodeOf node) as [n|] eqn:Hn;
    [|done].
  specialize (Hpath ltac:(done)). pose proof (nodeOf_leaf _ _ Hn) as Hleaf.
  cbv zeta. change (pathOf node) with (pathKey (domPath node)).
  rewrite parentPathOf_key, lookup_insert_ne.
  2:{ intros Heq%pathKey_inj. symmetry in Heq.
      by apply removelast_shorter in Heq. }
  destruct (nodeMap st !! pathKey (removelast (domPath node)))
    as [parent|] eqn:Hparent; cbn [heap]; intros p c.
  - apply Hmap in Hparent.
    rewrite childrenOf_alter, childrenOf_alloc by done.
    case_decide as Hp; [|apply Hord]. destruct Hp as [-> _].
    intros [Hc| ->%list_elem_of_singleton]%elem_of_app; [by apply Hord|done].
  - rewrite childrenOf_alloc by done. apply Hord.
Qed.

Lemma strict_fold nodes : ∀ st,
  (∀ element, element ∈ nodes → nodeOf element ≠ None → domPath element ≠ []) →
  pathInv st →
  (∀ p c, c ∈ childrenOf (heap st) p → p < c) →
  ∀ p c, c ∈ childrenOf (heap (fold_left visit nodes st)) p → p < c.
Proof.
  induction nodes as [|node nodes IH]; intros st Hpath Hinv Hord; [done|].
  cbn [fold_left]. apply IH.
  - intros e He. apply Hpath. by right.
  - by apply PathMapOrder.pathInv_visit.
  - apply strict_visit; [|done..]. apply Hpath. by left.
Qed.

(** X27. What the path-map reader returns is a finite forest as long as
    every element that yields a node has a parent in the document: every
    child was then created after its parent, so the result can be read back
    (and serialised) from its roots. *)
Theorem path_map_returns_forest nodes :
  (∀ element, element ∈ nodes → nodeOf element ≠ None → domPath element ≠ []) →
  (∀ p c, c ∈ childrenOf (heap (run nodes)) p → p < c)
  ∧ is_Some (scrapeCPVTree nodes).
Proof.
  intros Hpath.
  assert (∀ p c, c ∈ childrenOf (heap (run nodes)) p → p < c) as Hord.
  { apply strict_fold; [done|apply (PathMapOrder.pathInv_run [])|].
    intros p c. unfold childrenOf. cbn. by intros ?%elem_of_nil. }
  split; [done|].
  destruct (PathMapOrder.pathInv_run nodes) as (_ & Hperm & _).
  apply reifyAll_enough.
  - intros p c Hc. split; [by apply Hord|].
    apply (placed_below _ (rootNodes (run nodes))); [done|].
    by apply (childrenOf_placed _ _ p).
  - intros r Hr. apply (placed_below _ (rootNodes (run nodes))); [done|].
    unfold placements. apply elem_of_app. by left.
Qed.

(** X28. An element with no parent in the document is lost by the path-map
    reader: its path and the path of its parent are both the empty text, so
    the node finds itself in the map and becomes its own child, not a
    root. *)
Theorem top_element_is_own_child st node n :
  nodeOf node = Some n → domPath node = [] →
  rootNodes (visit st node) = rootNodes st
  ∧ length (heap st) ∈ childrenOf (heap (visit st node)) (length (heap st)).
Proof.
  intros Hn Hpath. pose proof (nodeOf_leaf _ _ Hn) as Hleaf.
  rewrite PathMapFacts.visit_by_path, Hn. cbv zeta.
  change (pathOf node) with (pathKey (domPath node)).
  rewrite parentPathOf_key, Hpath. cbn [removelast].
  rewrite lookup_insert_eq. cbn [heap rootNodes]. split; [done|].
  rewrite childrenOf_alter, decide_True.
  - apply elem_of_app. right. by apply list_elem_of_singleton.
  - split; [done|]. rewrite length_app. simpl. lia.
Qed.

End PathMapForest.

Lemma path_map_returns_forest_witness :
  (∀ p c, c ∈ childrenOf (PathMap.heap (PathMap.run regularStream)) p → p < c)
  ∧ is_Some (PathMap.scrapeCPVTree regularStream).
Proof.
  apply PathMapForest.path_map_returns_forest. intros element Hin _.
  cbn in Hin. repeat (apply elem_of_cons in Hin as [->|Hin]; [discriminate|]).
  by apply elem_of_nil in Hin.
Defined.

Lemma top_element_is_own_child_witness :
  PathMap.rootNodes
    (PathMap.visit {| PathMap.heap := []; PathMap.nodeMap := ∅;
                      PathMap.rootNodes := [] |}
       (treeElement "45000000-Obras" "width: 0px" [])) = []
  ∧ 0 ∈ childrenOf
          (PathMap.heap
             (PathMap.visit {| PathMap.heap := []; PathMap.nodeMap := ∅;
                               PathMap.rootNodes := [] |}
                (treeElement "45000000-Obras" "width: 0px" []))) 0.
Proof.
  apply (PathMapForest.top_element_is_own_child
           {| PathMap.heap := []; PathMap.nodeMap := ∅; PathMap.rootNodes := [] |}
           (treeElement "45000000-Obras" "width: 0px" [])
           {| code := js "45000000"; description := js "Obras"; level := 0;
              children := [] |}).
  - vm_compute. reflexivity.
  - reflexivity.
Defined.

(** ** calculateTreeStats *)

Lemma Tree_nested_ind (P : Tree → Prop) :
  (∀ c d l kids, Forall P kids → P (TreeNode c d l kids)) → ∀ t, P t.
Proof.
  intros Hnode. fix IH 1. intros [c d l kids]. apply Hnode.
  induction kids as [|kid kids IHkids]; constructor; [apply IH|exact IHkids].
Qed.

Lemma traverse_total : ∀ t d stats,
  totalNodes (traverse t d stats) = totalNodes stats + treeSize t.
Proof.
  apply (Tree_nested_ind (λ t, ∀ d stats,
           totalNodes (traverse t d stats) = totalNodes stats + treeSize t)).
  intros c dsc l kids Hkids d stats. cbn [traverse treeSize].
  assert (∀ st, totalNodes (fold_left (λ st child, traverse child (d + 1) st)
                              kids st)
                = totalNodes st + sum_list (treeSize <$> kids)) as ->.
  { induction Hkids as [|kid kids Hkid _ IH]; intros st; cbn; [lia|].
    rewrite IH, Hkid. lia. }
  cbn [countNode totalNodes]. lia.
Qed.

Lemma countNode_count d stats k :
  default 0 (nodesByLevel (countNode d stats) !! k)
  = default 0 (nodesByLevel stats !! k) + (if decide (k = d) then 1 else 0).
Proof.
  cbn [countNode nodesByLevel]. case_decide as Hk.
  - subst k. by rewrite lookup_insert_eq.
  - rewrite lookup_insert_ne by done. lia.
Qed.

Lemma sum_countFrom d k kids :
  sum_list (countFrom (d + 1) k <$> kids)
  = if decide (d + 1 ≤ k) then sum_list (countAt (k - (d + 1)) <$> kids) else 0.
Proof.
  induction kids as [|kid kids IH]; [by case_decide|].
  cbn [fmap list_fmap sum_list]. fold (countFrom (d + 1) k <$> kids).
  rewrite IH. unfold countFrom. by case_decide.
Qed.

Lemma traverse_count : ∀ t d stats k,
  default 0 (nodesByLevel (traverse t d stats) !! k)
  = default 0 (nodesByLevel stats !! k) + countFrom d k t.
Proof.
  apply (Tree_nested_ind (λ t, ∀ d stats k,
           default 0 (nodesByLevel (traverse t d stats) !! k)
           = default 0 (nodesByLevel stats !! k) + countFrom d k t)).
  intros c dsc l kids Hkids d stats k. cbn [traverse].
  assert (∀ st, default 0 (nodesByLevel
                  (fold_left (λ st child, traverse child (d + 1) st) kids st)
                  !! k)
                = default 0 (nodesByLevel st !! k)
                  + sum_list (countFrom (d + 1) k <$> kids)) as ->.
  { induction Hkids as [|kid kids Hkid _ IH]; intros st; cbn; [lia|].
    rewrite IH, Hkid. fold (countFrom (d + 1) k <$> kids). lia. }
  rewrite countNode_count, sum_countFrom. unfold countFrom.
  repeat case_decide; try lia.
  - assert (k - d = 0) as -> by lia. cbn [countAt]. lia.
  - assert (k - d = S (k - (d + 1))) as -> by lia. cbn [countAt]. lia.
Qed.

Lemma statsInv_countNode d stats : statsInv stats → statsInv (countNode d stats).
Proof.
  intros (Hkeys & Hpos & Hzero & Hmax).
  unfold statsInv. cbn [countNode nodesByLevel maxDepth totalNodes].
  split; [|split; [|split; [lia|]]].
  - intros k. destruct (decide (k = d)) as [->|Hk]; [lia|].
    rewrite lookup_insert_ne by done. intros Hs%Hkeys. lia.
  - intros k. destruct (decide (k = d)) as [->|Hk].
    + rewrite lookup_insert_eq. intros [=]. lia.
    + rewrite lookup_insert_ne by done. apply Hpos.
  - intros _. destruct (decide (maxDepth stats `max` d = d)) as [->|Hd].
    + by rewrite lookup_insert_eq.
    + rewrite lookup_insert_ne by done.
      assert (maxDepth stats `max` d = maxDepth stats) as -> by lia.
      apply Hmax. destruct (totalNodes stats) as [|t]; [|lia].
      specialize (Hzero eq_refl). lia.
Qed.

Lemma statsInv_traverse : ∀ t d stats,
  statsInv stats → statsInv (traverse t d stats).
Proof.
  apply (Tree_nested_ind (λ t, ∀ d stats,
           statsInv stats → statsInv (traverse t d stats))).
  intros c dsc l kids Hkids d stats Hinv. cbn [traverse].
  apply statsInv_countNode with (d := d) in Hinv.
  revert Hinv. generalize (countNode d stats).
  induction Hkids as [|kid kids Hkid _ IH]; intros st Hinv; [done|].
  cbn [fold_left]. by apply IH, Hkid.
Qed.

Lemma countAt_above k : ∀ t, 0 < countAt (S k) t → 0 < countAt k t.
Proof.
  induction k as [|k IHk]; intros [c d l kids]; cbn [countAt]; [lia|].
  induction kids as [|kid kids IH]; cbn; [lia|].
  fold (countAt (S k) <$> kids). fold (countAt k <$> kids).
  intros Hsum.
  destruct (decide (0 < countAt (S k) kid)) as [Hkid%IHk|Hkid]; [lia|].
  assert (0 < sum_list (countAt (S k) <$> kids)) as Hrest%IH by lia. lia.
Qed.

Lemma sum_countAt_above nodes k j :
  k ≤ j → 0 < sum_list (countAt j <$> nodes) →
  0 < sum_list (countAt k <$> nodes).
Proof.
  intros Hkj. induction Hkj as [|j Hkj IH]; [done|]. intros Hsum. apply IH.
  clear IH. induction nodes as [|t nodes IHn]; cbn in *; [lia|].
  fold (countAt (S j) <$> nodes) in Hsum. fold (countAt j <$> nodes).
  destruct (decide (0 < countAt (S j) t)) as [Ht%countAt_above|Ht]; [lia|].
  assert (0 < sum_list (countAt (S j) <$> nodes)) as Hrest%IHn by lia. lia.
Qed.

Lemma calculateTreeStats_fold nodes : ∀ stats,
  statsInv stats →
  let stats' := fold_left (λ stats node, traverse node 0 stats) nodes stats in
  statsInv stats'
  ∧ totalNodes stats' = totalNodes stats + sum_list (treeSize <$> nodes)
  ∧ ∀ k, default 0 (nodesByLevel stats' !! k)
         = default 0 (nodesByLevel stats !! k)
           + sum_list (countAt k <$> nodes).
Proof.
  induction nodes as [|t nodes IH]; intros stats Hinv; cbn zeta.
  - cbn. split; [done|]. split; [lia|]. intros k. lia.
  - cbn [fold_left].
    destruct (IH (traverse t 0 stats)) as (Hinv' & Htotal & Hcount);
      [by apply statsInv_traverse|].
    split; [done|]. split.
    + rewrite Htotal, traverse_total. cbn. lia.
    + intros k. rewrite Hcount, traverse_count. unfold countFrom.
      rewrite decide_True, Nat.sub_0_r by lia. cbn.
      fold (countAt k <$> nodes). lia.
Qed.

(** X29. [calculateTreeStats] counts exactly: [totalNodes] is the number of
    nodes of the forest, [nodesByLevel] holds for each depth the number of
    nodes at that depth and no entry for a depth without nodes, and the
    depths with an entry are those from 0 to [maxDepth] (none for the empty
    forest). *)
Theorem calculateTreeStats_exact nodes :
  totalNodes (calculateTreeStats nodes) = sum_list (treeSize <$> nodes)
  ∧ (∀ k, nodesByLevel (calculateTreeStats nodes) !! k
          = if decide (sum_list (countAt k <$> nodes) = 0) then None
            else Some (sum_list (countAt k <$> nodes)))
  ∧ (∀ k, is_Some (nodesByLevel (calculateTreeStats nodes) !! k)
          ↔ nodes ≠ [] ∧ k ≤ maxDepth (calculateTreeStats nodes)).
Proof.
  destruct (calculateTreeStats_fold nodes
              {| totalNodes := 0; maxDepth := 0; nodesByLevel := ∅ |})
    as ((Hkeys & Hpos & _ & Hmax) & Htotal & Hcount).
  { unfold statsInv. cbn [totalNodes maxDepth nodesByLevel].
    split; [|split; [|split; [done|lia]]]; intros k; rewrite lookup_empty;
      [by intros [? ?]|done]. }
  fold (calculateTreeStats nodes) in *. cbn [totalNodes nodesByLevel] in *.
  assert (∀ k, nodesByLevel (calculateTreeStats nodes) !! k
               = if decide (sum_list (countAt k <$> nodes) = 0) then None
                 else Some (sum_list (countAt k <$> nodes))) as Hexact.
  { intros k. specialize (Hcount k). rewrite lookup_empty in Hcount.
    cbn in Hcount. specialize (Hpos k).
    destruct (nodesByLevel (calculateTreeStats nodes) !! k) as [n|];
      cbn in Hcount; case_decide; try done; try lia.
    - destruct n; [done|lia].
    - by rewrite Hcount. }
  split; [done|]. split; [done|]. intros k. split.
  - intros Hk. split; [|by apply Hkeys].
    intros ->. cbn in Hk. rewrite lookup_empty in Hk. by destruct Hk.
  - intros [Hne Hk]. rewrite Hexact.
    assert (0 < totalNodes (calculateTreeStats nodes)) as Hseen.
    { rewrite Htotal. destruct nodes as [|[c d l kids] nodes]; [done|]. cbn. lia. }
    apply Hmax in Hseen. rewrite Hexact in Hseen.
    case_decide as Hz; [by destruct Hseen|].
    pose proof (sum_countAt_above nodes k _ Hk). case_decide; [lia|by eexists].
Qed.

(** ** calculateTreeStats after scrapeCPVTree *)

(** X30. The statistics count every node the path-map reader created: when
    every element that yields a node has a parent in the document,
    [totalNodes] of the forest returned is the number of those elements,
    none lost and none counted twice. *)
Theorem stats_count_every_element nodes :
  (∀ element, element ∈ nodes → nodeOf element ≠ None → domPath element ≠ []) →
  ∃ forest, PathMap.scrapeCPVTree nodes = Some forest
            ∧ totalNodes (calculateTreeStats forest)
              = length (streamLevels nodes).
Proof.
  intros Hpath.
  pose proof (PathMapOrder.pathInv_run nodes) as Hinv.
  destruct Hinv as (_ & Hperm & _).
  assert (∀ p c, c ∈ childrenOf (PathMap.heap (PathMap.run nodes)) p → p < c)
    as Hord.
  { apply PathMapForest.strict_fold;
      [done|apply (PathMapOrder.pathInv_run [])|].
    intros p c. unfold childrenOf. cbn. by intros ?%elem_of_nil. }
  destruct (reifyAll_enough (PathMap.heap (PathMap.run nodes))
              (PathMap.rootNodes (PathMap.run nodes))) as [forest Hforest].
  { intros p c Hc. split; [by apply Hord|].
    apply (placed_below _ (PathMap.rootNodes (PathMap.run nodes))); [done|].
    by apply (childrenOf_placed _ _ p). }
  { intros r Hr.
    apply (placed_below _ (PathMap.rootNodes (PathMap.run nodes))); [done|].
    unfold placements. apply elem_of_app. by left. }
  exists forest. split; [done|].
  destruct (calculateTreeStats_fold forest
              {| totalNodes := 0; maxDepth := 0; nodesByLevel := ∅ |})
    as (_ & Htotal & _).
  { unfold statsInv. cbn [totalNodes maxDepth nodesByLevel].
    split; [|split; [|split; [done|lia]]]; intros k; rewrite lookup_empty;
      [by intros [? ?]|done]. }
  fold (calculateTreeStats forest) in Htotal. rewrite Htotal. cbn [totalNodes].
  rewrite (forest_size _ _ _ Hord Hperm Hforest).
  unfold PathMap.run. by rewrite PathMapOrder.heap_length_fold.
Qed.

Lemma stats_count_every_element_witness :
  ∃ forest, PathMap.scrapeCPVTree regularStream = Some forest
            ∧ totalNodes (calculateTreeStats forest)
              = length (streamLevels regularStream).
Proof.
  apply stats_count_every_element. intros element Hin _.
  cbn in Hin. repeat (apply elem_of_cons in Hin as [->|Hin]; [discriminate|]).
  by apply elem_of_nil in Hin.
Defined.
